(** * pyQCD: heatbath update, SU(2) subgroups, hopping matrix, conjugate gradient

    A shallow embedding of the numerical core of pyQCD:

    - [utils/matrices.hpp]: [construct_su2], [random_su2],
      [compute_su2_subgroup_pos], [extract_su2], [insert_su2];
    - [algorithms/heatbath.hpp]: [gen_heatbath_su2], [su2_heatbath_update],
      [heatbath_link_update], [heatbath_update];
    - [fermions/hopping_matrix.hpp]: the [HoppingMatrix] constructors and
      [apply_full];
    - [fermions/fermion_action.hpp] and the [TestAction] of the conjugate
      gradient test.

    The template parameter [Real] is idealised by the real numbers [R] of the
    Standard Library; [std::complex<Real>] is a pair of reals.  Unsigned
    32-bit arithmetic is written out on [Z] with [u32], signed 32-bit
    arithmetic with [s32].  Out-of-bounds accesses, exceptions and loops that
    need not terminate are explicit in the result types. *)

From Stdlib Require Import ZArith Reals Lra Lia String FunctionalExtensionality.
From stdpp Require Import base option list.

Set Default Goal Selector "!".


(** ** Machine integers *)

Module Word.
Local Open Scope Z_scope.

(** [unsigned int]: arithmetic modulo 2^32. *)
Definition u32 (z : Z) : Z := z mod 2 ^ 32.

(** [int]: the two's complement reading of the low 32 bits. *)
Definition s32 (z : Z) : Z := (z + 2 ^ 31) mod 2 ^ 32 - 2 ^ 31.
End Word.
Import Word.

(** ** Outcomes of a call *)

(** The exceptions of the modelled code: the range error of the subgroup
    lookup, and the invalid argument of section 7 of the specification. *)
Inductive exn : Type :=
| range_error (what : string)
| invalid_argument (what : string).

(** A call returns, throws, reads or writes outside an array or a matrix
    (undefined behaviour in C++), or is cut off when its loop budget is
    spent. *)
Inductive outcome (A : Type) : Type :=
| Ok (a : A)
| Raise (e : exn)
| OutOfBounds
| OutOfFuel.
Arguments Ok {A} a.
Arguments Raise {A} e.
Arguments OutOfBounds {A}.
Arguments OutOfFuel {A}.

Definition obind {A B} (m : outcome A) (k : A -> outcome B) : outcome B :=
  match m with
  | Ok a => k a
  | Raise e => Raise e
  | OutOfBounds => OutOfBounds
  | OutOfFuel => OutOfFuel
  end.

(** An array read: [v[i]] is out of bounds when [i] is not below the
    length. *)
Definition oread {A} (l : list A) (i : nat) : outcome A :=
  match l !! i with
  | Some a => Ok a
  | None => OutOfBounds
  end.

(** An array write [v[i] = a]. *)
Definition owrite {A} (l : list A) (i : nat) (a : A) : outcome (list A) :=
  if decide (i < length l) then Ok (<[i := a]> l) else OutOfBounds.

#[global] Instance outcome_ret : MRet outcome := @Ok.
#[global] Instance outcome_bind : MBind outcome :=
  fun A B k m => obind m k.

(** [m] does not return. *)
Definition fails {A} (m : outcome A) : Prop := forall a, m <> Ok a.

(** [m] returns or leaves an array; it neither throws nor runs out of
    budget. *)
Definition no_throw {A} (m : outcome A) : Prop :=
  match m with
  | Ok _ | OutOfBounds => True
  | Raise _ | OutOfFuel => False
  end.

Definition omap {A B} (f : A -> B) (m : outcome A) : outcome B :=
  obind m (fun a => Ok (f a)).

(** A counted loop [for (i = 0; i < n; ++i) body] over a threaded state,
    stopping at the first iteration that does not return. *)
Fixpoint for_loop_from {S} (i n : nat) (body : nat -> S -> outcome S) (s : S)
  : outcome S :=
  match n with
  | O => Ok s
  | Datatypes.S n' => obind (body i s) (for_loop_from (Datatypes.S i) n' body)
  end.

Definition for_loop {S} (n : nat) (body : nat -> S -> outcome S) (s : S)
  : outcome S :=
  for_loop_from 0 n body s.

(** Modelled from the spec: [pyQCDassert] (utils/macros.hpp is not among the
    sources).  Section 7 of the specification makes every violation an
    assertion-level failure that terminates the operation, so the macro
    throws its second argument when the condition is false. *)
Definition pyQCDassert (cond : bool) (e : exn) : outcome unit :=
  if cond then Ok tt else Raise e.

(** ** SU(2) subgroup positions (utils/matrices.hpp) *)

Module Subgroup.
Local Open Scope Z_scope.

(** The loop
    [for (i = 0; tmp >= Nc - 1 - i; ++i) tmp -= (Nc - 1 - i);]
    on [unsigned int tmp, i] with [int Nc]: the bound [Nc - 1 - i] is
    computed in unsigned arithmetic.  Returns the final [(tmp, i)]. *)
Fixpoint pos_loop (fuel : nat) (Nc tmp i : Z) : option (Z * Z) :=
  match fuel with
  | O => None
  | S fuel' =>
      if u32 (Nc - 1 - i) <=? tmp
      then pos_loop fuel' Nc (u32 (tmp - u32 (Nc - 1 - i))) (u32 (i + 1))
      else Some (tmp, i)
  end.

(** Iterations granted to [pos_loop]; [pos_loop_total] shows that the
    loop never needs more. *)
Definition pos_fuel (Nc : Z) : nat := Z.to_nat Nc + 2.

Definition invalid_index : exn := range_error "SU(2) subgroup index invalid".

(** [compute_su2_subgroup_pos<Nc>(index, i, j)]; the two reference
    parameters are returned as the pair [(i, j)]. *)
Definition compute_su2_subgroup_pos (Nc index : Z) : outcome (Z * Z) :=
  obind (pyQCDassert (index <? u32 Nc) invalid_index) (fun _ =>
  match pos_loop (pos_fuel Nc) Nc index 0 with
  | Some (tmp, i) => Ok (i, u32 (i + 1 + tmp))
  | None => OutOfFuel
  end).

(** [num_subgroups = (Nc * (Nc - 1)) / 2] of heatbath.hpp and
    matrices.hpp. *)
Definition num_subgroups (Nc : Z) : Z := (Nc * (Nc - 1)) / 2.

(** Row [i] of the specification's enumeration: the pairs
    [(i, i+1) .. (i, Nc-1)]. *)
Definition lex_row (Nc i : nat) : list (Z * Z) :=
  map (fun j => (Z.of_nat i, Z.of_nat j)) (seq (S i) (Nc - 1 - i)).

(** The specification's enumeration: the pairs [(i, j)] with
    [0 <= i < j < Nc] in lexicographic order. *)
Definition lex_pairs (Nc : nat) : list (Z * Z) :=
  flat_map (lex_row Nc) (seq 0 Nc).
End Subgroup.
Import Subgroup.


(** ** Complex numbers: [std::complex<Real>] *)

Module Cplx.
Local Open Scope R_scope.

Definition C : Type := R * R.

Definition RtoC (x : R) : C := (x, 0).
Definition C0 : C := RtoC 0.
Definition C1 : C := RtoC 1.
(** The imaginary unit [I] of core/qcd_types.hpp. *)
Definition Ci : C := (0, 1).

Definition Cre (z : C) : R := fst z.
Definition Cim (z : C) : R := snd z.

Definition Cadd (z w : C) : C := (fst z + fst w, snd z + snd w).
Definition Csub (z w : C) : C := (fst z - fst w, snd z - snd w).
Definition Cmul (z w : C) : C :=
  (fst z * fst w - snd z * snd w, fst z * snd w + snd z * fst w).
Definition Cconj (z : C) : C := (fst z, - snd z).
Definition Cnorm2 (z : C) : R := fst z * fst z + snd z * snd z.
Definition Cabs (z : C) : R := sqrt (Cnorm2 z).

(** [operator/] of [std::complex]: multiply by the conjugate and divide
    both parts by the squared modulus of the divisor. *)
Definition Cdiv (z w : C) : C :=
  ((fst z * fst w + snd z * snd w) / Cnorm2 w,
   (snd z * fst w - fst z * snd w) / Cnorm2 w).

(** [std::sqrt] of a complex number: the root in the right half plane. *)
Definition Csqrt (z : C) : C :=
  (sqrt ((Cabs z + fst z) / 2),
   if Rle_dec 0 (snd z)
   then sqrt ((Cabs z - fst z) / 2)
   else - sqrt ((Cabs z - fst z) / 2)).
End Cplx.
Import Cplx.

(** ** Fixed-size 2x2 matrices: [SU2Matrix<Real>] *)

Record SU2Matrix : Type := mkSU2 {
  m00 : C; m01 : C;
  m10 : C; m11 : C
}.

Module SU2.
Definition identity : SU2Matrix := mkSU2 C1 C0 C0 C1.

Definition add (a b : SU2Matrix) : SU2Matrix :=
  mkSU2 (Cadd (m00 a) (m00 b)) (Cadd (m01 a) (m01 b))
        (Cadd (m10 a) (m10 b)) (Cadd (m11 a) (m11 b)).

Definition sub (a b : SU2Matrix) : SU2Matrix :=
  mkSU2 (Csub (m00 a) (m00 b)) (Csub (m01 a) (m01 b))
        (Csub (m10 a) (m10 b)) (Csub (m11 a) (m11 b)).

(** [scalar * matrix] and [matrix * scalar]. *)
Definition scale (z : C) (a : SU2Matrix) : SU2Matrix :=
  mkSU2 (Cmul z (m00 a)) (Cmul z (m01 a))
        (Cmul z (m10 a)) (Cmul z (m11 a)).

Definition scale_r (a : SU2Matrix) (z : C) : SU2Matrix :=
  mkSU2 (Cmul (m00 a) z) (Cmul (m01 a) z)
        (Cmul (m10 a) z) (Cmul (m11 a) z).

(** [matrix /= scalar]. *)
Definition div (a : SU2Matrix) (z : C) : SU2Matrix :=
  mkSU2 (Cdiv (m00 a) z) (Cdiv (m01 a) z)
        (Cdiv (m10 a) z) (Cdiv (m11 a) z).

Definition mul (a b : SU2Matrix) : SU2Matrix :=
  mkSU2 (Cadd (Cmul (m00 a) (m00 b)) (Cmul (m01 a) (m10 b)))
        (Cadd (Cmul (m00 a) (m01 b)) (Cmul (m01 a) (m11 b)))
        (Cadd (Cmul (m10 a) (m00 b)) (Cmul (m11 a) (m10 b)))
        (Cadd (Cmul (m10 a) (m01 b)) (Cmul (m11 a) (m11 b))).

Definition adjoint (a : SU2Matrix) : SU2Matrix :=
  mkSU2 (Cconj (m00 a)) (Cconj (m10 a))
        (Cconj (m01 a)) (Cconj (m11 a)).

Definition trace (a : SU2Matrix) : C := Cadd (m00 a) (m11 a).

Definition determinant (a : SU2Matrix) : C :=
  Csub (Cmul (m00 a) (m11 a)) (Cmul (m01 a) (m10 a)).

(** Membership in SU(2): unitary with unit determinant. *)
Definition is_SU2 (a : SU2Matrix) : Prop :=
  mul (adjoint a) a = identity /\ determinant a = C1.
End SU2.

(** The Pauli matrices of utils/matrices.hpp. *)
Definition sigma0 : SU2Matrix := SU2.identity.
Definition sigma1 : SU2Matrix := mkSU2 C0 C1 C1 C0.
Definition sigma2 : SU2Matrix := mkSU2 C0 (Csub C0 Ci) Ci C0.
Definition sigma3 : SU2Matrix := mkSU2 C1 C0 C0 (RtoC (-1)).

(** [construct_su2]: [c0 * sigma0 + I * (c1 * sigma1 + c2 * sigma2 +
    c3 * sigma3)] for the four real coefficients. *)
Definition construct_su2 (coefficients : R * R * R * R) : SU2Matrix :=
  let '(c0, c1, c2, c3) := coefficients in
  SU2.add (SU2.scale (RtoC c0) sigma0)
          (SU2.scale Ci
             (SU2.add (SU2.add (SU2.scale (RtoC c1) sigma1)
                               (SU2.scale (RtoC c2) sigma2))
                      (SU2.scale (RtoC c3) sigma3))).

(** ** Colour matrices and colour vectors: [ColourMatrix<Real, Nc>],
    [ColourVector<Real, Nc>] *)

(** Entries are addressed by row and column; the size [Nc] is the template
    parameter and is passed to the operations that range over it. *)
Definition ColourMatrix : Type := nat -> nat -> C.
Definition ColourVector : Type := nat -> C.

Module CM.
(** Sum of [f 0 .. f (n-1)], accumulated from the left. *)
Fixpoint csum (n : nat) (f : nat -> C) : C :=
  match n with
  | O => C0
  | S n' => Cadd (csum n' f) (f n')
  end.

Definition identity : ColourMatrix :=
  fun r c => if Nat.eqb r c then C1 else C0.

Definition zero : ColourMatrix := fun _ _ => C0.

Definition mul (Nc : nat) (a b : ColourMatrix) : ColourMatrix :=
  fun r c => csum Nc (fun k => Cmul (a r k) (b k c)).

Definition scale (z : C) (a : ColourMatrix) : ColourMatrix :=
  fun r c => Cmul z (a r c).

Definition scale_r (a : ColourMatrix) (z : C) : ColourMatrix :=
  fun r c => Cmul (a r c) z.

Definition adjoint (a : ColourMatrix) : ColourMatrix :=
  fun r c => Cconj (a c r).

(** [m(r, c) = z]. *)
Definition set (a : ColourMatrix) (r c : nat) (z : C) : ColourMatrix :=
  fun r' c' => if Nat.eqb r' r && Nat.eqb c' c then z else a r' c'.

Definition mulv (Nc : nat) (a : ColourMatrix) (v : ColourVector)
  : ColourVector :=
  fun r => csum Nc (fun k => Cmul (a r k) (v k)).

Definition vzero : ColourVector := fun _ => C0.

Definition vadd (v w : ColourVector) : ColourVector :=
  fun r => Cadd (v r) (w r).

Definition vsub (v w : ColourVector) : ColourVector :=
  fun r => Csub (v r) (w r).

Definition vscale (z : C) (v : ColourVector) : ColourVector :=
  fun r => Cmul z (v r).

(** Determinant by expansion along the first row, for the sizes the
    statements below need. *)
Definition det2 (a : ColourMatrix) : C :=
  Csub (Cmul (a 0 0) (a 1 1)) (Cmul (a 0 1) (a 1 0)).

(** Unitarity on the [Nc] x [Nc] block. *)
Definition unitary (Nc : nat) (a : ColourMatrix) : Prop :=
  forall r c, r < Nc -> c < Nc -> mul Nc (adjoint a) a r c = identity r c.

(** Membership in SU(2) of a colour matrix with two colours. *)
Definition special_unitary2 (a : ColourMatrix) : Prop :=
  unitary 2 a /\ det2 a = C1.
End CM.

(** ** Extraction and insertion of SU(2) subgroups (utils/matrices.hpp) *)

Section SubgroupMatrices.
Variable Nc : nat.

(** The bounds of Eigen's [operator()]: both indices below [Nc]. *)
Definition in_matrix (i j : Z) : bool :=
  (Z.to_nat i <? Nc) && (Z.to_nat j <? Nc).

(** The 2x2 block of [colour_matrix] at rows and columns [i], [j]. *)
Definition block (colour_matrix : ColourMatrix) (i j : nat) : SU2Matrix :=
  mkSU2 (colour_matrix i i) (colour_matrix i j)
        (colour_matrix j i) (colour_matrix j j).

Definition extract_su2 (colour_matrix : ColourMatrix) (subgroup : Z)
  : outcome SU2Matrix :=
  obind (compute_su2_subgroup_pos (Z.of_nat Nc) subgroup) (fun '(i, j) =>
  if in_matrix i j then
    let ret := block colour_matrix (Z.to_nat i) (Z.to_nat j) in
    Ok (SU2.add (SU2.sub ret (SU2.adjoint ret))
                (SU2.scale_r SU2.identity (Cconj (SU2.trace ret))))
  else OutOfBounds).

Definition insert_su2 (su2_matrix : SU2Matrix) (subgroup : Z)
  : outcome ColourMatrix :=
  let ret := CM.identity in
  obind (compute_su2_subgroup_pos (Z.of_nat Nc) subgroup) (fun '(i, j) =>
  if in_matrix i j then
    let i := Z.to_nat i in
    let j := Z.to_nat j in
    let ret := CM.set ret i i (m00 su2_matrix) in
    let ret := CM.set ret i j (m01 su2_matrix) in
    let ret := CM.set ret j i (m10 su2_matrix) in
    let ret := CM.set ret j j (m11 su2_matrix) in
    Ok ret
  else OutOfBounds).
End SubgroupMatrices.

(** The 2x2 matrix of zeros, and the colour matrix [insert_su2] builds from
    it at the rows and columns [i], [j]. *)
Definition su2_zero : SU2Matrix := mkSU2 C0 C0 C0 C0.

Definition zero_block (i j : nat) : ColourMatrix :=
  CM.set (CM.set (CM.set (CM.set CM.identity i i C0) i j C0) j i C0) j j C0.


(** ** Layouts and lattices *)

(** Modelled from the spec: the layout service (core/layout.hpp is not among
    the sources).  Section 4.1: a layout knows its shape, maps a site index
    to its coordinates, and maps site indices and coordinates to array
    indices and back. *)
Record Layout : Type := mkLayout {
  num_dims : nat;
  volume : nat;
  shape : list Z;
  compute_site_coords : nat -> list Z;
  get_array_index : nat -> nat;
  get_array_index_of_coords : list Z -> nat;
  get_site_index : nat -> nat
}.

(** Modelled from the spec: [sanitize_site_coords] reduces each component
    modulo its extent, with the mathematical modulo (section 4.1). *)
Definition sanitize_site_coords (layout : Layout) (coords : list Z) : list Z :=
  zip_with (fun c n => (c mod n)%Z) coords (shape layout).

(** Modelled from the spec: the lattice container (core/lattice.hpp is not
    among the sources).  Section 4.2: a dense array of [site_size] elements
    per site, with [size() = volume * site_size], flat access [lat[i]] and
    two-index access at [array_index * site_size + offset]. *)
Record Lattice (T : Type) : Type := mkLattice {
  layout : Layout;
  site_size : nat;
  data : list T
}.
Arguments mkLattice {T} _ _ _.
Arguments layout {T} _.
Arguments site_size {T} _.
Arguments data {T} _.

Module Lat.
Section Access.
Context {T : Type}.

Definition size (lat : Lattice T) : nat :=
  volume (layout lat) * site_size lat.

(** The place of [lat(site_index, offset)] in the storage. *)
Definition slot (lat : Lattice T) (site_index offset : nat) : nat :=
  get_array_index (layout lat) site_index * site_size lat + offset.

(** The place of [lat(site_coords, offset)] in the storage. *)
Definition slot_of_coords (lat : Lattice T) (coords : list Z)
           (offset : nat) : nat :=
  get_array_index_of_coords (layout lat) coords * site_size lat + offset.

Definition with_data (lat : Lattice T) (d : list T) : Lattice T :=
  mkLattice (layout lat) (site_size lat) d.

(** [lat[i]] read and written. *)
Definition read (lat : Lattice T) (i : nat) : outcome T :=
  oread (data lat) i.

Definition write (lat : Lattice T) (i : nat) (x : T)
  : outcome (Lattice T) :=
  d ← owrite (data lat) i x; Ok (with_data lat d).

(** A lattice of the given layout and site size, every element [x]. *)
Definition fill (l : Layout) (x : T) (size : nat) : Lattice T :=
  mkLattice l size (replicate (volume l * size) x).
End Access.
End Lat.

(** ** Computations on a state that survive a failure *)

(** The heatbath update changes the gauge field and the random generator in
    place; what it has written stays written when a later step throws. *)
Definition stateful (S A : Type) : Type := S -> outcome A * S.

Module St.
Section Monad.
Context {S : Type}.

Definition ret {A} (a : A) : stateful S A := fun s => (Ok a, s).

Definition bind {A B} (m : stateful S A) (k : A -> stateful S B)
  : stateful S B :=
  fun s =>
    match m s with
    | (Ok a, s') => k a s'
    | (Raise e, s') => (Raise e, s')
    | (OutOfBounds, s') => (OutOfBounds, s')
    | (OutOfFuel, s') => (OutOfFuel, s')
    end.

Definition lift {A} (o : outcome A) : stateful S A := fun s => (o, s).

Fixpoint for_loop_from (i n : nat) (body : nat -> stateful S unit)
  : stateful S unit :=
  match n with
  | O => ret tt
  | Datatypes.S n' =>
      bind (body i) (fun _ => for_loop_from (Datatypes.S i) n' body)
  end.

Definition for_loop (n : nat) (body : nat -> stateful S unit)
  : stateful S unit :=
  for_loop_from 0 n body.
End Monad.
End St.

#[global] Instance stateful_ret {S} : MRet (stateful S) := @St.ret S.
#[global] Instance stateful_bind {S} : MBind (stateful S) :=
  fun A B k m => St.bind m k.

(** ** Random SU(2) matrices and the heatbath update *)

(** Modelled from the spec: the gauge action contract
    (gauge/gauge_action.hpp is not among the sources).  Section 4.5: the
    inverse coupling [beta()] and [compute_staples(field, link_index)]. *)
Record GaugeAction : Type := mkGaugeAction {
  beta : R;
  compute_staples : Lattice ColourMatrix -> nat -> ColourMatrix
}.

Section Heatbath.
Local Open Scope R_scope.

(** The process-wide random source [rng()] of utils/random.hpp, which is
    not among the sources: a generator state and [generate_real(lo, hi)],
    a sample of the interval from [lo] to [hi] (section 4.3). *)
Variable rng_state : Type.
Variable generate_real : R -> R -> rng_state -> R * rng_state.

(** [std::numeric_limits<Real>::epsilon()]. *)
Variable epsilon : R.

(** The number of colours, and the budget of the acceptance loop. *)
Variable Nc : nat.
Variable fuel : nat.

Definition random_su2 : stateful rng_state SU2Matrix := fun g =>
  let '(c0, g) := generate_real 0 1 g in
  let three_vec_magnitude := sqrt (1 - c0 * c0) in
  let '(cos_theta, g) := generate_real (-1) 1 g in
  let sin_theta := sqrt (1 - cos_theta * cos_theta) in
  let '(phi, g) := generate_real 0 (2 * PI) g in
  (Ok (construct_su2
         (c0,
          three_vec_magnitude * sin_theta * cos phi,
          three_vec_magnitude * sin_theta * sin phi,
          three_vec_magnitude * cos_theta)), g).

(** The acceptance loop of [gen_heatbath_su2]; returns the accepted
    [lambda_squared]. *)
Fixpoint accept_loop (n : nat) (weight lambda_squared uniform_squared : R)
  : stateful rng_state R := fun g =>
  match n with
  | O => (OutOfFuel, g)
  | S n' =>
      if Rgt_dec uniform_squared (1 - lambda_squared) then
        let '(u0, g) := generate_real 0 1 g in
        let r0 := 1 - u0 in
        let '(u1, g) := generate_real 0 1 g in
        let r1 := 1 - u1 in
        let '(u2, g) := generate_real 0 1 g in
        let r2 := 1 - u2 in
        let lambda_squared :=
          - 1 / (2 * weight) * (ln r0 + cos (2 * PI * r1) ^ 2 * ln r2) in
        let '(u, g) := generate_real 0 1 g in
        accept_loop n' weight lambda_squared (u ^ 2) g
      else (Ok lambda_squared, g)
  end.

Definition gen_heatbath_su2 (weight : R) : stateful rng_state SU2Matrix :=
  fun g =>
  let lambda_squared := 2 in
  let '(u, g) := generate_real 0 1 g in
  let uniform_squared := u ^ 2 in
  St.bind (accept_loop fuel weight lambda_squared uniform_squared)
    (fun lambda_squared g =>
       let c0 := 1 - 2 * lambda_squared in
       let three_vec_magnitude := sqrt (1 - c0 * c0) in
       let '(cos_theta, g) := generate_real (-1) 1 g in
       let sin_theta := sqrt (1 - cos_theta * cos_theta) in
       let '(phi, g) := generate_real 0 (2 * PI) g in
       (Ok (construct_su2
              (c0,
               three_vec_magnitude * sin_theta * cos phi,
               three_vec_magnitude * sin_theta * sin phi,
               three_vec_magnitude * cos_theta)), g)) g.

(** [su2_heatbath_update]: the reference parameter [link] is passed in and
    its new value is returned; nothing is assigned when a step fails. *)
Definition su2_heatbath_update (link staple : ColourMatrix) (weight : R)
           (subgroup : Z) : stateful rng_state ColourMatrix :=
  let W := CM.mul Nc link staple in
  A ← St.lift (extract_su2 Nc W subgroup);
  let sqrt_detA := Csqrt (SU2.determinant A) in
  let A := SU2.div A sqrt_detA in
  let a := Cre sqrt_detA in
  X ← (if Rlt_dec a (6 * epsilon)
       then random_su2
       else gen_heatbath_su2 (a * weight));
  N ← St.lift (insert_su2 Nc (SU2.mul X (SU2.adjoint A)) subgroup);
  mret (CM.mul Nc N link).

(** The gauge field and the generator, both updated in place. *)
Record hb_state : Type := mkHB {
  gauge_field : Lattice ColourMatrix;
  rng : rng_state
}.

Definition with_rng {A} (m : stateful rng_state A) : stateful hb_state A :=
  fun s =>
    let '(o, g) := m (rng s) in (o, mkHB (gauge_field s) g).

Definition read_link (i : nat) : stateful hb_state ColourMatrix :=
  fun s => (Lat.read (gauge_field s) i, s).

Definition write_link (i : nat) (x : ColourMatrix) : stateful hb_state unit :=
  fun s =>
    match Lat.write (gauge_field s) i x with
    | Ok lat => (Ok tt, mkHB lat (rng s))
    | Raise e => (Raise e, s)
    | OutOfBounds => (OutOfBounds, s)
    | OutOfFuel => (OutOfFuel, s)
    end.

(** [random_sun]: the product of [insert_su2(random_su2(), subgroup)]
    over the [(Nc * (Nc - 1)) / 2] subgroups, starting from the
    identity. *)
Definition random_sun : stateful rng_state ColourMatrix :=
  fold_left
    (fun acc subgroup =>
       ret ← acc;
       rand_su2 ← random_su2;
       N ← St.lift (insert_su2 Nc rand_su2 (Z.of_nat subgroup));
       mret (CM.mul Nc ret N))
    (seq 0 (Z.to_nat (num_subgroups (Z.of_nat Nc))))
    (mret CM.identity).

(** The place of the link that [link_index] names. *)
Definition link_slot (lat : Lattice ColourMatrix) (link_index : nat) : nat :=
  Lat.slot lat (link_index / site_size lat) (link_index mod site_size lat).

(** [heatbath_link_update]: the reference [link] into the field is taken
    once, which is an access to the storage; every turn of the loop
    reads and writes the field through it. *)
Definition heatbath_link_update (action : GaugeAction) (link_index : nat)
  : stateful hb_state unit := fun s =>
  let staple := compute_staples action (gauge_field s) link_index in
  let link := link_slot (gauge_field s) link_index in
  let beta_prime := beta action / INR Nc in
  let num_subgroups := Z.to_nat (num_subgroups (Z.of_nat Nc)) in
  (_ ← read_link link;
   St.for_loop num_subgroups (fun subgroup =>
     l ← read_link link;
     l' ← with_rng (su2_heatbath_update l staple beta_prime
                                        (Z.of_nat subgroup));
     write_link link l')) s.

Definition heatbath_update (action : GaugeAction) (num_iter : nat)
  : stateful hb_state unit := fun s =>
  let num_links := Lat.size (gauge_field s) in
  St.for_loop num_iter (fun _ =>
    St.for_loop num_links (fun link =>
      heatbath_link_update action link)) s.
End Heatbath.

(** [m] relates every state to the state it leaves, whatever the outcome. *)
Definition preserves {S A} (P : S -> S -> Prop) (m : stateful S A) : Prop :=
  forall s, P s (snd (m s)).

(** The two states hold the same lattice except perhaps at slot [i]. *)
Definition same_but {rng_state : Type} (i : nat)
           (s s' : hb_state rng_state) : Prop :=
  layout (gauge_field _ s') = layout (gauge_field _ s)
  /\ site_size (gauge_field _ s') = site_size (gauge_field _ s)
  /\ length (data (gauge_field _ s')) = length (data (gauge_field _ s))
  /\ forall j, j <> i ->
       data (gauge_field _ s') !! j = data (gauge_field _ s) !! j.


(** ** The hopping matrix (fermions/hopping_matrix.hpp) *)

(** [Eigen::MatrixXcd]: a matrix of run-time size, stored by rows. *)
Definition MatrixXcd : Type := list (list C).

Definition coeff (m : MatrixXcd) (r c : nat) : outcome C :=
  row ← oread m r; oread row c.

Record HoppingMatrix : Type := mkHoppingMatrix {
  scattered_gauge_field_ : Lattice ColourMatrix;
  spin_structures_ : list MatrixXcd;
  neighbour_array_indices_ : list (list nat);
  num_spins_ : nat
}.

Definition set_spin_structures (hm : HoppingMatrix)
           (matrices : list MatrixXcd) : HoppingMatrix :=
  mkHoppingMatrix (scattered_gauge_field_ hm) matrices
                  (neighbour_array_indices_ hm) (num_spins_ hm).

Definition num_spins (hm : HoppingMatrix) : nat := num_spins_ hm.

Section Hopping.
(** The template parameters [Nc] and [Nhops]. *)
Variable Nc : nat.
Variable Nhops : nat.

Local Open Scope Z_scope.

(** Modelled from the spec: the component type of a site coordinate
    (core/layout.hpp is not among the sources).  Section 4.1 has
    sanitisation accept signed inputs, so a component is an [int];
    [site_coords[d] += v] and [site_coords[d] -= v] with an [unsigned] [v]
    are computed modulo 2^32 and read back as an [int]. *)
Definition coord_add (site_coords : list Z) (d : nat) (v : Z)
  : outcome (list Z) :=
  c ← oread site_coords d; owrite site_coords d (s32 (c + u32 v)).

Definition coord_sub (site_coords : list Z) (d : nat) (v : Z)
  : outcome (list Z) :=
  c ← oread site_coords d; owrite site_coords d (s32 (c - u32 v)).

(** [lat(site_index, offset) *= m]. *)
Definition mul_assign (lat : Lattice ColourMatrix) (i : nat)
           (m : ColourMatrix) : outcome (Lattice ColourMatrix) :=
  x ← Lat.read lat i; Lat.write lat i (CM.mul Nc x m).

(** One turn of the loop over [h] for the site [site_index] and the
    axis [d]; the state is the working coordinate and the scattered
    field. *)
Definition hop_step (gauge_field : Lattice ColourMatrix)
           (site_index d h : nat)
           (st : list Z * Lattice ColourMatrix)
  : outcome (list Z * Lattice ColourMatrix) :=
  let '(site_coords, scattered) := st in
  let layout := layout gauge_field in
  site_coords ← coord_add site_coords d (Z.of_nat h - Z.of_nat Nhops);
  let site_coords := sanitize_site_coords layout site_coords in
  u ← Lat.read gauge_field (Lat.slot_of_coords gauge_field site_coords d);
  scattered ← mul_assign scattered
                (Lat.slot scattered site_index (2 * d)%nat) u;
  site_coords ← coord_add site_coords d (Z.of_nat Nhops);
  let site_coords := sanitize_site_coords layout site_coords in
  u ← Lat.read gauge_field (Lat.slot_of_coords gauge_field site_coords d);
  scattered ← mul_assign scattered
                (Lat.slot scattered site_index (2 * d + 1)%nat) u;
  site_coords ← coord_sub site_coords d (Z.of_nat h);
  Ok (site_coords, scattered).

(** The body of the loop over the axes [d] for the site [site_index]. *)
Definition scatter_axis (gauge_field : Lattice ColourMatrix)
           (phases : list C) (site_index d : nat)
           (st : Lattice ColourMatrix * list (list nat))
  : outcome (Lattice ColourMatrix * list (list nat)) :=
  let '(scattered, neighbours) := st in
  let layout := layout gauge_field in
  let arr_index := get_array_index layout site_index in
  let site_coords := compute_site_coords layout site_index in
  c ← oread site_coords d;
  extent ← oread (shape layout) d;
  phase_fwd ← (if extent <=? u32 (c + Z.of_nat Nhops)
               then oread phases d else Ok C1);
  phase_bck ← (if u32 c <? u32 (Z.of_nat Nhops)
               then oread phases d else Ok C1);
  scattered ← Lat.write scattered
                (Lat.slot scattered site_index (2 * d)%nat)
                (CM.scale_r CM.identity phase_bck);
  scattered ← Lat.write scattered
                (Lat.slot scattered site_index (2 * d + 1)%nat)
                (CM.scale_r CM.identity phase_fwd);
  '(site_coords, scattered) ←
    for_loop Nhops (hop_step gauge_field site_index d)
             (site_coords, scattered);
  site_coords ← coord_sub site_coords d (Z.of_nat Nhops);
  let site_coords := sanitize_site_coords layout site_coords in
  let site_index_minus :=
    get_site_index layout (get_array_index_of_coords layout site_coords) in
  site_coords ← coord_add site_coords d (2 * Z.of_nat Nhops);
  let site_coords := sanitize_site_coords layout site_coords in
  let site_index_plus :=
    get_site_index layout (get_array_index_of_coords layout site_coords) in
  site_coords ← coord_sub site_coords d (Z.of_nat Nhops);
  let arr_index_minus := get_array_index layout site_index_minus in
  let arr_index_plus := get_array_index layout site_index_plus in
  row ← oread neighbours arr_index;
  row ← owrite row (2 * d)%nat arr_index_minus;
  neighbours ← owrite neighbours arr_index row;
  row ← oread neighbours arr_index;
  row ← owrite row (2 * d + 1)%nat arr_index_plus;
  neighbours ← owrite neighbours arr_index row;
  Ok (scattered, neighbours).

(** The two-argument constructor.  The elements of the fresh scattered
    field are written before they are read; they start as zero
    matrices here. *)
Definition HoppingMatrix_ctor (gauge_field : Lattice ColourMatrix)
           (phases : list C) : outcome HoppingMatrix :=
  let layout := layout gauge_field in
  let scattered :=
    Lat.fill layout CM.zero (2 * num_dims layout)%nat in
  let num_spins := (2 ^ (num_dims layout / 2))%nat in
  let volume := volume layout in
  let neighbours := replicate volume (replicate (num_dims layout * 2) 0%nat) in
  '(scattered, neighbours) ←
    for_loop volume (fun site_index =>
      for_loop (num_dims layout)
               (scatter_axis gauge_field phases site_index))
      (scattered, neighbours);
  Ok (mkHoppingMatrix scattered [] neighbours num_spins).

(** The three-argument constructor. *)
Definition HoppingMatrix_ctor_spin (gauge_field : Lattice ColourMatrix)
           (phases : list C) (spin_structures : list MatrixXcd)
  : outcome HoppingMatrix :=
  hm ← HoppingMatrix_ctor gauge_field phases;
  Ok (set_spin_structures hm spin_structures).

Local Close Scope Z_scope.

(** [lat[i] += v] on a lattice of colour vectors. *)
Definition add_assign (lat : Lattice ColourVector) (i : nat)
           (v : ColourVector) : outcome (Lattice ColourVector) :=
  x ← Lat.read lat i; Lat.write lat i (CM.vadd x v).

(** The innermost body of the first loop nest of [apply_full]. *)
Definition gather_step (hm : HoppingMatrix)
           (fermion_in : Lattice ColourVector)
           (ndims arr_index mu alpha beta : nat)
           (pre_gather_results : Lattice ColourVector)
  : outcome (Lattice ColourVector) :=
  let local_index := 2 * (ndims * arr_index + mu) in
  s ← oread (spin_structures_ hm) (2 * mu);
  z ← coeff s alpha beta;
  u ← Lat.read (scattered_gauge_field_ hm) local_index;
  psi ← Lat.read fermion_in (ndims * arr_index + beta);
  pre_gather_results ←
    add_assign pre_gather_results
               (num_spins_ hm * local_index + 2 * alpha)
               (CM.mulv Nc (CM.scale z u) psi);
  s ← oread (spin_structures_ hm) (2 * mu + 1);
  z ← coeff s alpha beta;
  u ← Lat.read (scattered_gauge_field_ hm) (local_index + 1);
  psi ← Lat.read fermion_in (ndims * arr_index + beta);
  add_assign pre_gather_results
             (num_spins_ hm * local_index + 2 * alpha + 1)
             (CM.mulv Nc (CM.scale z (CM.adjoint u)) psi).

(** The innermost body of the second loop nest of [apply_full]. *)
Definition scatter_step (hm : HoppingMatrix)
           (pre_gather_results : Lattice ColourVector)
           (ndims arr_index mu neighbour_index_plus neighbour_index_minus
              alpha : nat)
           (fermion_out : Lattice ColourVector)
  : outcome (Lattice ColourVector) :=
  let gather_index := 2 * (num_spins_ hm * (ndims * arr_index + mu) + alpha) in
  p ← Lat.read pre_gather_results gather_index;
  fermion_out ←
    add_assign fermion_out (num_spins_ hm * neighbour_index_plus + alpha) p;
  p ← Lat.read pre_gather_results (gather_index + 1);
  add_assign fermion_out (num_spins_ hm * neighbour_index_minus + alpha) p.

(** The first loop nest: the products before the gather. *)
Definition gather (hm : HoppingMatrix) (fermion_in : Lattice ColourVector)
  : outcome (Lattice ColourVector) :=
  let layout := layout fermion_in in
  let ndims := num_dims layout in
  let volume := volume layout in
  let pre_gather_results :=
    Lat.fill layout CM.vzero (ndims * num_spins_ hm * 2) in
  for_loop volume (fun arr_index =>
    for_loop ndims (fun mu =>
      for_loop (num_spins_ hm) (fun alpha =>
        for_loop (num_spins_ hm) (fun beta =>
          gather_step hm fermion_in ndims arr_index mu alpha beta))))
    pre_gather_results.

(** The second loop nest: the sums into [fermion_out]. *)
Definition scatter (hm : HoppingMatrix)
           (pre_gather_results : Lattice ColourVector)
           (ndims volume : nat) (fermion_out : Lattice ColourVector)
  : outcome (Lattice ColourVector) :=
  for_loop volume (fun arr_index =>
    for_loop ndims (fun mu fermion_out =>
      row ← oread (neighbour_array_indices_ hm) arr_index;
      neighbour_index_plus ← oread row (2 * mu);
      row ← oread (neighbour_array_indices_ hm) arr_index;
      neighbour_index_minus ← oread row (2 * mu + 1);
      for_loop (num_spins_ hm)
               (scatter_step hm pre_gather_results ndims arr_index mu
                             neighbour_index_plus neighbour_index_minus)
               fermion_out))
    fermion_out.

(** [apply_full(fermion_out, fermion_in)]; returns the new contents of
    [fermion_out].  Modelled from the spec: the fresh lattice
    [pre_gather_results] starts as zero vectors (core/lattice.hpp is not
    among the sources). *)
Definition apply_full (hm : HoppingMatrix)
           (fermion_out fermion_in : Lattice ColourVector)
  : outcome (Lattice ColourVector) :=
  let layout := layout fermion_in in
  pre_gather_results ← gather hm fermion_in;
  scatter hm pre_gather_results (num_dims layout) (volume layout)
          fermion_out.
End Hopping.

(** A spinor field of the shape of [b], all zero, and the sum of two
    spinor fields element by element. *)
Definition zero_like (b : Lattice ColourVector) : Lattice ColourVector :=
  Lat.with_data b (map (fun _ => CM.vzero) (data b)).

Definition plus_field (out r : Lattice ColourVector) : Lattice ColourVector :=
  Lat.with_data out (zip_with CM.vadd (data out) (data r)).

Definition same_length (out s : Lattice ColourVector) : Prop :=
  length (data s) = length (data out).


(** ** Fermion actions (fermions/fermion_action.hpp) and the conjugate
    gradient *)

Module Fermions.
Local Open Scope R_scope.

(** [std::exp] of a complex number. *)
Definition Cexp (z : C) : C := (exp (fst z) * cos (snd z), exp (fst z) * sin (snd z)).

(** The abstract class [Action]: the two members and the three virtual
    functions.  [apply_full out in] is the new value of [out]. *)
Record Action : Type := mkAction {
  mass_ : R;
  phases_ : list C;
  apply_full :
    Lattice ColourVector -> Lattice ColourVector -> Lattice ColourVector;
  apply_hermiticity : Lattice ColourVector -> Lattice ColourVector;
  remove_hermiticity : Lattice ColourVector -> Lattice ColourVector
}.

(** The members the constructor of [Action] sets:
    [phases_[k] = exp(I * pi_frac[k] * (2 * pi))]. *)
Definition Action_phases (pi_frac : list R) : list C :=
  map (fun pi_angle => Cexp (Cmul (Cmul Ci (RtoC pi_angle)) (RtoC (2 * PI))))
      pi_frac.

(** A real times a complex number, and a real times a colour vector. *)
Definition Cscale (x : R) (z : C) : C := (x * fst z, x * snd z).

Definition rscale (x : R) (v : ColourVector) : ColourVector :=
  fun k => Cscale x (v k).

(** [real * lattice]: every component of every element times the real. *)
Definition scale_real (x : R) (f : Lattice ColourVector)
  : Lattice ColourVector :=
  Lat.with_data f (map (rscale x) (data f)).

(** The [TestAction] of the conjugate gradient test:
    [fermion_out = mass_ * fermion_in], and no hermiticity to apply. *)
Definition TestAction (mass : R) : Action :=
  mkAction mass []
           (fun fermion_out fermion_in => scale_real mass fermion_in)
           (fun fermion => fermion)
           (fun fermion => fermion).
End Fermions.

Module CG.
Local Open Scope R_scope.

Section Solver.
(** The number of colours of a spinor component. *)
Variable Nc : nat.

(** Modelled from the spec: the inner product of two spinor fields
    (algorithms/conjugate_gradient.hpp is not among the sources).
    Section 4.8: the complex conjugate is taken in the first
    argument. *)
Definition vdot (v w : ColourVector) : C :=
  CM.csum Nc (fun k => Cmul (Cconj (v k)) (w k)).

Definition dot (a b : Lattice ColourVector) : C :=
  fold_left Cadd (zip_with vdot (data a) (data b)) C0.

(** Modelled from the spec: [a + z * b] and [a - z * b] on spinor
    fields, element by element. *)
Definition axpy (a : Lattice ColourVector) (z : C)
           (b : Lattice ColourVector) : Lattice ColourVector :=
  Lat.with_data a
    (zip_with (fun v w => CM.vadd v (CM.vscale z w)) (data a) (data b)).

Definition axmy (a : Lattice ColourVector) (z : C)
           (b : Lattice ColourVector) : Lattice ColourVector :=
  Lat.with_data a
    (zip_with (fun v w => CM.vsub v (CM.vscale z w)) (data a) (data b)).

Variable action : Fermions.Action.

(** Modelled from the spec: [M x] through [apply_full] into a zeroed
    working spinor of the shape of [x], and the adjoint
    [M† x] by wrapping [apply_full] inside the hermiticity pair
    (section 4.8, step 1). *)
Definition apply_M (x : Lattice ColourVector) : Lattice ColourVector :=
  Fermions.apply_full action (zero_like x) x.

Definition apply_Mdag (x : Lattice ColourVector) : Lattice ColourVector :=
  Fermions.apply_hermiticity action
    (apply_M (Fermions.remove_hermiticity action x)).

(** Modelled from the spec: the stopping test of step 4,
    [|r'|^2 <= tol^2 |b|^2], or absolutely [|r'|^2 <= tol^2]. *)
Definition converged (tol bb rr : R) : bool :=
  if Rle_dec rr (tol ^ 2 * bb) then true
  else if Rle_dec rr (tol ^ 2) then true else false.

(** Modelled from the spec: the iteration of section 4.8, steps 1 to 5.
    [n] iterations remain and [k] have been made; at the cap the last
    residual is returned with [k = max_iter]. *)
Fixpoint iterate (n k : nat) (tol bb : R)
         (x r p : Lattice ColourVector)
  : Lattice ColourVector * R * nat :=
  match n with
  | O => (x, sqrt (Cre (dot r r)), k)
  | S n' =>
      let q := apply_Mdag (apply_M p) in
      let alpha := Cdiv (dot r r) (dot p q) in
      let x := axpy x alpha p in
      let r' := axmy r alpha q in
      if converged tol bb (Cre (dot r' r'))
      then (x, sqrt (Cre (dot r' r')), S k)
      else
        let beta := Cdiv (dot r' r') (dot r r) in
        iterate n' (S k) tol bb x r' (axpy r' beta p)
  end.

(** Modelled from the spec: section 7 lists a tolerance [<= 0] among
    the invalid arguments, and makes every violation an assertion-level
    failure that terminates the operation. *)
Definition invalid_tolerance : exn :=
  invalid_argument "tolerance must be positive".

(** Modelled from the spec: [conjugate_gradient(action, rhs, max_iter,
    tol)] with [x0 = 0] and [r0 = p0 = M† b]; returns the solution, the
    norm of the final residual and the number of iterations, and fails
    when the tolerance is not positive. *)
Definition conjugate_gradient (rhs : Lattice ColourVector)
           (max_iter : nat) (tol : R)
  : outcome (Lattice ColourVector * R * nat) :=
  _ ← pyQCDassert (if Rlt_dec 0 tol then true else false)
                  invalid_tolerance;
  let r0 := apply_Mdag rhs in
  Ok (iterate max_iter 0 tol (Cre (dot rhs rhs)) (zero_like rhs) r0 r0).
End Solver.

(** Two spinor fields of [Nc] colours are the same field: same layout,
    same site size, and the same [Nc] components in every element. *)
Definition agrees (Nc : nat) (x y : Lattice ColourVector) : Prop :=
  layout x = layout y /\ site_size x = site_size y
  /\ Forall2 (fun v w : ColourVector => forall k, (k < Nc)%nat -> v k = w k)
             (data x) (data y).
End CG.


(** ** The lexicographic layout and small concrete inputs *)

Module Lexico.
Local Open Scope Z_scope.

(** Modelled from the spec: the baseline lexicographic layout
    (core/layout.hpp is not among the sources).  Section 4.1: the site
    index is the mixed-radix number of the coordinates in declared axis
    order, and array indices are site indices. *)
Definition index_of_coords (shape coords : list Z) : Z :=
  fold_left (fun acc cn => acc * snd cn + fst cn) (zip coords shape) 0.

Definition coords_of_index (shape : list Z) (site_index : Z) : list Z :=
  snd (fold_right (fun n acc => (fst acc / n, fst acc mod n :: snd acc))
                  (site_index, []) shape).

Definition LexicoLayout (shape : list Z) : Layout :=
  mkLayout (length shape)
           (Z.to_nat (fold_right Z.mul 1 shape))
           shape
           (fun site_index => coords_of_index shape (Z.of_nat site_index))
           (fun site_index => site_index)
           (fun coords => Z.to_nat (index_of_coords shape coords))
           (fun array_index => array_index).
End Lexico.

Module Inputs.
Local Open Scope R_scope.

(** A generator whose every sample is the lower end of the interval it is
    asked for; its state is trivial. *)
Definition low_rng (lo hi : R) (g : unit) : R * unit := (lo, g).

(** The machine epsilon of [double], 2^-52. *)
Definition double_epsilon : R := / 2 ^ 52.

(** A gauge action with inverse coupling 1 whose staples vanish, as the
    sum over perpendicular directions does on a lattice with one axis. *)
Definition zero_staple_action : GaugeAction :=
  mkGaugeAction 1 (fun _ _ => CM.zero).

(** One site, one axis, one link: the identity. *)
Definition one_link_field : Lattice ColourMatrix :=
  Lat.fill (Lexico.LexicoLayout [1%Z]) CM.identity 1.

Definition one_link_state : hb_state unit := mkHB unit one_link_field tt.

(** The link that one sweep over [one_link_state] leaves behind. *)
Definition broken_link : ColourMatrix :=
  CM.mul 2 (zero_block 0 1) CM.identity.

(** The matrix [random_su2] builds from [low_rng]. *)
Definition low_su2 : SU2Matrix :=
  construct_su2
    (0,
     sqrt (1 - 0 * 0) * sqrt (1 - -1 * -1) * cos 0,
     sqrt (1 - 0 * 0) * sqrt (1 - -1 * -1) * sin 0,
     sqrt (1 - 0 * 0) * -1).

(** The source of the conjugate gradient test, on one site: four spin
    components, the first colour of the first one set to 1. *)
Definition unit_colour : ColourVector :=
  fun k => if Nat.eqb k 0 then C1 else C0.

Definition unit_source : Lattice ColourVector :=
  mkLattice (Lexico.LexicoLayout [1%Z]) 4
            [unit_colour; CM.vzero; CM.vzero; CM.vzero].

(** A lattice of 2 x 3 sites with identity links, and unit phases. *)
Definition grid_layout : Layout := Lexico.LexicoLayout [2%Z; 3%Z].

Definition grid_gauge : Lattice ColourMatrix :=
  Lat.fill grid_layout CM.identity 2.

Definition grid_phases : list C := [C1; C1].

(** A line of two sites with identity links: its hopping matrix for one
    hop as the two-argument constructor builds it, and the same with two
    1 x 1 spin structures set. *)
Definition line_layout : Layout := Lexico.LexicoLayout [2%Z].

Definition line_gauge : Lattice ColourMatrix :=
  Lat.fill line_layout CM.identity 1.

(** The two links of the line, for the heatbath update. *)
Definition two_link_state : hb_state unit := mkHB unit line_gauge tt.

Definition line_hopping : HoppingMatrix :=
  match HoppingMatrix_ctor 3 1 line_gauge [C1] with
  | Ok hm => hm
  | _ => mkHoppingMatrix line_gauge [] [] 0
  end.

Definition unit_spin : MatrixXcd := [[C1]].

Definition line_hopping_spin : HoppingMatrix :=
  set_spin_structures line_hopping [unit_spin; unit_spin].

(** Spinor fields on the line: all zero, and the first colour 1 at both
    sites. *)
Definition line_zero : Lattice ColourVector :=
  Lat.fill line_layout CM.vzero 1.

Definition line_ones : Lattice ColourVector :=
  Lat.fill line_layout unit_colour 1.
End Inputs.


(** ** What the constructor of the hopping matrix is to store *)

Module HopSpec.
Local Open Scope Z_scope.

(** Every component of [coords] lies inside its extent. *)
Definition in_range (L : Layout) (coords : list Z) : Prop :=
  Forall2 (fun c n => 0 <= c < n) coords (shape L).

(** The layout contract of section 4.1 for [Nhops] hops: one extent per
    axis, positive and small enough for 32-bit coordinate arithmetic;
    site coordinates inside the extents; array indices a bijection of
    the volume, with [get_site_index] the inverse. *)
Record layout_ok (Nhops : nat) (L : Layout) : Prop := mk_layout_ok {
  shape_dims : length (shape L) = num_dims L;
  shape_small :
    Forall (fun n => 0 < n /\ n + 2 * Z.of_nat Nhops < 2 ^ 31) (shape L);
  coords_in_range :
    forall s, (s < volume L)%nat -> in_range L (compute_site_coords L s);
  array_index_lt :
    forall s, (s < volume L)%nat -> (get_array_index L s < volume L)%nat;
  array_index_inj :
    forall s s', (s < volume L)%nat -> (s' < volume L)%nat ->
      get_array_index L s = get_array_index L s' -> s = s';
  coords_index_lt :
    forall coords, in_range L coords ->
      (get_array_index_of_coords L coords < volume L)%nat;
  array_site_array :
    forall a, (a < volume L)%nat ->
      get_array_index L (get_site_index L a) = a
}.

(** A link field: one matrix per site and axis. *)
Definition gauge_ok (gf : Lattice ColourMatrix) : Prop :=
  site_size gf = num_dims (layout gf)
  /\ length (data gf) = (volume (layout gf) * num_dims (layout gf))%nat.

(** The coordinates [coords] with the component [d] moved to [v], under
    periodic wrap. *)
Definition shift_coords (L : Layout) (coords : list Z) (d : nat) (v : Z)
  : list Z :=
  sanitize_site_coords L (<[d := v]> coords).

(** The link of [gf] at the site [coords] in direction [d]. *)
Definition link_at (gf : Lattice ColourMatrix) (coords : list Z) (d : nat)
  : ColourMatrix :=
  default CM.zero (data gf !! Lat.slot_of_coords gf coords d).

(** The link in direction [d] on the line through the site [site_index],
    at coordinate [v] along [d]. *)
Definition met (gf : Lattice ColourMatrix) (site_index d : nat) (v : Z)
  : ColourMatrix :=
  link_at gf
    (shift_coords (layout gf)
                  (compute_site_coords (layout gf) site_index) d v) d.

(** The straight-line product of [Nhops] links in direction [d], from the
    coordinate [start] on, multiplied from the left into [phase] times
    the identity. *)
Definition line_product (Nc Nhops : nat) (gf : Lattice ColourMatrix)
           (coords : list Z) (d : nat) (start : Z) (phase : C)
  : ColourMatrix :=
  fold_left
    (fun acc h =>
       CM.mul Nc acc
         (link_at gf
            (shift_coords (layout gf) coords d (start + Z.of_nat h)) d))
    (seq 0 Nhops) (CM.scale_r CM.identity phase).

Definition coord_of (L : Layout) (s d : nat) : Z :=
  default 0 (compute_site_coords L s !! d).

Definition extent_of (L : Layout) (d : nat) : Z :=
  default 0 (shape L !! d).

Definition phase_of (phases : list C) (d : nat) : C :=
  default C1 (phases !! d).

(** The forward phase: [phase[d]] if [c_d + H >= extent[d]], else 1. *)
Definition phase_fwd (Nhops : nat) (L : Layout) (phases : list C)
           (s d : nat) : C :=
  if extent_of L d <=? coord_of L s d + Z.of_nat Nhops
  then phase_of phases d else C1.

(** The backward phase: [phase[d]] if [c_d < H], else 1. *)
Definition phase_bck (Nhops : nat) (L : Layout) (phases : list C)
           (s d : nat) : C :=
  if coord_of L s d <? Z.of_nat Nhops then phase_of phases d else C1.

(** The array index of the site at coordinate [v] along [d] on the line
    through the site [s], under periodic wrap. *)
Definition neighbour (L : Layout) (s d : nat) (v : Z) : nat :=
  get_array_index_of_coords L
    (shift_coords L (compute_site_coords L s) d v).

(** The state of the two loops of the constructor: the scattered field
    and the neighbour table. *)
Definition scatter_state : Type := Lattice ColourMatrix * list (list nat).

Definition wf_state (gf : Lattice ColourMatrix) (st : scatter_state)
  : Prop :=
  let L := layout gf in
  layout (fst st) = L /\ site_size (fst st) = (2 * num_dims L)%nat
  /\ length (data (fst st)) = (volume L * (2 * num_dims L))%nat
  /\ length (snd st) = volume L
  /\ forall a row, snd st !! a = Some row ->
                   length row = (num_dims L * 2)%nat.

(** The entries of the site [s] and the axis [d] hold what the
    constructor is to leave in them. *)
Definition done (Nc Nhops : nat) (gf : Lattice ColourMatrix)
           (phases : list C) (s d : nat) (st : scatter_state) : Prop :=
  let L := layout gf in
  let a := get_array_index L s in
  let c := coord_of L s d in
  let H := Z.of_nat Nhops in
  data (fst st) !! (a * (2 * num_dims L) + 2 * d)%nat
  = Some (line_product Nc Nhops gf (compute_site_coords L s) d (c - H)
                       (phase_bck Nhops L phases s d))
  /\ data (fst st) !! (a * (2 * num_dims L) + (2 * d + 1))%nat
     = Some (line_product Nc Nhops gf (compute_site_coords L s) d c
                          (phase_fwd Nhops L phases s d))
  /\ exists row, snd st !! a = Some row
                 /\ row !! (2 * d)%nat = Some (neighbour L s d (c - H))
                 /\ row !! (2 * d + 1)%nat = Some (neighbour L s d (c + H)).

(** Nothing outside the block of the array index [a] has changed. *)
Definition outside (gf : Lattice ColourMatrix) (a : nat)
           (st st' : scatter_state) : Prop :=
  let nd := num_dims (layout gf) in
  (forall j, ~ (a * (2 * nd) <= j < (a + 1) * (2 * nd))%nat ->
             data (fst st') !! j = data (fst st) !! j)
  /\ forall a', a' <> a -> snd st' !! a' = snd st !! a'.
End HopSpec.


(** ** Notions the further properties are stated with *)

(** The shape [[p, q], [-conj q, conj p]] that every real multiple of an
    SU(2) matrix has, and the squared norm of its first row. *)
Definition su2_shaped (a : SU2Matrix) : Prop :=
  m11 a = Cconj (m00 a) /\ m10 a = Csub C0 (Cconj (m01 a)).

Definition su2_norm2 (a : SU2Matrix) : R :=
  (Cnorm2 (m00 a) + Cnorm2 (m01 a))%R.

Definition su2_unit (a : SU2Matrix) : Prop :=
  su2_shaped a /\ su2_norm2 a = 1%R.

(** A generator whose samples lie in the half-open interval it is asked
    for. *)
Definition uniform_range {G : Type} (generate_real : R -> R -> G -> R * G)
  : Prop :=
  forall lo hi g, (lo < hi)%R -> (lo <= fst (generate_real lo hi g) < hi)%R.

(** Equality of two colour matrices on the [Nc] x [Nc] block. *)
Definition meq (Nc : nat) (a b : ColourMatrix) : Prop :=
  forall r c, r < Nc -> c < Nc -> a r c = b r c.

Definition unit_modulus (z : C) : Prop := Cnorm2 z = 1%R.

(** The colour matrix [insert_su2] builds from [su2_matrix] at the rows and
    columns [i], [j]. *)
Definition placed (su2_matrix : SU2Matrix) (i j : nat) : ColourMatrix :=
  CM.set (CM.set (CM.set (CM.set CM.identity i i (m00 su2_matrix))
                         i j (m01 su2_matrix))
                 j i (m10 su2_matrix))
         j j (m11 su2_matrix).

(** The two states hold lattices of the same layout, site size and number
    of elements. *)
Definition same_shape {rng_state : Type} (s s' : hb_state rng_state) : Prop :=
  layout (gauge_field _ s') = layout (gauge_field _ s)
  /\ site_size (gauge_field _ s') = site_size (gauge_field _ s)
  /\ length (data (gauge_field _ s')) = length (data (gauge_field _ s)).

(** [m] does not return from the state [s]. *)
Definition st_fails {S A} (m : stateful S A) (s : S) : Prop :=
  forall a, fst (m s) <> Ok a.

(** The field [r] has the layout, the site size and the number of elements
    of [out]. *)
Definition same_field_shape {T} (out r : Lattice T) : Prop :=
  layout r = layout out /\ site_size r = site_size out
  /\ length (data r) = length (data out).

(** The sizes [apply_full] relies on: a spin structure with a coefficient
    for every pair of spin indices and every direction, two scattered
    links per site and axis, an element of [fermion_in] at every index
    [ndims * arr_index + beta], and a row of neighbours for every site
    whose entries name sites of [fermion_out]. *)
Record fits (hm : HoppingMatrix)
       (fermion_out fermion_in : Lattice ColourVector) : Prop := mk_fits {
  fits_spin :
    forall k alpha beta,
      k < 2 * num_dims (layout fermion_in) ->
      alpha < num_spins_ hm -> beta < num_spins_ hm ->
      exists s z, spin_structures_ hm !! k = Some s
                  /\ coeff s alpha beta = Ok z;
  fits_links :
    2 * (num_dims (layout fermion_in) * volume (layout fermion_in))
    <= length (data (scattered_gauge_field_ hm));
  fits_in :
    forall a beta,
      a < volume (layout fermion_in) -> beta < num_spins_ hm ->
      num_dims (layout fermion_in) * a + beta < length (data fermion_in);
  fits_out :
    forall a k,
      a < volume (layout fermion_in) ->
      k < 2 * num_dims (layout fermion_in) ->
      exists row n, neighbour_array_indices_ hm !! a = Some row
                    /\ row !! k = Some n
                    /\ num_spins_ hm * n + num_spins_ hm
                       <= length (data fermion_out)
}.

(** Every spin structure has a coefficient at every pair of spin indices
    below [ns]. *)
Definition spin_structures_ok (ns : nat) (spin_structures : list MatrixXcd)
  : Prop :=
  Forall (fun s => forall alpha beta, alpha < ns -> beta < ns ->
                     exists z, coeff s alpha beta = Ok z)
         spin_structures.

(** [alpha * v + beta * w] on colour vectors, and element by element on
    two spinor fields. *)
Definition vlin (alpha beta : C) (v w : ColourVector) : ColourVector :=
  CM.vadd (CM.vscale alpha v) (CM.vscale beta w).

Definition lin_field (alpha beta : C) (x y : Lattice ColourVector)
  : Lattice ColourVector :=
  Lat.with_data x (zip_with (vlin alpha beta) (data x) (data y)).

(** Further concrete inputs. *)
Module MoreInputs.
Import Inputs.

(** A spinor field on the line that holds no element at all. *)
Definition line_empty : Lattice ColourVector :=
  mkLattice line_layout 1 [].

(** The 2 x 2 unit spin structure, one for each of the four directions
    of the grid, and a spinor field on the grid with two spin
    components. *)
Definition unit_spin2 : MatrixXcd := [[C1; C0]; [C0; C1]].

Definition grid_spin : list MatrixXcd :=
  [unit_spin2; unit_spin2; unit_spin2; unit_spin2].

Definition grid_ones : Lattice ColourVector :=
  Lat.fill grid_layout unit_colour 2.
End MoreInputs.


(** ** The stencil of the hopping matrix *)

(** The sum of the colour vectors [f 0 .. f (n-1)], accumulated from the
    left. *)
Fixpoint vsum (n : nat) (f : nat -> ColourVector) : ColourVector :=
  match n with
  | O => CM.vzero
  | S n' => CM.vadd (vsum n' f) (f n')
  end.

(** The entries [apply_full] reads, by their indices. *)
Definition spin_coeff (hm : HoppingMatrix) (k alpha beta : nat) : C :=
  match obind (oread (spin_structures_ hm) k) (fun s => coeff s alpha beta) with
  | Ok z => z
  | _ => C0
  end.

Definition scattered_link (hm : HoppingMatrix) (i : nat) : ColourMatrix :=
  default CM.zero (data (scattered_gauge_field_ hm) !! i).

Definition neighbour_entry (hm : HoppingMatrix) (a k : nat) : nat :=
  default 0 (default [] (neighbour_array_indices_ hm !! a) !! k).

Definition field_at (f : Lattice ColourVector) (i : nat) : ColourVector :=
  default CM.vzero (data f !! i).

Section Stencil.
Variable Nc : nat.
Variable hm : HoppingMatrix.
Variable fermion_in : Lattice ColourVector.

(** What the array index [a] sends along the axis [mu] in the spin
    component [alpha]: the spin structure [2 mu] with the scattered link
    in slot [2 mu], and the spin structure [2 mu + 1] with the adjoint of
    the scattered link in slot [2 mu + 1]; [fermion_in] is read at
    [ndims * a + beta]. *)
Definition gathered_even (a mu alpha : nat) : ColourVector :=
  let ndims := num_dims (layout fermion_in) in
  vsum (num_spins_ hm) (fun beta =>
    CM.mulv Nc
      (CM.scale (spin_coeff hm (2 * mu) alpha beta)
                (scattered_link hm (2 * (ndims * a + mu))))
      (field_at fermion_in (ndims * a + beta))).

Definition gathered_odd (a mu alpha : nat) : ColourVector :=
  let ndims := num_dims (layout fermion_in) in
  vsum (num_spins_ hm) (fun beta =>
    CM.mulv Nc
      (CM.scale (spin_coeff hm (2 * mu + 1) alpha beta)
                (CM.adjoint (scattered_link hm (2 * (ndims * a + mu) + 1))))
      (field_at fermion_in (ndims * a + beta))).

(** What [apply_full] adds to the element [t] of [fermion_out]: the even
    part goes to the neighbour in entry [2 mu] of the table, the odd
    part to the neighbour in entry [2 mu + 1]. *)
Definition stencil (t : nat) : ColourVector :=
  let ndims := num_dims (layout fermion_in) in
  let volume := volume (layout fermion_in) in
  let ns := num_spins_ hm in
  vsum volume (fun a => vsum ndims (fun mu => vsum ns (fun alpha =>
    CM.vadd
      (if Nat.eqb t (ns * neighbour_entry hm a (2 * mu) + alpha)
       then gathered_even a mu alpha else CM.vzero)
      (if Nat.eqb t (ns * neighbour_entry hm a (2 * mu + 1) + alpha)
       then gathered_odd a mu alpha else CM.vzero)))).
End Stencil.

(** [s'] is [s] with [c t] added to every element [t]. *)
Definition adds (c : nat -> ColourVector) (s s' : Lattice ColourVector)
  : Prop :=
  same_field_shape s s'
  /\ forall t x, data s !! t = Some x ->
                 data s' !! t = Some (CM.vadd x (c t)).

(** The stencil as section 4.7 of the specification words the apply phase,
    for comparison: for the site [s] and the axis [d],
    [partial+ (s, d, alpha)] is the sum over [beta] of
    [Gamma+ (alpha, beta) * Ufwd (s, d) * in (s, beta)] and goes to
    [out (neigh+ (s, d), alpha)], and [partial- (s, d, alpha)] is the sum of
    [Gamma- (alpha, beta) * Ubwd (s, d)† * in (s, beta)] and goes to
    [out (neigh- (s, d), alpha)]; [Gamma+], [Gamma-] are the spin
    structures [2 d] and [2 d + 1].  The forward product and neighbour are
    in slot and entry [2 d + 1], the backward ones in [2 d], as the
    constructor stores them, and a spinor has [num_spins] elements per
    site. *)
Section SpecStencil.
Variable Nc : nat.
Variable hm : HoppingMatrix.
Variable fermion_in : Lattice ColourVector.

Definition spec_partial_plus (s d alpha : nat) : ColourVector :=
  let ndims := num_dims (layout fermion_in) in
  let ns := num_spins_ hm in
  vsum ns (fun beta =>
    CM.mulv Nc
      (CM.scale (spin_coeff hm (2 * d) alpha beta)
                (scattered_link hm (2 * (ndims * s + d) + 1)))
      (field_at fermion_in (ns * s + beta))).

Definition spec_partial_minus (s d alpha : nat) : ColourVector :=
  let ndims := num_dims (layout fermion_in) in
  let ns := num_spins_ hm in
  vsum ns (fun beta =>
    CM.mulv Nc
      (CM.scale (spin_coeff hm (2 * d + 1) alpha beta)
                (CM.adjoint (scattered_link hm (2 * (ndims * s + d)))))
      (field_at fermion_in (ns * s + beta))).

Definition spec_stencil (t : nat) : ColourVector :=
  let ndims := num_dims (layout fermion_in) in
  let volume := volume (layout fermion_in) in
  let ns := num_spins_ hm in
  vsum volume (fun s => vsum ndims (fun d => vsum ns (fun alpha =>
    CM.vadd
      (if Nat.eqb t (ns * neighbour_entry hm s (2 * d + 1) + alpha)
       then spec_partial_plus s d alpha else CM.vzero)
      (if Nat.eqb t (ns * neighbour_entry hm s (2 * d) + alpha)
       then spec_partial_minus s d alpha else CM.vzero)))).
End SpecStencil.

Module StencilInputs.
Import Inputs.

(** A line of three sites with identity links, its hopping matrix for
    one hop with the spin structures 1 and 0, and a source that is 1 in
    the first colour of the first site. *)
Definition line3_layout : Layout := Lexico.LexicoLayout [3%Z].

Definition line3_gauge : Lattice ColourMatrix :=
  Lat.fill line3_layout CM.identity 1.

Definition line3_hopping : HoppingMatrix :=
  match HoppingMatrix_ctor_spin 3 1 line3_gauge [C1] [[[C1]]; [[C0]]] with
  | Ok hm => hm
  | _ => mkHoppingMatrix line3_gauge [] [] 0
  end.

Definition line3_zero : Lattice ColourVector :=
  Lat.fill line3_layout CM.vzero 1.

Definition line3_source : Lattice ColourVector :=
  mkLattice line3_layout 1 [unit_colour; CM.vzero; CM.vzero].

(** A lattice of 1 x 1 x 2 sites with identity links: three axes, two
    spin components.  Its hopping matrix with six unit spin structures,
    and a spinor field with two elements per site. *)
Definition cube_layout : Layout := Lexico.LexicoLayout [1%Z; 1%Z; 2%Z].

Definition cube_gauge : Lattice ColourMatrix :=
  Lat.fill cube_layout CM.identity 3.

Definition cube_spin : list MatrixXcd :=
  replicate 6 [[C1; C0]; [C0; C1]].

Definition cube_hopping : HoppingMatrix :=
  match HoppingMatrix_ctor_spin 3 1 cube_gauge [C1; C1; C1] cube_spin with
  | Ok hm => hm
  | _ => mkHoppingMatrix cube_gauge [] [] 0
  end.

Definition cube_ones : Lattice ColourVector :=
  Lat.fill cube_layout unit_colour 2.
End StencilInputs.


(** * Properties *)

(** ** Machine integers *)

Section WordFacts.
Local Open Scope Z_scope.

Lemma u32_small z : 0 <= z < 2 ^ 32 -> u32 z = z.
Proof. intros H. unfold u32. now rewrite Z.mod_small. Qed.

Lemma u32_range z : 0 <= u32 z < 2 ^ 32.
Proof. unfold u32. apply Z.mod_pos_bound. lia. Qed.

Lemma u32_neg z : - 2 ^ 32 <= z < 0 -> u32 z = z + 2 ^ 32.
Proof.
  intros H. unfold u32.
  symmetry. apply (Z.mod_unique_pos z (2 ^ 32) (-1) (z + 2 ^ 32)); lia.
Qed.

Lemma s32_small z : - 2 ^ 31 <= z < 2 ^ 31 -> s32 z = z.
Proof. intros H. unfold s32. rewrite Z.mod_small; lia. Qed.

Lemma s32_add_u32 a b : s32 (a + u32 b) = s32 (a + b).
Proof.
  unfold s32, u32. f_equal.
  replace (a + b mod 2 ^ 32 + 2 ^ 31) with (b mod 2 ^ 32 + (a + 2 ^ 31)) by lia.
  rewrite Zplus_mod_idemp_l. f_equal. lia.
Qed.
End WordFacts.

(** ** The lookup of subgroup positions *)

Section SubgroupFacts.
Local Open Scope Z_scope.

Example pos_3_0 : compute_su2_subgroup_pos 3 0 = Ok (0, 1).
Proof. reflexivity. Qed.

Example lex_pairs_4 :
  lex_pairs 4 = [(0, 1); (0, 2); (0, 3); (1, 2); (1, 3); (2, 3)].
Proof. reflexivity. Qed.

(** Inside the range the bound does not wrap around. *)
Lemma pos_loop_step fuel Nc tmp i :
  0 <= i < Nc -> Nc < 2 ^ 31 -> 0 <= tmp < 2 ^ 31 ->
  pos_loop (S fuel) Nc tmp i =
    if Nc - 1 - i <=? tmp
    then pos_loop fuel Nc (tmp - (Nc - 1 - i)) (i + 1)
    else Some (tmp, i).
Proof.
  intros Hi HN Ht. cbn [pos_loop].
  rewrite (u32_small (Nc - 1 - i)) by lia.
  destruct (Z.leb_spec (Nc - 1 - i) tmp) as [Hle|Hlt]; [|reflexivity].
  rewrite (u32_small (tmp - _)) by lia.
  rewrite (u32_small (i + 1)) by lia. reflexivity.
Qed.

(** Once [i] has reached [Nc] the bound is [2^32 - 1] and the loop
    stops. *)
Lemma pos_loop_stop fuel Nc tmp :
  0 <= Nc < 2 ^ 31 -> 0 <= tmp < 2 ^ 31 ->
  pos_loop (S fuel) Nc tmp Nc = Some (tmp, Nc).
Proof.
  intros HN Ht. cbn [pos_loop].
  replace (Nc - 1 - Nc) with (-1) by lia.
  rewrite (u32_neg (-1)) by lia.
  destruct (Z.leb_spec (-1 + 2 ^ 32) tmp) as [Hle|Hlt]; [lia|reflexivity].
Qed.

(** The loop ends within [Nc - i + 1] tests of its condition. *)
Lemma pos_loop_total_from (n : nat) : forall fuel Nc tmp i,
  0 <= i <= Nc -> Nc < 2 ^ 31 -> 0 <= tmp < 2 ^ 31 ->
  Z.to_nat (Nc - i) = n -> (n < fuel)%nat ->
  exists tmp' i', pos_loop fuel Nc tmp i = Some (tmp', i')
                  /\ 0 <= tmp' <= tmp /\ i <= i' <= Nc.
Proof.
  induction n as [|n IH]; intros fuel Nc tmp i Hi HN Ht Hn Hf.
  - assert (i = Nc) by lia. subst i.
    destruct fuel as [|fuel]; [lia|].
    rewrite pos_loop_stop by lia. exists tmp, Nc. split; [reflexivity|lia].
  - destruct fuel as [|fuel]; [lia|].
    rewrite pos_loop_step by lia.
    destruct (Z.leb_spec (Nc - 1 - i) tmp) as [Hle|Hlt].
    + destruct (IH fuel Nc (tmp - (Nc - 1 - i)) (i + 1))
        as (tmp' & i' & E & Ht' & Hi'); try lia.
      exists tmp', i'. split; [exact E|lia].
    + exists tmp, i. split; [reflexivity|lia].
Qed.

Lemma pos_loop_total Nc index :
  0 <= Nc < 2 ^ 31 -> 0 <= index < 2 ^ 31 ->
  exists tmp i, pos_loop (pos_fuel Nc) Nc index 0 = Some (tmp, i).
Proof.
  intros HN Hx.
  destruct (pos_loop_total_from (Z.to_nat Nc) (pos_fuel Nc) Nc index 0)
    as (tmp & i & E & _); unfold pos_fuel; try lia.
  eauto.
Qed.

(** What the lookup does: it throws exactly when [index >= Nc], and
    otherwise returns a pair. *)
Lemma compute_su2_subgroup_pos_raises Nc index :
  0 <= Nc < 2 ^ 31 -> 0 <= index < 2 ^ 32 ->
  (compute_su2_subgroup_pos Nc index = Raise invalid_index <-> Nc <= index)
  /\ (index < Nc -> exists i j, compute_su2_subgroup_pos Nc index = Ok (i, j)).
Proof.
  intros HN Hx. unfold compute_su2_subgroup_pos.
  rewrite (u32_small Nc) by lia.
  destruct (Z.ltb_spec index Nc) as [Hlt|Hge]; cbn [pyQCDassert obind].
  - destruct (pos_loop_total Nc index) as (tmp & i & E); try lia.
    rewrite E. split.
    + split; [discriminate|lia].
    + intros _. eauto.
  - split; [tauto|lia].
Qed.
End SubgroupFacts.

(** ** The lookup against the lexicographic enumeration *)

Section SubgroupOrder.
Local Open Scope Z_scope.

Lemma lex_pairs_rows Nc : lex_pairs Nc = flat_map (lex_row Nc) (seq 0 Nc).
Proof. reflexivity. Qed.

Lemma lex_row_length Nc i : length (lex_row Nc i) = (Nc - 1 - i)%nat.
Proof. unfold lex_row. now rewrite length_map, length_seq. Qed.

Lemma lex_row_lookup Nc i t :
  (t < Nc - 1 - i)%nat ->
  lex_row Nc i !! t = Some (Z.of_nat i, Z.of_nat i + 1 + Z.of_nat t).
Proof.
  intros Ht. unfold lex_row.
  rewrite list_lookup_fmap, lookup_seq_lt by exact Ht.
  cbn. do 2 f_equal. lia.
Qed.

Lemma lex_rows_length (n : nat) : forall Nc i,
  (i + n = Nc)%nat ->
  2 * Z.of_nat (length (flat_map (lex_row Nc) (seq i n)))
  = Z.of_nat n * (Z.of_nat n - 1).
Proof.
  induction n as [|n IH]; intros Nc i HN; [reflexivity|].
  cbn [seq flat_map]. rewrite length_app, lex_row_length.
  specialize (IH Nc (S i) ltac:(lia)). nia.
Qed.

Lemma lex_pairs_length Nc :
  Z.of_nat (length (lex_pairs Nc)) = num_subgroups (Z.of_nat Nc).
Proof.
  unfold num_subgroups. rewrite lex_pairs_rows.
  pose proof (lex_rows_length Nc Nc 0%nat eq_refl) as H.
  apply Z.div_unique_exact; lia.
Qed.

(** The loop walks down the rows of the enumeration. *)
Lemma pos_loop_lex (n : nat) : forall fuel (Nc i t : nat),
  (i + n = Nc)%nat -> Z.of_nat Nc < 2 ^ 31 -> Z.of_nat t < 2 ^ 31 ->
  (t < length (flat_map (lex_row Nc) (seq i n)))%nat ->
  (n < fuel)%nat ->
  exists t' i' : Z,
    pos_loop fuel (Z.of_nat Nc) (Z.of_nat t) (Z.of_nat i) = Some (t', i')
    /\ flat_map (lex_row Nc) (seq i n) !! t = Some (i', i' + 1 + t')
    /\ 0 <= i' /\ 0 <= t' /\ i' + 1 + t' < Z.of_nat Nc.
Proof.
  induction n as [|n IH]; intros fuel Nc i t HN HNc Ht31 Ht Hf.
  { cbn in Ht. lia. }
  destruct fuel as [|fuel]; [lia|].
  rewrite pos_loop_step by lia.
  cbn [seq flat_map] in *. rewrite length_app, lex_row_length in Ht.
  destruct (Z.leb_spec (Z.of_nat Nc - 1 - Z.of_nat i) (Z.of_nat t))
    as [Hle|Hlt].
  - destruct (IH fuel Nc (S i) (t - (Nc - 1 - i))%nat)
      as (t' & i' & E & L & B); try lia.
    exists t', i'. split; [|split; [|exact B]].
    + rewrite <- E. f_equal; lia.
    + rewrite lookup_app_r; rewrite lex_row_length; [exact L|lia].
  - exists (Z.of_nat t), (Z.of_nat i). split; [reflexivity|].
    split; [|lia].
    rewrite lookup_app_l by (rewrite lex_row_length; lia).
    apply lex_row_lookup. lia.
Qed.

(** Where the assertion lets the index through and the index is below
    [num_subgroups], the lookup returns the pair the enumeration has at
    that place. *)
Lemma compute_su2_subgroup_pos_lex (Nc k : nat) :
  Z.of_nat Nc < 2 ^ 31 ->
  Z.of_nat k < num_subgroups (Z.of_nat Nc) -> (k < Nc)%nat ->
  exists i j,
    compute_su2_subgroup_pos (Z.of_nat Nc) (Z.of_nat k) = Ok (i, j)
    /\ lex_pairs Nc !! k = Some (i, j) /\ 0 <= i < j /\ j < Z.of_nat Nc.
Proof.
  intros HNc Hk HkN. rewrite <- lex_pairs_length in Hk.
  destruct (pos_loop_lex Nc (pos_fuel (Z.of_nat Nc)) Nc 0%nat k)
    as (t' & i' & E & L & B); unfold pos_fuel; try lia.
  { rewrite <- lex_pairs_rows. lia. }
  exists i', (i' + 1 + t'). unfold compute_su2_subgroup_pos.
  rewrite (u32_small (Z.of_nat Nc)) by lia.
  destruct (Z.ltb_spec (Z.of_nat k) (Z.of_nat Nc)) as [_|?]; [|lia].
  cbn [pyQCDassert obind]. change (Z.of_nat 0) with 0 in E. rewrite E.
  rewrite u32_small by lia. repeat split; try lia. exact L.
Qed.

Example pos_Nc3 :
  map (compute_su2_subgroup_pos 3) [0; 1; 2]
  = [Ok (0, 1); Ok (0, 2); Ok (1, 2)].
Proof. reflexivity. Qed.
End SubgroupOrder.


(** ** Computations on a state: what a run preserves *)

Section Preserves.
Context {S : Type}.
Variable P : S -> S -> Prop.
Hypothesis P_refl : forall s, P s s.
Hypothesis P_trans : forall s1 s2 s3, P s1 s2 -> P s2 s3 -> P s1 s3.

Lemma preserves_ret {A} (a : A) : preserves P (St.ret a).
Proof. intros s. apply P_refl. Qed.

Lemma preserves_lift {A} (o : outcome A) : preserves P (St.lift o).
Proof. intros s. apply P_refl. Qed.

Lemma preserves_bind {A B} (m : stateful S A) (k : A -> stateful S B) :
  preserves P m -> (forall a, preserves P (k a)) ->
  preserves P (St.bind m k).
Proof.
  intros Hm Hk s. unfold St.bind.
  specialize (Hm s). destruct (m s) as [[a| | |] s']; cbn in *;
    try exact Hm.
  eapply P_trans; [exact Hm|apply Hk].
Qed.

Lemma preserves_for_loop_from (body : nat -> stateful S unit) n :
  (forall i, preserves P (body i)) ->
  forall i, preserves P (St.for_loop_from i n body).
Proof.
  intros Hb. induction n as [|n IH]; intros i; cbn [St.for_loop_from].
  - apply preserves_ret.
  - apply preserves_bind; [apply Hb|intros _; apply IH].
Qed.

Lemma preserves_for_loop (body : nat -> stateful S unit) n :
  (forall i, preserves P (body i)) -> preserves P (St.for_loop n body).
Proof. intros Hb. apply preserves_for_loop_from, Hb. Qed.
End Preserves.

(** ** The heatbath update writes one link *)

Section HeatbathFrame.
Variable rng_state : Type.
Variable generate_real : R -> R -> rng_state -> R * rng_state.
Variable epsilon : R.
Variable Nc : nat.
Variable fuel : nat.

Let state := hb_state rng_state.

Lemma same_but_refl i (s : state) : same_but i s s.
Proof. repeat split. Qed.

Lemma same_but_trans i (s1 s2 s3 : state) :
  same_but i s1 s2 -> same_but i s2 s3 -> same_but i s1 s3.
Proof.
  intros (L1 & Z1 & N1 & D1) (L2 & Z2 & N2 & D2).
  repeat split; try congruence.
  intros j Hj. rewrite D2, D1 by exact Hj. reflexivity.
Qed.

Lemma frame_bind {A B} i (m : stateful state A) (k : A -> stateful state B) :
  preserves (@same_but rng_state i) m -> (forall a, preserves (@same_but rng_state i) (k a)) ->
  preserves (@same_but rng_state i) (St.bind m k).
Proof. apply preserves_bind, same_but_trans. Qed.

Lemma frame_for_loop i (body : nat -> stateful state unit) n :
  (forall k, preserves (@same_but rng_state i) (body k)) ->
  preserves (@same_but rng_state i) (St.for_loop n body).
Proof.
  apply preserves_for_loop; [apply same_but_refl|apply same_but_trans].
Qed.

Lemma read_link_frame i j : preserves (@same_but rng_state i) (read_link _ j).
Proof. intros s. apply same_but_refl. Qed.

Lemma with_rng_frame {A} i (m : stateful rng_state A) :
  preserves (@same_but rng_state i) (with_rng _ m).
Proof.
  intros s. unfold with_rng. destruct (m (rng _ s)) as [o g].
  repeat split.
Qed.

Lemma write_link_frame i x : preserves (@same_but rng_state i) (write_link _ i x).
Proof.
  intros s. unfold write_link, Lat.write, owrite.
  destruct (decide (i < length (data (gauge_field _ s)))) as [Hi|Hi];
    cbn; [|apply same_but_refl].
  repeat split; cbn.
  - apply length_insert.
  - intros j Hj. apply list_lookup_insert_ne. congruence.
Qed.

Lemma heatbath_link_update_same_but action link_index s :
  same_but (link_slot (gauge_field _ s) link_index) s
           (snd (heatbath_link_update rng_state generate_real epsilon Nc
                                      fuel action link_index s)).
Proof.
  unfold heatbath_link_update. cbv zeta.
  set (i := link_slot (gauge_field _ s) link_index).
  set (staple := compute_staples action (gauge_field _ s) link_index).
  unfold mbind, stateful_bind.
  match goal with
  | |- same_but _ _ (snd (?m s)) =>
      enough (preserves (@same_but rng_state i) m) as H by exact (H s)
  end.
  apply frame_bind; [apply read_link_frame|].
  intros _. apply frame_for_loop. intros k.
  apply frame_bind; [apply read_link_frame|]. intros l.
  apply frame_bind; [apply with_rng_frame|].
  intros l'. apply write_link_frame.
Qed.
End HeatbathFrame.


(** ** Complex arithmetic with zero *)

Create Rewrite HintDb czero.

Section ComplexFacts.
Local Open Scope R_scope.

Lemma Cmul_0_r z : Cmul z C0 = C0.
Proof. unfold Cmul, C0, RtoC. cbn. f_equal; ring. Qed.

Lemma Cmul_0_l z : Cmul C0 z = C0.
Proof. unfold Cmul, C0, RtoC. cbn. f_equal; ring. Qed.

Lemma Cmul_1_l z : Cmul C1 z = z.
Proof. destruct z. unfold Cmul, C1, RtoC. cbn. f_equal; ring. Qed.

Lemma Cmul_1_r z : Cmul z C1 = z.
Proof. destruct z. unfold Cmul, C1, RtoC. cbn. f_equal; ring. Qed.

Lemma Cadd_0_l z : Cadd C0 z = z.
Proof. destruct z. unfold Cadd, C0, RtoC. cbn. f_equal; ring. Qed.

Lemma Cadd_0_r z : Cadd z C0 = z.
Proof. destruct z. unfold Cadd, C0, RtoC. cbn. f_equal; ring. Qed.

Lemma Csub_0_r z : Csub z C0 = z.
Proof. destruct z. unfold Csub, C0, RtoC. cbn. f_equal; ring. Qed.

Lemma Cconj_0 : Cconj C0 = C0.
Proof. unfold Cconj, C0, RtoC. cbn. f_equal. ring. Qed.

Lemma Cdiv_0_l w : Cdiv C0 w = C0.
Proof. unfold Cdiv, C0, RtoC. cbn. f_equal; unfold Rdiv; ring. Qed.

Lemma Csqrt_0 : Csqrt C0 = C0.
Proof.
  unfold Csqrt, Cabs, Cnorm2, C0, RtoC. cbn.
  replace (0 * 0 + 0 * 0) with 0 by ring. rewrite sqrt_0.
  replace ((0 + 0) / 2) with 0 by lra. replace ((0 - 0) / 2) with 0 by lra.
  rewrite sqrt_0. destruct (Rle_dec 0 0); [reflexivity|lra].
Qed.

Lemma C1_neq_C0 : C1 <> C0.
Proof. unfold C1, C0, RtoC. intros E. injection E. lra. Qed.

Lemma Cadd_assoc x y z : Cadd (Cadd x y) z = Cadd x (Cadd y z).
Proof. unfold Cadd. cbn. f_equal; ring. Qed.

Lemma Cadd_comm x y : Cadd x y = Cadd y x.
Proof. unfold Cadd. f_equal; ring. Qed.

Lemma csum_zero n f :
  (forall k, (k < n)%nat -> f k = C0) -> CM.csum n f = C0.
Proof.
  induction n as [|n IH]; intros H; cbn; [reflexivity|].
  rewrite IH, H, Cadd_0_l by auto with lia. reflexivity.
Qed.

Lemma CM_mul_zero_r Nc a : CM.mul Nc a CM.zero = CM.zero.
Proof.
  extensionality r. extensionality c. unfold CM.mul, CM.zero.
  apply csum_zero. intros k _. apply Cmul_0_r.
Qed.
End ComplexFacts.

#[local] Hint Rewrite Cmul_0_r Cmul_0_l Cmul_1_l Cmul_1_r Cadd_0_l Cadd_0_r
  Csub_0_r Cconj_0 Cdiv_0_l Csqrt_0 : czero.

(** ** The heatbath step on a vanishing staple *)

Section ZeroStaple.
Local Open Scope R_scope.

Variable rng_state : Type.
Variable generate_real : R -> R -> rng_state -> R * rng_state.
Variable epsilon : R.
Variable Nc : nat.
Variable fuel : nat.
Hypothesis epsilon_pos : 0 < epsilon.

Lemma extract_su2_zero k i j :
  compute_su2_subgroup_pos (Z.of_nat Nc) k = Ok (i, j) ->
  in_matrix Nc i j = true ->
  extract_su2 Nc CM.zero k = Ok su2_zero.
Proof.
  intros Hp Hb. unfold extract_su2. rewrite Hp. cbn [obind]. rewrite Hb.
  f_equal.
  unfold block, CM.zero, SU2.add, SU2.sub, SU2.adjoint, SU2.scale_r,
    SU2.trace, SU2.identity, su2_zero.
  cbn [m00 m01 m10 m11]. autorewrite with czero. reflexivity.
Qed.

Lemma su2_zero_determinant : SU2.determinant su2_zero = C0.
Proof.
  unfold SU2.determinant, su2_zero. cbn [m00 m01 m10 m11].
  now autorewrite with czero.
Qed.

Lemma random_su2_returns g :
  exists X g', random_su2 rng_state generate_real g = (Ok X, g').
Proof.
  unfold random_su2. destruct (generate_real 0 1 g) as [c0 g1].
  destruct (generate_real (-1) 1 g1) as [ct g2].
  destruct (generate_real 0 (2 * PI) g2) as [phi g3]. eauto.
Qed.

(** With a staple of zero the extracted matrix is zero, its determinant
    and the square root of it are zero, the matrix is divided by that
    root all the same, and the block that is inserted is the product of
    the random matrix with the adjoint of the quotient. *)
Lemma su2_heatbath_update_zero_staple link weight k i j g :
  compute_su2_subgroup_pos (Z.of_nat Nc) k = Ok (i, j) ->
  in_matrix Nc i j = true ->
  su2_heatbath_update rng_state generate_real epsilon Nc fuel
                      link CM.zero weight k g
  = (Ok (CM.mul Nc (zero_block (Z.to_nat i) (Z.to_nat j)) link),
     snd (random_su2 rng_state generate_real g)).
Proof.
  intros Hp Hb. unfold su2_heatbath_update. cbv zeta.
  rewrite CM_mul_zero_r, (extract_su2_zero k i j Hp Hb).
  unfold mbind, stateful_bind, St.bind, St.lift.
  rewrite su2_zero_determinant, Csqrt_0.
  destruct (Rlt_dec (Cre C0) (6 * epsilon)) as [_|H];
    [|exfalso; apply H; cbn; lra].
  destruct (random_su2_returns g) as (X & g' & EX). rewrite EX. cbn [snd].
  assert (EA : SU2.mul X (SU2.adjoint (SU2.div su2_zero C0)) = su2_zero).
  { unfold SU2.mul, SU2.adjoint, SU2.div, su2_zero. cbn [m00 m01 m10 m11].
    now autorewrite with czero. }
  rewrite EA. unfold insert_su2. rewrite Hp. cbn [obind]. rewrite Hb.
  reflexivity.
Qed.
End ZeroStaple.

(** ** One sweep over one link with a vanishing staple *)

Section OneLink.
Import Inputs.
Local Open Scope R_scope.

Lemma double_epsilon_pos : 0 < double_epsilon.
Proof.
  unfold double_epsilon. apply Rinv_0_lt_compat. apply pow_lt. lra.
Qed.

Lemma one_link_update :
  heatbath_link_update unit low_rng double_epsilon 2 1
                       zero_staple_action 0 one_link_state
  = (Ok tt, mkHB unit (Lat.with_data one_link_field [broken_link]) tt).
Proof.
  unfold heatbath_link_update. cbv zeta.
  change (compute_staples zero_staple_action
                          (gauge_field unit one_link_state) 0)
    with CM.zero.
  change (link_slot (gauge_field unit one_link_state) 0) with 0%nat.
  change (Z.to_nat (num_subgroups (Z.of_nat 2))) with 1%nat.
  unfold St.for_loop. cbn [St.for_loop_from].
  unfold mbind, stateful_bind, St.bind.
  change (read_link unit 0 one_link_state)
    with (Ok CM.identity, one_link_state).
  cbv iota beta.
  change (read_link unit 0 one_link_state)
    with (Ok CM.identity, one_link_state).
  cbv iota beta. unfold with_rng.
  rewrite (su2_heatbath_update_zero_staple unit low_rng double_epsilon 2 1
             double_epsilon_pos _ _ _ 0%Z 1%Z) by reflexivity.
  destruct ((random_su2 () low_rng (rng () one_link_state)).2).
  reflexivity.
Qed.

Lemma one_link_sweep :
  heatbath_update unit low_rng double_epsilon 2 1
                  zero_staple_action 1 one_link_state
  = (Ok tt, mkHB unit (Lat.with_data one_link_field [broken_link]) tt).
Proof.
  unfold heatbath_update. cbv zeta.
  change (Lat.size (gauge_field unit one_link_state)) with 1%nat.
  unfold St.for_loop. cbn [St.for_loop_from].
  unfold St.bind. rewrite one_link_update. reflexivity.
Qed.

Lemma broken_link_entries r c :
  (r < 2)%nat -> (c < 2)%nat -> broken_link r c = C0.
Proof.
  intros Hr Hc. unfold broken_link, CM.mul, zero_block, CM.set, CM.identity.
  destruct r as [|[|r]]; [| |lia]; (destruct c as [|[|c]]; [| |lia]);
    cbn; autorewrite with czero; reflexivity.
Qed.

Lemma broken_link_not_unitary : ~ CM.unitary 2 broken_link.
Proof.
  intros H. specialize (H 0%nat 0%nat ltac:(lia) ltac:(lia)).
  unfold CM.mul at 1 in H. unfold CM.adjoint in H. cbn [CM.csum] in H.
  rewrite !broken_link_entries in H by lia.
  autorewrite with czero in H. cbn in H. symmetry in H.
  exact (C1_neq_C0 H).
Qed.

Lemma identity_special_unitary2 : CM.special_unitary2 CM.identity.
Proof.
  split.
  - intros r c Hr Hc. unfold CM.mul, CM.adjoint, CM.identity.
    destruct r as [|[|r]]; [| |lia]; (destruct c as [|[|c]]; [| |lia]);
      cbn; unfold Cconj, Cmul, Cadd, C0, C1, RtoC; cbn; f_equal; ring.
  - unfold CM.det2, CM.identity. cbn.
    unfold Csub, Cmul, C0, C1, RtoC; cbn; f_equal; ring.
Qed.
End OneLink.


(** ** The conjugate gradient on a multiple of the identity *)

Section CGFacts.
Import Fermions.
Local Open Scope R_scope.

Variable Nc : nat.

Lemma scale_real_data x f :
  data (Fermions.scale_real x f) = map (rscale x) (data f).
Proof. reflexivity. Qed.

Lemma Cscale_add x z w : Cadd (Cscale x z) (Cscale x w) = Cscale x (Cadd z w).
Proof. unfold Cscale, Cadd. cbn. f_equal; ring. Qed.

Lemma Cscale_0 x : Cscale x C0 = C0.
Proof. unfold Cscale, C0, RtoC. cbn. f_equal; ring. Qed.

Lemma vdot_rscale_l x v w :
  CG.vdot Nc (rscale x v) w = Cscale x (CG.vdot Nc v w).
Proof.
  unfold CG.vdot. induction Nc as [|n IH]; cbn [CM.csum].
  - now rewrite Cscale_0.
  - rewrite IH, <- Cscale_add. f_equal.
    unfold Cscale, rscale, Cmul, Cconj. cbn. f_equal; ring.
Qed.

Lemma vdot_rscale_r y v w :
  CG.vdot Nc v (rscale y w) = Cscale y (CG.vdot Nc v w).
Proof.
  unfold CG.vdot. induction Nc as [|n IH]; cbn [CM.csum].
  - now rewrite Cscale_0.
  - rewrite IH, <- Cscale_add. f_equal.
    unfold Cscale, rscale, Cmul, Cconj. cbn. f_equal; ring.
Qed.

Lemma fold_dot_rscale_l x (A B : list ColourVector) : forall acc,
  fold_left Cadd (zip_with (CG.vdot Nc) (map (rscale x) A) B) (Cscale x acc)
  = Cscale x (fold_left Cadd (zip_with (CG.vdot Nc) A B) acc).
Proof.
  revert B. induction A as [|a A IH]; intros [|b B] acc; cbn; try reflexivity.
  rewrite vdot_rscale_l, Cscale_add. apply IH.
Qed.

Lemma fold_dot_rscale_r y (A B : list ColourVector) : forall acc,
  fold_left Cadd (zip_with (CG.vdot Nc) A (map (rscale y) B)) (Cscale y acc)
  = Cscale y (fold_left Cadd (zip_with (CG.vdot Nc) A B) acc).
Proof.
  revert B. induction A as [|a A IH]; intros [|b B] acc; cbn; try reflexivity.
  rewrite vdot_rscale_r, Cscale_add. apply IH.
Qed.

Lemma dot_scale_real_l x a b :
  CG.dot Nc (Fermions.scale_real x a) b = Cscale x (CG.dot Nc a b).
Proof.
  unfold CG.dot. rewrite scale_real_data, <- fold_dot_rscale_l.
  now rewrite Cscale_0.
Qed.

Lemma dot_scale_real_r y a b :
  CG.dot Nc a (Fermions.scale_real y b) = Cscale y (CG.dot Nc a b).
Proof.
  unfold CG.dot. rewrite scale_real_data, <- fold_dot_rscale_r.
  now rewrite Cscale_0.
Qed.

Lemma vdot_self_im v : snd (CG.vdot Nc v v) = 0.
Proof.
  unfold CG.vdot. induction Nc as [|n IH]; cbn [CM.csum]; [reflexivity|].
  unfold Cadd at 1. cbn [snd]. rewrite IH.
  unfold Cmul, Cconj. cbn [fst snd]. ring.
Qed.

Lemma fold_dot_self_im (A : list ColourVector) : forall acc,
  snd acc = 0 ->
  snd (fold_left Cadd (zip_with (CG.vdot Nc) A A) acc) = 0.
Proof.
  induction A as [|a A IH]; intros acc Hacc; cbn; [exact Hacc|].
  apply IH. unfold Cadd. cbn. rewrite Hacc, vdot_self_im. ring.
Qed.

Lemma dot_self_im a : snd (CG.dot Nc a a) = 0.
Proof. apply fold_dot_self_im. reflexivity. Qed.

Lemma vdot_zero v : CG.vdot Nc CM.vzero v = C0.
Proof.
  unfold CG.vdot. induction Nc as [|n IH]; cbn [CM.csum]; [reflexivity|].
  rewrite IH. unfold CM.vzero, Cadd, Cmul, Cconj, C0, RtoC. cbn. f_equal; ring.
Qed.

Lemma fold_dot_zero {T} (A : list T) (B : list ColourVector) :
  fold_left Cadd (zip_with (CG.vdot Nc) (map (fun _ => CM.vzero) A) B) C0 = C0.
Proof.
  revert B. induction A as [|a A IH]; intros [|b B]; cbn; try reflexivity.
  rewrite vdot_zero. replace (Cadd C0 C0) with C0; [apply IH|].
  unfold Cadd, C0, RtoC. cbn. f_equal; ring.
Qed.

Lemma zip_with_map_same {T U V W} (f : U -> V -> W) (g : T -> U) (h : T -> V) (l : list T) :
  zip_with f (map g l) (map h l) = map (fun x => f (g x) (h x)) l.
Proof. induction l as [|a l IH]; cbn; [reflexivity|]. now rewrite IH. Qed.

Lemma zip_with_fst_id {A B} (f : A -> B -> A) (l : list A) :
  (forall a b, f a b = a) ->
  forall l' : list B, length l = length l' -> zip_with f l l' = l.
Proof.
  intros Hf. induction l as [|a l IH]; intros [|b l'] Hl; cbn in *;
    try reflexivity; try discriminate.
  rewrite Hf, IH by lia. reflexivity.
Qed.

Lemma vdot_self_re v :
  0 <= fst (CG.vdot Nc v v)
  /\ (fst (CG.vdot Nc v v) = 0 -> forall k, (k < Nc)%nat -> v k = C0).
Proof.
  unfold CG.vdot. induction Nc as [|n IH]; cbn [CM.csum].
  - split; [cbn; lra|]. intros _ k Hk. lia.
  - destruct IH as [IH0 IH1].
    assert (Hn : fst (Cmul (Cconj (v n)) (v n))
                 = fst (v n) * fst (v n) + snd (v n) * snd (v n)).
    { unfold Cmul, Cconj. cbn [fst snd]. ring. }
    unfold Cadd. cbn [fst]. rewrite Hn. split; [nra|].
    intros H k Hk.
    assert (H0 : fst (CM.csum n (fun k0 => Cmul (Cconj (v k0)) (v k0))) = 0)
      by nra.
    destruct (decide (k = n)) as [->|Hne]; [|apply IH1; [exact H0|lia]].
    assert (fst (v n) = 0) by nra. assert (snd (v n) = 0) by nra.
    destruct (v n) as [x y]. cbn in *. subst. reflexivity.
Qed.

Lemma fold_dot_self_re (A : list ColourVector) : forall acc,
  0 <= fst acc ->
  0 <= fst (fold_left Cadd (zip_with (CG.vdot Nc) A A) acc)
  /\ (fst (fold_left Cadd (zip_with (CG.vdot Nc) A A) acc) = 0 ->
      fst acc = 0
      /\ Forall (fun v : ColourVector =>
                   forall k, (k < Nc)%nat -> v k = C0) A).
Proof.
  induction A as [|a A IH]; intros acc Hacc; cbn.
  - split; [exact Hacc|]. intros H. split; [exact H|constructor].
  - destruct (vdot_self_re a) as [Ha0 Ha1].
    destruct (IH (Cadd acc (CG.vdot Nc a a))) as [I0 I1].
    { unfold Cadd. cbn [fst]. lra. }
    split; [exact I0|]. intros H. destruct (I1 H) as [E F].
    unfold Cadd in E. cbn [fst] in E.
    split; [lra|]. constructor; [|exact F]. apply Ha1. lra.
Qed.

Lemma dot_self_zero a :
  Cre (CG.dot Nc a a) = 0 ->
  Forall (fun v : ColourVector => forall k, (k < Nc)%nat -> v k = C0)
         (data a).
Proof.
  intros H. destruct (fold_dot_self_re (data a) C0) as [_ H1].
  - cbn. lra.
  - now destruct (H1 H).
Qed.

Variable c : R.
Hypothesis c_pos : 0 < c.
Variable b : Lattice ColourVector.

Let act := Fermions.TestAction c.

Lemma apply_M_test x : CG.apply_M act x = Fermions.scale_real c x.
Proof. reflexivity. Qed.
Lemma apply_Mdag_test x : CG.apply_Mdag act x = Fermions.scale_real c x.
Proof. reflexivity. Qed.

(** The first iteration on a right-hand side that is not zero. *)
Lemma iterate_proportional n tol :
  Cre (CG.dot Nc b b) <> 0 ->
  CG.iterate Nc act (S n) 0 tol (Cre (CG.dot Nc b b)) (zero_like b)
             (Fermions.scale_real c b) (Fermions.scale_real c b)
  = (Fermions.scale_real (/ c) b, 0, 1%nat).
Proof.
  intros b_nonzero. cbn [CG.iterate].
  rewrite !apply_Mdag_test, !apply_M_test.
  set (r0 := Fermions.scale_real c b).
  set (q := Fermions.scale_real c (Fermions.scale_real c r0)).
  set (alpha := Cdiv (CG.dot Nc r0 r0) (CG.dot Nc r0 q)).
  assert (Ha : alpha = (/ (c * c), 0)).
  { unfold alpha, q, r0. rewrite !dot_scale_real_l, !dot_scale_real_r.
    pose proof (dot_self_im b) as Him.
    destruct (CG.dot Nc b b) as [bb bi]. cbn in Him, b_nonzero. subst bi.
    unfold Cdiv, Cscale, Cnorm2. cbn [fst snd]. f_equal; field; nra. }
  assert (Hr : CG.axmy r0 alpha q = zero_like b).
  { unfold CG.axmy, zero_like, Lat.with_data. cbn [layout site_size data].
    f_equal. unfold q, r0. rewrite !scale_real_data, !map_map.
    rewrite zip_with_map_same. apply map_ext. intros v.
    extensionality k. rewrite Ha.
    unfold CM.vsub, CM.vscale, CM.vzero, rscale, Cscale, Csub, Cmul, C0, RtoC.
    cbn.
    f_equal; field; lra. }
  assert (Hx : CG.axpy (zero_like b) alpha r0 = Fermions.scale_real (/ c) b).
  { unfold CG.axpy, zero_like, Fermions.scale_real, Lat.with_data.
    cbn [layout site_size data]. f_equal. unfold r0. rewrite scale_real_data.
    rewrite zip_with_map_same. apply map_ext. intros v.
    extensionality k. rewrite Ha.
    unfold CM.vadd, CM.vscale, CM.vzero, rscale, Cscale, Cadd, Cmul, C0, RtoC.
    cbn.
    f_equal; field; lra. }
  rewrite Hr, Hx.
  assert (Hz : CG.dot Nc (zero_like b) (zero_like b) = C0).
  { unfold CG.dot, zero_like. cbn [data Lat.with_data]. apply fold_dot_zero. }
  rewrite Hz. unfold CG.converged. cbn [Cre C0 RtoC fst].
  destruct (Rle_dec 0 (tol ^ 2 * Cre (CG.dot Nc b b))) as [_|_].
  - rewrite sqrt_0. reflexivity.
  - destruct (Rle_dec 0 (tol ^ 2)) as [_|H].
    + rewrite sqrt_0. reflexivity.
    + exfalso. apply H. apply pow2_ge_0.
Qed.

(** The first iteration on a right-hand side that is zero: the step
    length is 0 / 0, which is 0 in the real numbers of the model, and the
    residual vanishes at once. *)
Lemma iterate_zero n tol :
  Cre (CG.dot Nc b b) = 0 ->
  CG.iterate Nc act (S n) 0 tol (Cre (CG.dot Nc b b)) (zero_like b)
             (Fermions.scale_real c b) (Fermions.scale_real c b)
  = (zero_like b, 0, 1%nat).
Proof.
  intros b_zero. cbn [CG.iterate].
  rewrite !apply_Mdag_test, !apply_M_test.
  set (r0 := Fermions.scale_real c b).
  set (q := Fermions.scale_real c (Fermions.scale_real c r0)).
  assert (Hbb : CG.dot Nc b b = C0).
  { pose proof (dot_self_im b) as Him.
    destruct (CG.dot Nc b b) as [bb bi]. cbn in Him, b_zero. now subst. }
  assert (Hrr : CG.dot Nc r0 r0 = C0).
  { unfold r0. now rewrite dot_scale_real_l, dot_scale_real_r, Hbb,
      !Cscale_0. }
  rewrite Hrr, Cdiv_0_l.
  assert (Hx : CG.axpy (zero_like b) C0 r0 = zero_like b).
  { unfold CG.axpy, zero_like, Lat.with_data. cbn [layout site_size data].
    f_equal. unfold r0. rewrite scale_real_data.
    rewrite zip_with_map_same. apply map_ext. intros v.
    extensionality k.
    unfold CM.vadd, CM.vscale, CM.vzero. now rewrite Cmul_0_l, Cadd_0_l. }
  assert (Hr : CG.axmy r0 C0 q = r0).
  { unfold CG.axmy, q, r0, Fermions.scale_real, Lat.with_data.
    cbn [layout site_size data]. f_equal.
    apply zip_with_fst_id; [|now rewrite !length_map].
    intros v w. extensionality k.
    unfold CM.vsub, CM.vscale. now rewrite Cmul_0_l, Csub_0_r. }
  rewrite Hx, Hr, Hrr, b_zero. unfold CG.converged. cbn [Cre C0 RtoC fst].
  destruct (Rle_dec 0 (tol ^ 2 * 0)) as [_|H]; [|exfalso; apply H; lra].
  rewrite sqrt_0. reflexivity.
Qed.

Lemma zero_agrees :
  Cre (CG.dot Nc b b) = 0 ->
  CG.agrees Nc (zero_like b) (Fermions.scale_real (/ c) b).
Proof.
  intros H. apply dot_self_zero in H.
  split; [reflexivity|]. split; [reflexivity|].
  unfold zero_like, Fermions.scale_real, Lat.with_data. cbn [data].
  induction H as [|v l Hv _ IH]; cbn; constructor; [|exact IH].
  intros k Hk. unfold rscale, CM.vzero. now rewrite Hv, Cscale_0.
Qed.

Lemma agrees_refl x : CG.agrees Nc x x.
Proof.
  split; [reflexivity|]. split; [reflexivity|].
  induction (data x); constructor; auto.
Qed.

(** With a positive tolerance the solver returns after one iteration
    with the solution [b / c] and the residual 0. *)
Lemma cg_proportional n tol :
  0 < tol ->
  exists x,
    CG.conjugate_gradient Nc act b (S n) tol = Ok (x, 0, 1%nat)
    /\ CG.agrees Nc x (Fermions.scale_real (/ c) b)
    /\ (Cre (CG.dot Nc b b) <> 0 -> x = Fermions.scale_real (/ c) b).
Proof.
  intros Htol. unfold CG.conjugate_gradient, mbind, outcome_bind.
  destruct (Rlt_dec 0 tol) as [_|H]; [|contradiction].
  cbn [pyQCDassert obind]. cbv zeta. rewrite apply_Mdag_test.
  destruct (Req_dec (Cre (CG.dot Nc b b)) 0) as [Hz|Hnz].
  - rewrite (iterate_zero n tol Hz). exists (zero_like b).
    split; [reflexivity|]. split; [now apply zero_agrees|].
    intros H. contradiction.
  - rewrite (iterate_proportional n tol Hnz).
    exists (Fermions.scale_real (/ c) b).
    split; [reflexivity|]. split; [apply agrees_refl|]. reflexivity.
Qed.
End CGFacts.

Section CGTolerance.
Local Open Scope R_scope.

(** A tolerance that is not positive is refused before the first
    iteration. *)
Lemma cg_invalid_tolerance Nc action rhs max_iter tol :
  tol <= 0 ->
  CG.conjugate_gradient Nc action rhs max_iter tol
  = Raise CG.invalid_tolerance.
Proof.
  intros H. unfold CG.conjugate_gradient, mbind, outcome_bind.
  destruct (Rlt_dec 0 tol) as [H'|_]; [lra|]. reflexivity.
Qed.
End CGTolerance.


(** ** Loops that fail, loops that commute, and [apply_full] *)

Section Loops.
Context {S : Type}.

Lemma fails_no_throw {A} (m : outcome A) :
  fails m -> no_throw m -> m = OutOfBounds.
Proof. destruct m; cbn; intros F N; try tauto. now destruct (F a). Qed.

Lemma fails_bind_l {A B} (m : outcome A) (k : A -> outcome B) :
  fails m -> fails (obind m k).
Proof. destruct m; cbn; intros F b; try discriminate. now destruct (F a). Qed.

Lemma fails_bind_r {A B} (m : outcome A) (k : A -> outcome B) :
  (forall a, fails (k a)) -> fails (obind m k).
Proof. destruct m; cbn; intros F b; try discriminate. apply F. Qed.

Lemma no_throw_bind {A B} (m : outcome A) (k : A -> outcome B) :
  no_throw m -> (forall a, no_throw (k a)) -> no_throw (obind m k).
Proof. destruct m; cbn; auto. Qed.

Lemma for_loop_from_fails (body : nat -> S -> outcome S) k :
  (forall s, fails (body k s)) ->
  forall n i s, i <= k < i + n -> fails (for_loop_from i n body s).
Proof.
  intros Hk. induction n as [|n IH]; intros i s Hi; [lia|].
  cbn [for_loop_from]. destruct (decide (i = k)) as [->|Hne].
  - apply fails_bind_l, Hk.
  - apply fails_bind_r. intros s'. apply IH. lia.
Qed.

Lemma for_loop_fails (body : nat -> S -> outcome S) k n s :
  k < n -> (forall s, fails (body k s)) -> fails (for_loop n body s).
Proof. intros Hk Hb. apply (for_loop_from_fails body k Hb). lia. Qed.

Lemma for_loop_from_no_throw (body : nat -> S -> outcome S) :
  (forall j s, no_throw (body j s)) ->
  forall n i s, no_throw (for_loop_from i n body s).
Proof.
  intros Hb. induction n as [|n IH]; intros i s; cbn [for_loop_from];
    [exact I|].
  apply no_throw_bind; auto.
Qed.

Lemma for_loop_no_throw (body : nat -> S -> outcome S) n s :
  (forall j s, no_throw (body j s)) -> no_throw (for_loop n body s).
Proof. intros Hb. now apply for_loop_from_no_throw. Qed.

(** Two loops whose bodies commute with [f] on the states of [Inv]. *)
Lemma for_loop_from_commute (f : S -> S) (Inv : S -> Prop)
      (body : nat -> S -> outcome S) :
  (forall j s, Inv s -> body j (f s) = omap f (body j s)) ->
  (forall j s s', Inv s -> body j s = Ok s' -> Inv s') ->
  forall n i s, Inv s ->
    for_loop_from i n body (f s) = omap f (for_loop_from i n body s).
Proof.
  intros Hc Hi. induction n as [|n IH]; intros i s Hs; cbn [for_loop_from];
    [reflexivity|].
  rewrite Hc by exact Hs. specialize (Hi i s).
  destruct (body i s) as [s'| | |]; cbn; try reflexivity.
  apply IH. now apply Hi.
Qed.

Lemma for_loop_from_inv (Inv : S -> Prop) (body : nat -> S -> outcome S) :
  (forall j s s', Inv s -> body j s = Ok s' -> Inv s') ->
  forall n i s s', Inv s -> for_loop_from i n body s = Ok s' -> Inv s'.
Proof.
  intros Hi. induction n as [|n IH]; intros i s s' Hs; cbn [for_loop_from].
  - intros [= <-]. exact Hs.
  - specialize (Hi i s). destruct (body i s) as [s1| | |]; cbn; try discriminate.
    apply IH. now apply Hi.
Qed.
End Loops.

Lemma oread_no_throw {A} (l : list A) i : no_throw (oread l i).
Proof. unfold oread. now destruct (l !! i). Qed.
Lemma owrite_no_throw {A} (l : list A) i a : no_throw (owrite l i a).
Proof. unfold owrite. now destruct (decide _). Qed.
Lemma lat_read_no_throw {T} (lat : Lattice T) i : no_throw (Lat.read lat i).
Proof. apply oread_no_throw. Qed.
Lemma lat_write_no_throw {T} (lat : Lattice T) i x : no_throw (Lat.write lat i x).
Proof. unfold Lat.write, mbind, outcome_bind. apply no_throw_bind; [apply owrite_no_throw|now intros]. Qed.
Lemma add_assign_no_throw lat i v : no_throw (add_assign lat i v).
Proof.
  unfold add_assign, mbind, outcome_bind.
  apply no_throw_bind; [apply lat_read_no_throw|intros; apply lat_write_no_throw].
Qed.
Lemma coeff_no_throw m r c : no_throw (coeff m r c).
Proof.
  unfold coeff, mbind, outcome_bind.
  apply no_throw_bind; [apply oread_no_throw|intros; apply oread_no_throw].
Qed.

Ltac no_throw_steps :=
  repeat first
    [ exact I
    | apply add_assign_no_throw | apply coeff_no_throw
    | apply lat_read_no_throw | apply lat_write_no_throw
    | apply oread_no_throw | apply owrite_no_throw
    | apply for_loop_no_throw; intros
    | apply no_throw_bind; [|intros] ].

Section ApplyFull.
Variable Nc : nat.

Lemma gather_step_no_throw hm fin nd a mu al be pre :
  no_throw (gather_step Nc hm fin nd a mu al be pre).
Proof. unfold gather_step, mbind, outcome_bind. cbv zeta. no_throw_steps. Qed.

Lemma apply_full_no_throw hm fout fin : no_throw (apply_full Nc hm fout fin).
Proof.
  unfold apply_full, gather, scatter, scatter_step, mbind, outcome_bind. cbv zeta.
  apply no_throw_bind; [apply for_loop_no_throw; intros; apply for_loop_no_throw; intros;
     apply for_loop_no_throw; intros; apply for_loop_no_throw; intros; apply gather_step_no_throw|].
  intros pre. no_throw_steps.
Qed.

Lemma gather_step_fails hm fin nd a mu al be pre :
  length (spin_structures_ hm) <= 2 * mu + 1 ->
  fails (gather_step Nc hm fin nd a mu al be pre).
Proof.
  intros H. unfold gather_step, mbind, outcome_bind. cbv zeta.
  assert (E : oread (spin_structures_ hm) (2 * mu + 1) = OutOfBounds).
  { unfold oread. now rewrite lookup_ge_None_2. }
  rewrite E. cbn [obind].
  repeat (apply fails_bind_r; intros). intros x; discriminate.
Qed.

Lemma apply_full_needs_spin_structures hm fout fin :
  length (spin_structures_ hm) < 2 * num_dims (layout fin) ->
  1 <= volume (layout fin) -> 1 <= num_spins_ hm ->
  apply_full Nc hm fout fin = OutOfBounds.
Proof.
  intros Hlen Hvol Hns. apply fails_no_throw; [|apply apply_full_no_throw].
  unfold apply_full, mbind, outcome_bind. cbv zeta.
  apply fails_bind_l. unfold gather.
  apply (for_loop_fails _ 0); [lia|]. intros pre.
  apply (for_loop_fails _ (length (spin_structures_ hm) / 2)).
  { apply Nat.Div0.div_lt_upper_bound. lia. }
  intros pre1. apply (for_loop_fails _ 0); [lia|]. intros pre2.
  apply (for_loop_fails _ 0); [lia|]. intros pre3.
  apply gather_step_fails.
  pose proof (Nat.div_mod_eq (length (spin_structures_ hm)) 2).
  pose proof (Nat.mod_upper_bound (length (spin_structures_ hm)) 2). lia.
Qed.
End ApplyFull.

Section Accumulate.
Variable Nc : nat.

Lemma vadd_assoc u v w : CM.vadd (CM.vadd u v) w = CM.vadd u (CM.vadd v w).
Proof.
  extensionality k. unfold CM.vadd, Cadd. cbn. f_equal; ring.
Qed.

Lemma vadd_zero_r v : CM.vadd v CM.vzero = v.
Proof.
  extensionality k. unfold CM.vadd, CM.vzero, Cadd, C0, RtoC. cbn.
  destruct (v k). cbn. f_equal; ring.
Qed.

Lemma plus_field_zero out : plus_field out (zero_like out) = out.
Proof.
  destruct out as [l n d]. unfold plus_field, zero_like, Lat.with_data. cbn.
  f_equal. induction d as [|v d IH]; cbn; [reflexivity|].
  now rewrite vadd_zero_r, IH.
Qed.

Lemma add_assign_same_length out s i p s' :
  same_length out s -> add_assign s i p = Ok s' -> same_length out s'.
Proof.
  unfold same_length, add_assign, Lat.read, Lat.write, oread, owrite, mbind, outcome_bind.
  intros H. destruct (data s !! i); cbn; [|discriminate].
  destruct (decide _); cbn; [|discriminate].
  intros [= <-]. cbn. now rewrite length_insert.
Qed.

Lemma add_assign_commute out s i p :
  same_length out s ->
  add_assign (plus_field out s) i p = omap (plus_field out) (add_assign s i p).
Proof.
  unfold same_length. intros H.
  unfold add_assign, Lat.read, Lat.write, oread, owrite, mbind, outcome_bind, omap.
  cbn [data plus_field Lat.with_data].
  rewrite lookup_zip_with, length_zip_with, <- H, Nat.min_id.
  destruct (data s !! i) as [x|] eqn:Ex.
  - destruct (data out !! i) as [o|] eqn:Eo.
    2:{ apply lookup_lt_Some in Ex. apply lookup_ge_None in Eo. lia. }
    cbn. pose proof (lookup_lt_Some _ _ _ Ex) as Hi.
    destruct (decide (i < length (data s))) as [_|]; [|lia]. cbn.
    unfold plus_field, Lat.with_data. cbn. f_equal. f_equal.
    rewrite vadd_assoc.
    rewrite <- (list_insert_id (data out) i o Eo) at 2.
    now rewrite insert_zip_with.
  - destruct (data out !! i); reflexivity.
Qed.

Lemma scatter_step_commute hm pre nd a mu np nm al out s :
  same_length out s ->
  scatter_step hm pre nd a mu np nm al (plus_field out s)
  = omap (plus_field out) (scatter_step hm pre nd a mu np nm al s).
Proof.
  intros H. unfold scatter_step, mbind, outcome_bind. cbv zeta.
  destruct (Lat.read pre _) as [p| | |]; cbn [obind omap]; try reflexivity.
  rewrite add_assign_commute by exact H.
  destruct (add_assign s _ p) as [s1| | |] eqn:E1; cbn [obind omap]; try reflexivity.
  destruct (Lat.read pre _) as [p'| | |]; cbn [obind omap]; try reflexivity.
  apply add_assign_commute. eapply add_assign_same_length; eauto.
Qed.

Lemma scatter_step_same_length hm pre nd a mu np nm al out s s' :
  same_length out s ->
  scatter_step hm pre nd a mu np nm al s = Ok s' -> same_length out s'.
Proof.
  intros H. unfold scatter_step, mbind, outcome_bind. cbv zeta.
  destruct (Lat.read pre _) as [p| | |]; cbn [obind]; try discriminate.
  destruct (add_assign s _ p) as [s1| | |] eqn:E1; cbn [obind]; try discriminate.
  destruct (Lat.read pre _) as [p'| | |]; cbn [obind]; try discriminate.
  apply add_assign_same_length. eapply add_assign_same_length; eauto.
Qed.

Lemma scatter_commute hm pre nd vol out s :
  same_length out s ->
  scatter hm pre nd vol (plus_field out s)
  = omap (plus_field out) (scatter hm pre nd vol s).
Proof.
  intros H. unfold scatter, for_loop.
  apply (for_loop_from_commute _ (same_length out)); [| |exact H].
  - intros a s1 H1.
    apply (for_loop_from_commute _ (same_length out)); [| |exact H1].
    + intros mu s2 H2. unfold mbind, outcome_bind.
      destruct (oread _ a) as [row| | |]; cbn [obind omap]; try reflexivity.
      destruct (oread row _) as [np| | |]; cbn [obind omap]; try reflexivity.
      destruct (oread row _) as [nm| | |]; cbn [obind omap]; try reflexivity.
      apply (for_loop_from_commute _ (same_length out)); [| |exact H2].
      * intros al s3 H3. now apply scatter_step_commute.
      * intros al s3 s3' H3. now apply scatter_step_same_length.
    + intros mu s2 s2' H2. unfold mbind, outcome_bind.
      destruct (oread _ a) as [row| | |]; cbn [obind]; try discriminate.
      destruct (oread row _) as [np| | |]; cbn [obind]; try discriminate.
      destruct (oread row _) as [nm| | |]; cbn [obind]; try discriminate.
      apply (for_loop_from_inv (same_length out)); [|exact H2].
      intros al s3 s3' H3. now apply scatter_step_same_length.
  - intros a s1 s1' H1.
    apply (for_loop_from_inv (same_length out)); [|exact H1].
    intros mu s2 s2' H2. unfold mbind, outcome_bind.
    destruct (oread _ a) as [row| | |]; cbn [obind]; try discriminate.
    destruct (oread row _) as [np| | |]; cbn [obind]; try discriminate.
    destruct (oread row _) as [nm| | |]; cbn [obind]; try discriminate.
    apply (for_loop_from_inv (same_length out)); [|exact H2].
    intros al s3 s3' H3. now apply scatter_step_same_length.
Qed.

Lemma scatter_same_length hm pre nd vol out s s' :
  same_length out s -> scatter hm pre nd vol s = Ok s' ->
  same_length out s'.
Proof.
  intros H. unfold scatter, for_loop.
  apply (for_loop_from_inv (same_length out)); [|exact H].
  intros a s1 s1' H1.
  apply (for_loop_from_inv (same_length out)); [|exact H1].
  intros mu s2 s2' H2. unfold mbind, outcome_bind.
  destruct (oread _ a) as [row| | |]; cbn [obind]; try discriminate.
  destruct (oread row _) as [np| | |]; cbn [obind]; try discriminate.
  destruct (oread row _) as [nm| | |]; cbn [obind]; try discriminate.
  apply (for_loop_from_inv (same_length out)); [|exact H2].
  intros al s3 s3' H3. now apply scatter_step_same_length.
Qed.

Lemma apply_full_same_length hm out fin r :
  apply_full Nc hm out fin = Ok r -> same_length out r.
Proof.
  unfold apply_full, mbind, outcome_bind. cbv zeta.
  destruct (gather Nc hm fin) as [pre| | |]; cbn [obind]; try discriminate.
  apply scatter_same_length. reflexivity.
Qed.

Lemma apply_full_accumulates hm out fin :
  apply_full Nc hm out fin
  = omap (plus_field out) (apply_full Nc hm (zero_like out) fin).
Proof.
  unfold apply_full, mbind, outcome_bind. cbv zeta.
  destruct (gather Nc hm fin) as [pre| | |]; cbn [obind omap]; try reflexivity.
  rewrite <- scatter_commute.
  - now rewrite plus_field_zero.
  - unfold same_length, zero_like. cbn. now rewrite length_map.
Qed.
End Accumulate.


(** ** The constructor of the hopping matrix *)

Section HopFacts.
Import HopSpec.
Variable Nc : nat.
Variable Nhops : nat.
Local Open Scope Z_scope.

Lemma sanitize_in_range L cs :
  in_range L cs -> sanitize_site_coords L cs = cs.
Proof.
  unfold in_range, sanitize_site_coords.
  induction 1 as [|c n cs ns Hc _ IH]; cbn; [reflexivity|].
  rewrite IH, Z.mod_small by lia. reflexivity.
Qed.

Lemma sanitize_insert L cs d v ext :
  in_range L cs -> shape L !! d = Some ext ->
  sanitize_site_coords L (<[d := v]> cs) = <[d := v mod ext]> cs.
Proof.
  intros Hr Hd. unfold sanitize_site_coords.
  rewrite <- (list_insert_id (shape L) d ext Hd) at 1.
  rewrite <- insert_zip_with. f_equal. now apply sanitize_in_range.
Qed.

Lemma in_range_insert L cs d v ext :
  in_range L cs -> shape L !! d = Some ext -> 0 <= v < ext ->
  in_range L (<[d := v]> cs).
Proof.
  intros Hr Hd Hv. unfold in_range in *.
  rewrite <- (list_insert_id (shape L) d ext Hd).
  apply Forall2_insert; assumption.
Qed.

Lemma in_range_lookup L cs d ext :
  in_range L cs -> shape L !! d = Some ext ->
  exists c, cs !! d = Some c /\ 0 <= c < ext.
Proof.
  intros Hr Hd. unfold in_range in Hr.
  destruct (Forall2_lookup_r _ _ _ _ _ Hr Hd) as (c & Hc & Hb). eauto.
Qed.

Lemma in_range_length L cs : in_range L cs -> length cs = length (shape L).
Proof. apply Forall2_length. Qed.

Lemma oread_ok {A} (l : list A) i x : l !! i = Some x -> oread l i = Ok x.
Proof. intros E. unfold oread. now rewrite E. Qed.

Lemma owrite_ok {A} (l : list A) i x :
  (i < length l)%nat -> owrite l i x = Ok (<[i := x]> l).
Proof. intros Hi. unfold owrite. now destruct (decide _). Qed.

Lemma lat_write_ok {T} (lat : Lattice T) i x :
  (i < length (data lat))%nat ->
  Lat.write lat i x = Ok (Lat.with_data lat (<[i := x]> (data lat))).
Proof.
  intros Hi. unfold Lat.write, mbind, outcome_bind.
  now rewrite owrite_ok by exact Hi.
Qed.

Lemma coord_add_insert cs d x v :
  (d < length cs)%nat ->
  coord_add (<[d := x]> cs) d v = Ok (<[d := s32 (x + u32 v)]> cs).
Proof.
  intros Hd. unfold coord_add, oread, owrite, mbind, outcome_bind.
  rewrite list_lookup_insert_eq by exact Hd. cbn [obind].
  rewrite length_insert. destruct (decide (d < length cs)%nat); [|lia].
  now rewrite list_insert_insert_eq.
Qed.

Lemma coord_sub_insert cs d x v :
  (d < length cs)%nat ->
  coord_sub (<[d := x]> cs) d v = Ok (<[d := s32 (x - u32 v)]> cs).
Proof.
  intros Hd. unfold coord_sub, oread, owrite, mbind, outcome_bind.
  rewrite list_lookup_insert_eq by exact Hd. cbn [obind].
  rewrite length_insert. destruct (decide (d < length cs)%nat); [|lia].
  now rewrite list_insert_insert_eq.
Qed.

Lemma mul_assign_at (sc : Lattice ColourMatrix) i X m :
  data sc !! i = Some X ->
  mul_assign Nc sc i m = Ok (Lat.with_data sc (<[i := CM.mul Nc X m]> (data sc))).
Proof.
  intros HX. unfold mul_assign, Lat.read, Lat.write, oread, owrite, mbind, outcome_bind.
  rewrite HX. cbn [obind].
  destruct (decide (i < length (data sc))%nat) as [_|H]; [reflexivity|].
  apply lookup_lt_Some in HX. lia.
Qed.

Lemma gauge_read gf coords d :
  layout_ok Nhops (layout gf) -> gauge_ok gf -> in_range (layout gf) coords ->
  (d < num_dims (layout gf))%nat ->
  Lat.read gf (Lat.slot_of_coords gf coords d) = Ok (link_at gf coords d).
Proof.
  intros HL [Hs Hn] Hr Hd. unfold Lat.read, oread, link_at.
  pose proof (coords_index_lt _ _ HL coords Hr) as Hi.
  destruct (data gf !! Lat.slot_of_coords gf coords d) as [u|] eqn:E;
    [reflexivity|].
  apply lookup_ge_None in E. unfold Lat.slot_of_coords in E.
  rewrite Hs, Hn in E. nia.
Qed.

Lemma mod_shift x c k ext :
  0 < ext -> x mod ext = c mod ext -> (x + k) mod ext = (c + k) mod ext.
Proof.
  intros He Hx. rewrite (Z.add_mod x k), Hx, <- Z.add_mod by lia. reflexivity.
Qed.

Lemma shift_coords_eq L cs d v ext :
  in_range L cs -> shape L !! d = Some ext ->
  shift_coords L cs d v = <[d := v mod ext]> cs.
Proof. apply sanitize_insert. Qed.

Lemma shift_coords_in_range L cs d v ext :
  in_range L cs -> shape L !! d = Some ext -> 0 < ext ->
  in_range L (shift_coords L cs d v).
Proof.
  intros Hr Hd He. rewrite (shift_coords_eq L cs d v ext Hr Hd).
  apply (in_range_insert L cs d _ ext Hr Hd). apply Z.mod_pos_bound. lia.
Qed.

Section Step.
Variable gf : Lattice ColourMatrix.
Variable site_index d : nat.
Variable ext c : Z.
Let L := layout gf.
Let cs0 := compute_site_coords L site_index.
Let H := Z.of_nat Nhops.
Hypothesis HL : layout_ok Nhops L.
Hypothesis Hgf : gauge_ok gf.
Hypothesis Hs : (site_index < volume L)%nat.
Hypothesis Hd : (d < num_dims L)%nat.
Hypothesis Hext : shape L !! d = Some ext.
Hypothesis Hc : cs0 !! d = Some c.

Lemma cs0_in_range : in_range L cs0.
Proof. apply (coords_in_range _ _ HL), Hs. Qed.

Lemma ext_bounds : 0 < ext /\ ext + 2 * H < 2 ^ 31.
Proof.
  pose proof (shape_small _ _ HL) as Hf.
  rewrite Forall_lookup in Hf. exact (Hf d ext Hext).
Qed.

Lemma c_bounds : 0 <= c < ext.
Proof.
  destruct (in_range_lookup L cs0 d ext cs0_in_range Hext) as (c' & Hc' & Hb).
  rewrite Hc in Hc'. now injection Hc' as ->.
Qed.

Lemma d_lt_cs0 : (d < length cs0)%nat.
Proof. apply lookup_lt_Some in Hc. exact Hc. Qed.

Local Abbreviation met := (HopSpec.met gf site_index d).

Lemma hop_step_spec h x (sc : Lattice ColourMatrix) B F :
  (h < Nhops)%nat -> x mod ext = c -> - H <= x < ext ->
  data sc !! Lat.slot sc site_index (2 * d) = Some B ->
  data sc !! Lat.slot sc site_index (2 * d + 1) = Some F ->
  hop_step Nc Nhops gf site_index d h (<[d := x]> cs0, sc)
  = Ok (<[d := (c + Z.of_nat h) mod ext - Z.of_nat h]> cs0,
        Lat.with_data sc
          (<[Lat.slot sc site_index (2 * d + 1) :=
               CM.mul Nc F (met (c + Z.of_nat h))]>
             (<[Lat.slot sc site_index (2 * d) :=
                  CM.mul Nc B (met (c - H + Z.of_nat h))]> (data sc)))).
Proof.
  intros Hh Hx Hxb HB HF.
  pose proof ext_bounds as [He1 He2]. pose proof c_bounds as Hcb.
  pose proof cs0_in_range as Hr. pose proof d_lt_cs0 as Hdl.
  assert (Hcm : x mod ext = c mod ext) by (rewrite Hx, Z.mod_small; lia).
  unfold hop_step. fold L. unfold mbind, outcome_bind.
  (* site_coords[d] += h - Nhops *)
  rewrite coord_add_insert by exact Hdl. cbn [obind].
  rewrite s32_add_u32, s32_small by (fold H; lia).
  rewrite (sanitize_insert L cs0 d _ ext Hr Hext).
  replace ((x + (Z.of_nat h - Z.of_nat Nhops)) mod ext)
    with ((c - H + Z.of_nat h) mod ext).
  2:{ replace (c - H + Z.of_nat h) with (c + (Z.of_nat h - H)) by lia.
      symmetry. apply mod_shift; [lia|exact Hcm]. }
  rewrite <- (shift_coords_eq L cs0 d (c - H + Z.of_nat h) ext Hr Hext).
  rewrite (gauge_read gf _ d HL Hgf
             (shift_coords_in_range L cs0 d _ ext Hr Hext He1) Hd).
  cbn [obind].
  change (link_at gf (shift_coords L cs0 d (c - H + Z.of_nat h)) d)
    with (met (c - H + Z.of_nat h)).
  rewrite (mul_assign_at sc _ B _ HB). cbn [obind].
  (* site_coords[d] += Nhops *)
  rewrite (shift_coords_eq L cs0 d (c - H + Z.of_nat h) ext Hr Hext).
  rewrite coord_add_insert by exact Hdl. cbn [obind].
  pose proof (Z.mod_pos_bound (c - H + Z.of_nat h) ext He1) as Hm1.
  rewrite s32_add_u32, s32_small by (fold H; lia).
  rewrite (sanitize_insert L cs0 d _ ext Hr Hext).
  replace (((c - H + Z.of_nat h) mod ext + Z.of_nat Nhops) mod ext)
    with ((c + Z.of_nat h) mod ext).
  2:{ fold H. rewrite Zplus_mod_idemp_l. f_equal. lia. }
  rewrite <- (shift_coords_eq L cs0 d (c + Z.of_nat h) ext Hr Hext).
  rewrite (gauge_read gf _ d HL Hgf
             (shift_coords_in_range L cs0 d _ ext Hr Hext He1) Hd).
  cbn [obind].
  change (link_at gf (shift_coords L cs0 d (c + Z.of_nat h)) d)
    with (met (c + Z.of_nat h)).
  assert (Hne : Lat.slot sc site_index (2 * d)
                <> Lat.slot sc site_index (2 * d + 1))
    by (unfold Lat.slot; lia).
  rewrite (mul_assign_at _ _ F).
  2:{ cbn. rewrite list_lookup_insert_ne by exact Hne. exact HF. }
  cbn [obind].
  (* site_coords[d] -= h *)
  rewrite (shift_coords_eq L cs0 d (c + Z.of_nat h) ext Hr Hext).
  rewrite coord_sub_insert by exact Hdl. cbn [obind].
  pose proof (Z.mod_pos_bound (c + Z.of_nat h) ext He1) as Hm2.
  replace (s32 ((c + Z.of_nat h) mod ext - u32 (Z.of_nat h)))
    with ((c + Z.of_nat h) mod ext - Z.of_nat h).
  2:{ rewrite (u32_small (Z.of_nat h)) by lia.
      rewrite s32_small; [reflexivity|]. fold H in He2. lia. }
  reflexivity.
Qed.

Let ib (sc : Lattice ColourMatrix) := Lat.slot sc site_index (2 * d).
Let ifw (sc : Lattice ColourMatrix) := Lat.slot sc site_index (2 * d + 1).

Lemma hop_loop_spec n : forall h0 x (sc : Lattice ColourMatrix) B F,
  (h0 + n <= Nhops)%nat -> x mod ext = c -> - H <= x < ext ->
  data sc !! ib sc = Some B -> data sc !! ifw sc = Some F ->
  exists x' sc',
    for_loop_from h0 n (hop_step Nc Nhops gf site_index d)
                  (<[d := x]> cs0, sc) = Ok (<[d := x']> cs0, sc')
    /\ x' mod ext = c /\ - H <= x' < ext
    /\ layout sc' = layout sc /\ site_size sc' = site_size sc
    /\ length (data sc') = length (data sc)
    /\ data sc' !! ib sc
       = Some (fold_left (fun acc h =>
                            CM.mul Nc acc (met (c - H + Z.of_nat h)))
                         (seq h0 n) B)
    /\ data sc' !! ifw sc
       = Some (fold_left (fun acc h =>
                            CM.mul Nc acc (met (c + Z.of_nat h)))
                         (seq h0 n) F)
    /\ forall j, j <> ib sc -> j <> ifw sc ->
                 data sc' !! j = data sc !! j.
Proof.
  pose proof ext_bounds as [He1 He2]. pose proof c_bounds as Hcb.
  induction n as [|n IH]; intros h0 x sc B F Hn Hx Hxb HB HF.
  - exists x, sc. cbn [for_loop_from seq fold_left].
    repeat split; try assumption; try reflexivity; lia.
  - cbn [for_loop_from seq fold_left].
    rewrite (hop_step_spec h0 x sc B F) by (auto; lia).
    cbn [obind].
    set (sc1 := Lat.with_data sc _).
    assert (Hne : ib sc <> ifw sc) by (unfold ib, ifw, Lat.slot; lia).
    pose proof (lookup_lt_Some _ _ _ HB) as HBl.
    pose proof (lookup_lt_Some _ _ _ HF) as HFl.
    pose proof (Z.mod_pos_bound (c + Z.of_nat h0) ext He1) as Hm.
    destruct (IH (S h0) ((c + Z.of_nat h0) mod ext - Z.of_nat h0) sc1
                 (CM.mul Nc B (met (c - H + Z.of_nat h0)))
                 (CM.mul Nc F (met (c + Z.of_nat h0))))
      as (x' & sc' & E & Hx' & Hxb' & Hl & Hz & Hlen & HB' & HF' & Hfr).
    + lia.
    + rewrite Zminus_mod_idemp_l.
      replace (c + Z.of_nat h0 - Z.of_nat h0) with c by lia.
      apply Z.mod_small. lia.
    + fold H in He2. lia.
    + subst sc1. cbn [data Lat.with_data]. fold (ib sc) (ifw sc).
      rewrite list_lookup_insert_ne by (intros E; apply Hne; now symmetry).
      apply list_lookup_insert_eq. exact HBl.
    + subst sc1. cbn [data Lat.with_data]. fold (ib sc) (ifw sc).
      apply list_lookup_insert_eq. rewrite length_insert. exact HFl.
    + exists x', sc'. split; [exact E|].
      split; [exact Hx'|]. split; [exact Hxb'|].
      split; [exact Hl|]. split; [exact Hz|].
      split; [rewrite Hlen; subst sc1; cbn; now rewrite !length_insert|].
      split; [exact HB'|]. split; [exact HF'|].
      intros j Hjb Hjf. rewrite (Hfr j Hjb Hjf). subst sc1.
      cbn [data Lat.with_data]. fold (ib sc) (ifw sc).
      rewrite !list_lookup_insert_ne by congruence. reflexivity.
Qed.

Variable phases : list C.
Hypothesis Hphases : (num_dims L <= length phases)%nat.

Lemma scatter_axis_spec (sc : Lattice ColourMatrix)
      (nb : list (list nat)) row :
  layout sc = L -> site_size sc = (2 * num_dims L)%nat ->
  length (data sc) = (volume L * (2 * num_dims L))%nat ->
  nb !! get_array_index L site_index = Some row ->
  length row = (num_dims L * 2)%nat ->
  exists sc',
    scatter_axis Nc Nhops gf phases site_index d (sc, nb)
    = Ok (sc',
          <[get_array_index L site_index :=
              <[(2 * d + 1)%nat := neighbour L site_index d (c + H)]>
                (<[(2 * d)%nat := neighbour L site_index d (c - H)]> row)]>
            nb)
    /\ layout sc' = layout sc /\ site_size sc' = site_size sc
    /\ length (data sc') = length (data sc)
    /\ data sc' !! ib sc
       = Some (line_product Nc Nhops gf cs0 d (c - H)
                            (phase_bck Nhops L phases site_index d))
    /\ data sc' !! ifw sc
       = Some (line_product Nc Nhops gf cs0 d c
                            (phase_fwd Nhops L phases site_index d))
    /\ forall j, j <> ib sc -> j <> ifw sc ->
                 data sc' !! j = data sc !! j.
Proof.
  intros Hlay Hsz Hlen Hrow Hrl.
  pose proof ext_bounds as [He1 He2]. pose proof c_bounds as Hcb.
  pose proof cs0_in_range as Hr. pose proof d_lt_cs0 as Hdl.
  pose proof (array_index_lt _ _ HL site_index Hs) as Ha.
  fold L in Ha. fold H in He2.
  destruct (lookup_lt_is_Some_2 phases d ltac:(lia)) as [phi Hphi].
  assert (Hib : (ib sc < length (data sc))%nat).
  { unfold ib, Lat.slot. rewrite Hlay, Hsz, Hlen. nia. }
  assert (Hifw : (ifw sc < length (data sc))%nat).
  { unfold ifw, Lat.slot. rewrite Hlay, Hsz, Hlen. nia. }
  assert (Hne : ib sc <> ifw sc) by (unfold ib, ifw, Lat.slot; lia).
  unfold scatter_axis. fold L. fold cs0. unfold mbind, outcome_bind.
  rewrite (oread_ok cs0 d c Hc). cbn [obind].
  rewrite (oread_ok (shape L) d ext Hext). cbn [obind].
  rewrite (u32_small (c + Z.of_nat Nhops)) by (fold H; lia).
  rewrite (u32_small c), (u32_small (Z.of_nat Nhops)) by (fold H; lia).
  assert (Epf : (if ext <=? c + Z.of_nat Nhops
                 then oread phases d else Ok C1)
                = Ok (phase_fwd Nhops L phases site_index d)).
  { unfold phase_fwd, coord_of, extent_of, phase_of, oread.
    fold cs0. rewrite Hc, Hext, Hphi. cbn.
    now destruct (ext <=? c + Z.of_nat Nhops). }
  assert (Epb : (if c <? Z.of_nat Nhops
                 then oread phases d else Ok C1)
                = Ok (phase_bck Nhops L phases site_index d)).
  { unfold phase_bck, coord_of, extent_of, phase_of, oread.
    fold cs0. rewrite Hc, Hphi. cbn.
    now destruct (c <? Z.of_nat Nhops). }
  rewrite Epf. cbn [obind]. rewrite Epb. cbn [obind].
  (* the two initial writes *)
  rewrite lat_write_ok by exact Hib. cbn [obind].
  rewrite lat_write_ok
    by (cbn [data Lat.with_data]; rewrite length_insert; exact Hifw).
  cbn [obind].
  set (sc0 := Lat.with_data (Lat.with_data sc _) _).
  (* the loop over h *)
  unfold for_loop.
  destruct (hop_loop_spec Nhops 0%nat c sc0
              (CM.scale_r CM.identity (phase_bck Nhops L phases site_index d))
              (CM.scale_r CM.identity (phase_fwd Nhops L phases site_index d)))
    as (x' & sc' & E & Hx' & Hxb' & Hl & Hz & Hlen' & HB' & HF' & Hfr).
  { lia. } { apply Z.mod_small; lia. } { lia. }
  { subst sc0. cbn [data Lat.with_data]. fold (ib sc) (ifw sc).
    rewrite list_lookup_insert_ne by (intros E; apply Hne; now symmetry).
    now apply list_lookup_insert_eq. }
  { subst sc0. cbn [data Lat.with_data]. fold (ib sc) (ifw sc).
    apply list_lookup_insert_eq. now rewrite length_insert. }
  rewrite (list_insert_id cs0 d c Hc) in E.
  rewrite E. cbn [obind].
  (* the neighbours *)
  rewrite coord_sub_insert by exact Hdl. cbn [obind].
  rewrite (u32_small (Z.of_nat Nhops)) by (fold H; lia).
  rewrite s32_small by (fold H; lia).
  rewrite (sanitize_insert L cs0 d _ ext Hr Hext).
  replace ((x' - Z.of_nat Nhops) mod ext) with ((c - H) mod ext).
  2:{ unfold Z.sub. symmetry. apply mod_shift; [lia|].
      rewrite Hx', Z.mod_small; lia. }
  rewrite coord_add_insert by exact Hdl. cbn [obind].
  pose proof (Z.mod_pos_bound (c - H) ext He1) as Hm1.
  rewrite s32_add_u32, s32_small by (fold H; lia).
  rewrite (sanitize_insert L cs0 d _ ext Hr Hext).
  replace (((c - H) mod ext + 2 * Z.of_nat Nhops) mod ext)
    with ((c + H) mod ext).
  2:{ fold H. rewrite Zplus_mod_idemp_l. f_equal. lia. }
  rewrite coord_sub_insert by exact Hdl. cbn [obind].
  rewrite <- (shift_coords_eq L cs0 d (c - H) ext Hr Hext).
  rewrite <- (shift_coords_eq L cs0 d (c + H) ext Hr Hext).
  rewrite !(array_site_array _ _ HL)
    by (apply (coords_index_lt _ _ HL);
        apply (shift_coords_in_range L cs0 d _ ext Hr Hext He1)).
  fold (neighbour L site_index d (c - H)).
  fold (neighbour L site_index d (c + H)).
  pose proof (lookup_lt_Some _ _ _ Hrow) as Hal.
  rewrite (oread_ok nb _ row Hrow). cbn [obind].
  rewrite owrite_ok by lia. cbn [obind].
  rewrite owrite_ok by exact Hal. cbn [obind].
  rewrite (oread_ok _ _ _ (list_lookup_insert_eq nb _ _ Hal)).
  cbn [obind].
  rewrite owrite_ok by (rewrite length_insert; lia). cbn [obind].
  rewrite owrite_ok by (rewrite length_insert; exact Hal). cbn [obind].
  rewrite list_insert_insert_eq.
  exists sc'. split; [reflexivity|].
  split; [exact Hl|]. split; [exact Hz|].
  split; [rewrite Hlen'; subst sc0; cbn; now rewrite !length_insert|].
  split; [exact HB'|]. split; [exact HF'|].
  intros j Hjb Hjf. rewrite (Hfr j Hjb Hjf). subst sc0.
  cbn [data Lat.with_data].
  rewrite list_lookup_insert_ne by (intros E'; apply Hjf; now symmetry).
  rewrite list_lookup_insert_ne by (intros E'; apply Hjb; now symmetry).
  reflexivity.
Qed.
End Step.
End HopFacts.

Section Establish.
Context {S : Type}.
Variable Inv : S -> Prop.
Variable P : nat -> S -> Prop.
Variable R : S -> S -> Prop.
Variable body : nat -> S -> outcome S.
Variable n : nat.
Hypothesis R_refl : forall s, R s s.
Hypothesis R_trans : forall s1 s2 s3, R s1 s2 -> R s2 s3 -> R s1 s3.
Hypothesis body_spec :
  forall j s, j < n -> Inv s ->
    exists s', body j s = Ok s' /\ Inv s' /\ P j s' /\ R s s'
               /\ forall k, k < j -> P k s -> P k s'.

Lemma for_loop_from_establish m : forall i s,
  i + m = n -> Inv s -> (forall k, k < i -> P k s) ->
  exists s', for_loop_from i m body s = Ok s' /\ Inv s' /\ R s s'
             /\ forall k, k < n -> P k s'.
Proof.
  induction m as [|m IH]; intros i s Him Hs Hp; cbn [for_loop_from].
  - exists s. repeat split; auto. intros k Hk. apply Hp. lia.
  - destruct (body_spec i s ltac:(lia) Hs) as (s1 & E & Hs1 & Pi & R1 & Pk).
    rewrite E. cbn [obind].
    destruct (IH (Datatypes.S i) s1 ltac:(lia) Hs1) as (s' & E' & Hs' & R' & P').
    + intros k Hk. destruct (decide (k = i)) as [->|Hne]; [exact Pi|].
      apply Pk; [lia|]. apply Hp. lia.
    + exists s'. repeat split; eauto.
Qed.

Lemma for_loop_establish s :
  Inv s ->
  exists s', for_loop n body s = Ok s' /\ Inv s' /\ R s s'
             /\ forall k, k < n -> P k s'.
Proof.
  intros Hs. apply for_loop_from_establish; [lia|exact Hs|]. intros k Hk. lia.
Qed.
End Establish.

Section Scattered.
Import HopSpec.
Variable Nc : nat.
Variable Nhops : nat.
Variable gf : Lattice ColourMatrix.
Variable phases : list C.
Let L := layout gf.
Let nd := num_dims L.
Let H := Z.of_nat Nhops.
Hypothesis HL : layout_ok Nhops L.
Hypothesis Hgf : gauge_ok gf.
Hypothesis Hphases : nd <= length phases.

Local Abbreviation wf_state := (HopSpec.wf_state gf).
Local Abbreviation done := (HopSpec.done Nc Nhops gf phases).
Local Abbreviation outside := (HopSpec.outside gf).

Lemma outside_refl a st : outside a st st.
Proof. split; auto. Qed.

Lemma outside_trans a s1 s2 s3 :
  outside a s1 s2 -> outside a s2 s3 -> outside a s1 s3.
Proof.
  intros [D1 N1] [D2 N2]. split.
  - intros j Hj. now rewrite D2, D1.
  - intros a' Ha'. now rewrite N2, N1.
Qed.

Lemma site_coord s d :
  s < volume L -> d < nd ->
  exists ext c, shape L !! d = Some ext
                /\ compute_site_coords L s !! d = Some c
                /\ coord_of L s d = c.
Proof.
  intros Hs Hd.
  destruct (lookup_lt_is_Some_2 (shape L) d) as [ext Hext].
  { rewrite (shape_dims _ _ HL). exact Hd. }
  destruct (in_range_lookup L _ d ext (coords_in_range _ _ HL s Hs) Hext)
    as (c & Hc & _).
  exists ext, c. repeat split; auto. unfold coord_of. now rewrite Hc.
Qed.

Lemma scatter_axis_establishes s d st :
  s < volume L -> d < nd -> wf_state st ->
  exists st', scatter_axis Nc Nhops gf phases s d st = Ok st'
              /\ wf_state st' /\ done s d st'
              /\ outside (get_array_index L s) st st'
              /\ forall k, k < d -> done s k st -> done s k st'.
Proof.
  intros Hs Hd (Hlay & Hsz & Hlen & Hnb & Hrows).
  destruct st as [sc nb]. cbn [fst snd] in *.
  destruct (site_coord s d Hs Hd) as (ext & c & Hext & Hc & Hco).
  pose proof (array_index_lt _ _ HL s Hs) as Ha.
  unfold HopSpec.done, HopSpec.wf_state, HopSpec.outside. cbn zeta.
  unfold nd, L, H in *.
  destruct (lookup_lt_is_Some_2 nb (get_array_index (layout gf) s))
    as [row Hrow]; [lia|].
  pose proof (Hrows _ _ Hrow) as Hrl.
  destruct (scatter_axis_spec Nc Nhops gf s d ext c HL Hgf Hs Hd Hext Hc
              phases Hphases sc nb row Hlay Hsz Hlen Hrow Hrl)
    as (sc' & E & Hl' & Hz' & Hlen' & HB & HF & Hfr).
  unfold Lat.slot in HB, HF, Hfr. rewrite Hlay, Hsz in HB, HF, Hfr.
  eexists. split; [exact E|]. cbn [fst snd].
  split; [|split; [|split]].
  - repeat split; cbn [fst snd]; try congruence.
    + now rewrite length_insert.
    + intros a row'.
      destruct (decide (a = get_array_index (layout gf) s)) as [->|Hne].
      * rewrite list_lookup_insert_eq by lia. intros [= <-].
        now rewrite !length_insert.
      * rewrite list_lookup_insert_ne by congruence. apply Hrows.
  - rewrite Hco.
    split; [exact HB|]. split; [exact HF|].
    eexists. split; [apply list_lookup_insert_eq; lia|].
    split.
    + rewrite list_lookup_insert_ne by lia.
      apply list_lookup_insert_eq. lia.
    + apply list_lookup_insert_eq. rewrite length_insert. lia.
  - split; cbn [fst snd].
    + intros j Hj. apply Hfr; lia.
    + intros a' Ha'. apply list_lookup_insert_ne. congruence.
  - intros k Hk (HBk & HFk & rowk & Hrk & Hmk & Hpk). cbn [fst snd] in *.
    split; [rewrite Hfr by lia; exact HBk|].
    split; [rewrite Hfr by lia; exact HFk|].
    rewrite Hrow in Hrk. injection Hrk as <-.
    eexists. split; [apply list_lookup_insert_eq; lia|].
    rewrite !list_lookup_insert_ne by lia. split; assumption.
Qed.

Lemma scatter_site_establishes s st :
  s < volume L -> wf_state st ->
  exists st',
    for_loop nd (scatter_axis Nc Nhops gf phases s) st = Ok st'
    /\ wf_state st' /\ (forall d, d < nd -> done s d st')
    /\ True
    /\ forall k, k < s -> (forall d, d < nd -> done k d st) ->
                 forall d, d < nd -> done k d st'.
Proof.
  intros Hs Hst.
  destruct (for_loop_establish wf_state (done s)
              (outside (get_array_index L s))
              (scatter_axis Nc Nhops gf phases s) nd
              (outside_refl _) (outside_trans _)) with (s := st)
    as (st' & E & Hst' & [Hd Hn] & Hdone).
  { intros d st0 Hd Hst0. now apply scatter_axis_establishes. }
  { exact Hst. }
  exists st'. split; [exact E|]. split; [exact Hst'|].
  split; [exact Hdone|]. split; [exact I|].
  intros k Hk Hkd d Hdlt.
  destruct (Hkd d Hdlt) as (HB & HF & row & Hr & Hm & Hp).
  assert (Hne : get_array_index L k <> get_array_index L s).
  { intros E'. apply (array_index_inj _ _ HL) in E'; lia. }
  unfold HopSpec.done. cbn zeta. cbn zeta in Hd.
  unfold nd, L in *.
  rewrite !Hd by nia. split; [exact HB|]. split; [exact HF|].
  exists row. rewrite Hn by exact Hne. auto.
Qed.

Lemma scatter_all_establishes st :
  wf_state st ->
  exists st',
    for_loop (volume L)
             (fun s => for_loop nd (scatter_axis Nc Nhops gf phases s)) st
    = Ok st'
    /\ wf_state st'
    /\ forall s d, s < volume L -> d < nd -> done s d st'.
Proof.
  intros Hst.
  destruct (for_loop_establish wf_state
              (fun s st => forall d, d < nd -> done s d st)
              (fun _ _ => True)
              (fun s => for_loop nd (scatter_axis Nc Nhops gf phases s))
              (volume L) (fun _ => I) (fun _ _ _ _ _ => I)) with (s := st)
    as (st' & E & Hst' & _ & Hdone).
  { intros s st0 Hs Hst0. now apply scatter_site_establishes. }
  { exact Hst. }
  exists st'. split; [exact E|]. split; [exact Hst'|].
  intros s d Hs Hd. now apply Hdone.
Qed.

(** The constructor returns, and every entry holds what it is to hold. *)
Lemma HoppingMatrix_ctor_spec :
  exists hm,
    HoppingMatrix_ctor Nc Nhops gf phases = Ok hm
    /\ spin_structures_ hm = []
    /\ num_spins_ hm = 2 ^ (nd / 2)
    /\ wf_state (scattered_gauge_field_ hm, neighbour_array_indices_ hm)
    /\ forall s d, s < volume L -> d < nd ->
         done s d (scattered_gauge_field_ hm, neighbour_array_indices_ hm).
Proof.
  unfold HoppingMatrix_ctor. cbv zeta. fold L. fold nd.
  set (st0 := (Lat.fill L CM.zero (2 * nd),
               replicate (volume L) (replicate (nd * 2) 0))).
  destruct (scatter_all_establishes st0) as (st' & E & Hwf & Hdone).
  { unfold HopSpec.wf_state, st0. cbn zeta. cbn [fst snd]. fold L nd.
    unfold Lat.fill. cbn [layout site_size data].
    rewrite !length_replicate. repeat split.
    intros a row Hrow. apply lookup_replicate in Hrow as [-> _].
    apply length_replicate. }
  unfold mbind, outcome_bind. rewrite E. cbn [obind].
  destruct st' as [sc nb].
  eexists. split; [reflexivity|]. cbn [spin_structures_ num_spins_
    scattered_gauge_field_ neighbour_array_indices_].
  split; [reflexivity|]. split; [reflexivity|].
  split; [exact Hwf|exact Hdone].
Qed.
End Scattered.


(** ** The concrete lattices *)

Section InputFacts.
Import Inputs HopSpec.

Lemma grid_layout_ok : layout_ok 1 grid_layout.
Proof.
  split.
  - reflexivity.
  - repeat constructor; cbn; lia.
  - intros s Hs. unfold in_range.
    do 6 (destruct s as [|s];
          [cbv -[Z.le Z.lt];
           repeat (constructor; [lia|]); constructor|]).
    cbn in Hs. lia.
  - intros s Hs. exact Hs.
  - intros s s' _ _ E. exact E.
  - intros coords Hr. unfold in_range in Hr. cbn in Hr.
    inversion Hr as [|c0 n0 cs0 ns0 H0 Hr0]; subst.
    inversion Hr0 as [|c1 n1 cs1 ns1 H1 Hr1]; subst.
    inversion Hr1; subst. cbn. lia.
  - intros a _. reflexivity.
Qed.

Lemma grid_gauge_ok : gauge_ok grid_gauge.
Proof. split; reflexivity. Qed.

Lemma line_hopping_built :
  HoppingMatrix_ctor 3 1 line_gauge [C1] = Ok line_hopping.
Proof. vm_compute. reflexivity. Qed.

Lemma line_apply_full_zero :
  exists r, apply_full 3 line_hopping_spin line_zero line_ones = Ok r.
Proof. eexists. vm_compute. reflexivity. Qed.
End InputFacts.

(** ** Extraction and insertion at the position the lookup returns *)

Section RoundTrip.
Variable Nc : nat.

Lemma extract_su2_at U k i j :
  compute_su2_subgroup_pos (Z.of_nat Nc) k = Ok (i, j) ->
  in_matrix Nc i j = true ->
  extract_su2 Nc U k
  = Ok (let R := block U (Z.to_nat i) (Z.to_nat j) in
        SU2.add (SU2.sub R (SU2.adjoint R))
                (SU2.scale_r SU2.identity (Cconj (SU2.trace R)))).
Proof.
  intros Hp Hb. unfold extract_su2. rewrite Hp. cbn [obind].
  now rewrite Hb.
Qed.

Lemma insert_su2_block X k i j :
  compute_su2_subgroup_pos (Z.of_nat Nc) k = Ok (i, j) ->
  in_matrix Nc i j = true -> Z.to_nat i <> Z.to_nat j ->
  exists N, insert_su2 Nc X k = Ok N
            /\ block N (Z.to_nat i) (Z.to_nat j) = X.
Proof.
  intros Hp Hb Hne. unfold insert_su2. rewrite Hp. cbn [obind].
  rewrite Hb. eexists. split; [reflexivity|].
  destruct X as [a b c d]. unfold block, CM.set. cbn [m00 m01 m10 m11].
  rewrite !Nat.eqb_refl.
  rewrite (proj2 (Nat.eqb_neq _ _) Hne).
  rewrite (proj2 (Nat.eqb_neq _ _) (not_eq_sym Hne)).
  reflexivity.
Qed.

(** Where the lookup returns a pair inside the matrix, the normalised
    extract, inserted and cut out again, is itself. *)
Lemma extract_insert_round_trip U k i j :
  compute_su2_subgroup_pos (Z.of_nat Nc) k = Ok (i, j) ->
  in_matrix Nc i j = true -> Z.to_nat i <> Z.to_nat j ->
  exists E N,
    extract_su2 Nc U k = Ok E
    /\ insert_su2 Nc (SU2.div E (Csqrt (SU2.determinant E))) k = Ok N
    /\ block N (Z.to_nat i) (Z.to_nat j)
       = SU2.div E (Csqrt (SU2.determinant E)).
Proof.
  intros Hp Hb Hne.
  pose proof (extract_su2_at U k i j Hp Hb) as HE. cbv zeta in HE.
  set (E := SU2.add _ _) in HE. exists E.
  destruct (insert_su2_block
              (SU2.div E (Csqrt (SU2.determinant E))) k i j Hp Hb Hne)
    as (N & EN & HN).
  exists N. split; [exact HE|]. split; [exact EN|exact HN].
Qed.
End RoundTrip.


(** * The claims *)

Section Claims.
Import Inputs.

(** C1.  The claim: after [heatbath_update] every link of a field of
    SU(N) links is still unitary with unit determinant, for every action
    with positive beta.  The code at a concrete input: one link, the
    identity of SU(2), an action with beta = 1 whose staple is zero, one
    sweep.  The sweep returns, and the link it leaves is not unitary:
    the extracted matrix is divided by the square root of its zero
    determinant and the adjoint of the quotient is multiplied into the
    link. *)
Theorem heatbath_update_zero_staple_leaves_SUN :
  let run := heatbath_update unit low_rng double_epsilon 2 1
                             zero_staple_action 1 one_link_state in
  (forall l, l ∈ data (gauge_field unit one_link_state) ->
             CM.special_unitary2 l)
  /\ (0 < beta zero_staple_action)%R
  /\ fst run = Ok tt
  /\ exists l, data (gauge_field unit (snd run)) !! 0 = Some l
               /\ ~ CM.unitary 2 l.
Proof.
  cbv zeta. rewrite one_link_sweep. cbn [fst snd gauge_field].
  split; [|split; [|split]].
  - intros l Hl. cbn in Hl. apply list_elem_of_singleton in Hl. subst l.
    apply identity_special_unitary2.
  - cbn. lra.
  - reflexivity.
  - exists broken_link. split; [reflexivity|apply broken_link_not_unitary].
Qed.

(** C2.  The claim: when [a < 6 * epsilon] the step inserts the random
    matrix [X] itself and divides nothing by the square root of the
    determinant.  The code at a concrete input (identity link, zero
    staple, two colours, subgroup 0): the square root of the determinant
    is zero and [a < 6 * epsilon], the extracted matrix is divided by
    that root before the test, and the new link is not the one that
    inserting [X] gives. *)
Theorem su2_heatbath_update_degenerate_divides :
  exists (A X : SU2Matrix) (N L : ColourMatrix),
    extract_su2 2 (CM.mul 2 CM.identity CM.zero) 0 = Ok A
    /\ Csqrt (SU2.determinant A) = C0
    /\ (Cre (Csqrt (SU2.determinant A)) < 6 * double_epsilon)%R
    /\ random_su2 unit low_rng tt = (Ok X, tt)
    /\ insert_su2 2 X 0 = Ok N
    /\ su2_heatbath_update unit low_rng double_epsilon 2 1
                           CM.identity CM.zero 1 0 tt = (Ok L, tt)
    /\ L <> CM.mul 2 N CM.identity.
Proof.
  exists su2_zero, low_su2.
  eexists. exists broken_link.
  rewrite CM_mul_zero_r.
  rewrite (extract_su2_zero 2 0 0%Z 1%Z) by reflexivity.
  rewrite su2_zero_determinant, Csqrt_0.
  rewrite (su2_heatbath_update_zero_staple unit low_rng double_epsilon 2 1
             double_epsilon_pos _ _ _ 0%Z 1%Z) by reflexivity.
  repeat split.
  - pose proof double_epsilon_pos. cbn. lra.
  - intros E. apply (f_equal (fun m => m 0 0)) in E.
    rewrite broken_link_entries in E by lia.
    unfold CM.mul, CM.set, CM.identity, low_su2, construct_su2 in E.
    cbn in E. autorewrite with czero in E.
    unfold Cadd, Cmul, Ci, C0, C1, RtoC in E. cbn in E.
    injection E as E1 E2.
    replace (1 - 0 * 0)%R with 1%R in E2 by ring.
    rewrite sqrt_1 in E2. lra.
Qed.

(** C6.  The claim: for every [Nc >= 2] the lookup throws a range error
    exactly when [k >= Nc (Nc - 1) / 2].  The code tests [index < Nc]:
    with four colours the index 4 is below the number of subgroups, 6,
    and is refused; with two colours the index 1 is not below the number
    of subgroups, 1, and is accepted, and the pair it yields lies outside
    the matrix. *)
Theorem compute_su2_subgroup_pos_wrong_bound :
  (4 < num_subgroups 4)%Z
  /\ compute_su2_subgroup_pos 4 4 = Raise invalid_index
  /\ ~ (1 < num_subgroups 2)%Z
  /\ compute_su2_subgroup_pos 2 1 = Ok (2, 3)%Z.
Proof.
  split; [reflexivity|]. split; [reflexivity|].
  split; [|reflexivity]. cbv. discriminate.
Qed.

(** C7.  The claim: for every [Nc >= 2] and every
    [k < Nc (Nc - 1) / 2] the lookup returns the [k]-th pair in
    lexicographic order.  With three colours it does; with four colours
    the pair at place 4 is (1, 3) and the lookup throws instead. *)
Theorem compute_su2_subgroup_pos_misses_pair :
  map (compute_su2_subgroup_pos 3) [0; 1; 2]%Z
  = [Ok (0, 1); Ok (0, 2); Ok (1, 2)]%Z
  /\ (4 < num_subgroups 4)%Z
  /\ lex_pairs 4 !! 4 = Some (1, 3)%Z
  /\ compute_su2_subgroup_pos 4 4 = Raise invalid_index.
Proof. repeat split. Qed.

(** C9.  For every gauge field, action and valid link index,
    [heatbath_link_update] leaves the layout, the site size and the
    number of links as they were, and every link other than the one at
    (site, direction) of the index keeps its value, whatever the outcome
    of the update. *)
Theorem heatbath_link_update_frame
        (rng_state : Type)
        (generate_real : R -> R -> rng_state -> R * rng_state)
        (epsilon : R) (Nc fuel : nat)
        (action : GaugeAction) (link_index : nat)
        (s : hb_state rng_state) :
  link_index < Lat.size (gauge_field _ s) ->
  let U := gauge_field _ s in
  let U' := gauge_field _
              (snd (heatbath_link_update rng_state generate_real epsilon
                                         Nc fuel action link_index s)) in
  layout U' = layout U /\ site_size U' = site_size U
  /\ length (data U') = length (data U)
  /\ forall j,
       j <> Lat.slot U (link_index / site_size U)
                       (link_index mod site_size U) ->
       data U' !! j = data U !! j.
Proof.
  intros _. cbv zeta.
  exact (heatbath_link_update_same_but rng_state generate_real epsilon
                                       Nc fuel action link_index s).
Qed.

Lemma heatbath_link_update_frame_witness :
  0 < Lat.size (gauge_field _ two_link_state)
  /\ data (gauge_field _ two_link_state) !! 1 = Some CM.identity
  /\ data (gauge_field _
             (snd (heatbath_link_update unit low_rng double_epsilon 2 1
                     zero_staple_action 0 two_link_state))) !! 1
     = Some CM.identity.
Proof.
  assert (H : 0 < Lat.size (gauge_field _ two_link_state)) by (cbv; lia).
  split; [exact H|]. split; [reflexivity|].
  rewrite (proj2 (proj2 (proj2
             (heatbath_link_update_frame unit low_rng double_epsilon 2 1
                zero_staple_action 0 two_link_state H))) 1).
  - reflexivity.
  - cbv. lia.
Defined.
End Claims.


Section ClaimsCG.
Import Inputs Fermions.
Local Open Scope R_scope.

Lemma unit_source_nonzero : Cre (CG.dot 3 unit_source unit_source) <> 0.
Proof.
  unfold CG.dot, CG.vdot, unit_source, unit_colour, CM.vzero.
  cbn. unfold Cadd, Cmul, Cconj, C0, C1, RtoC. cbn. lra.
Qed.

Lemma test_tolerance_pos : 0 < / 10 ^ 10.
Proof. apply Rinv_0_lt_compat, pow_lt. lra. Qed.



End ClaimsCG.


Section ClaimsHopping.
Import Inputs HopSpec.

(** C4.  On a well-formed layout and link field, with a phase for every
    axis, the two-argument constructor returns, and for every site [s]
    and axis [d] with coordinate [c] along [d]: the forward slot
    [2 d + 1] holds the product of the [H] links in direction [d] from
    [s] on, started from [phase[d]] exactly when [c + H >= extent[d]]
    and from 1 otherwise; the backward slot [2 d] holds the product of
    the [H] links from [s - H e_d] on, started from [phase[d]] exactly
    when [c < H]; the neighbour table holds the array indices of the
    sites [H] steps forward and backward under periodic wrap. *)
Theorem HoppingMatrix_ctor_scatters
        (Nc Nhops : nat) (gf : Lattice ColourMatrix) (phases : list C) :
  layout_ok Nhops (layout gf) -> gauge_ok gf ->
  num_dims (layout gf) <= length phases ->
  exists hm,
    HoppingMatrix_ctor Nc Nhops gf phases = Ok hm
    /\ forall s d,
         s < volume (layout gf) -> d < num_dims (layout gf) ->
         let L := layout gf in
         let cs := compute_site_coords L s in
         let c := coord_of L s d in
         let H := Z.of_nat Nhops in
         let U := scattered_gauge_field_ hm in
         Lat.read U (Lat.slot U s (2 * d + 1))
         = Ok (line_product Nc Nhops gf cs d c
                 (if (extent_of L d <=? c + H)%Z
                  then phase_of phases d else C1))
         /\ Lat.read U (Lat.slot U s (2 * d))
            = Ok (line_product Nc Nhops gf cs d (c - H)%Z
                    (if (c <? H)%Z then phase_of phases d else C1))
         /\ exists row,
              neighbour_array_indices_ hm !! get_array_index L s = Some row
              /\ row !! (2 * d + 1)
                 = Some (get_array_index_of_coords L
                           (shift_coords L cs d (c + H)%Z))
              /\ row !! (2 * d)
                 = Some (get_array_index_of_coords L
                           (shift_coords L cs d (c - H)%Z)).
Proof.
  intros HL Hgf Hph.
  destruct (HoppingMatrix_ctor_spec Nc Nhops gf phases HL Hgf Hph)
    as (hm & E & _ & _ & Hwf & Hdone).
  exists hm. split; [exact E|]. intros s d Hs Hd. cbv zeta.
  destruct Hwf as (Hlay & Hsz & _). cbn [fst snd] in Hlay, Hsz.
  destruct (Hdone s d Hs Hd) as (HB & HF & row & Hrow & Hm & Hp).
  cbn [fst snd] in HB, HF, Hrow.
  unfold Lat.read, Lat.slot, oread. rewrite Hlay, Hsz.
  split; [|split].
  - rewrite HF. reflexivity.
  - rewrite HB. reflexivity.
  - exists row. auto.
Qed.

Lemma HoppingMatrix_ctor_scatters_witness :
  layout_ok 1 (layout grid_gauge) /\ gauge_ok grid_gauge
  /\ num_dims (layout grid_gauge) <= length grid_phases
  /\ exists hm, HoppingMatrix_ctor 3 1 grid_gauge grid_phases = Ok hm.
Proof.
  assert (H1 : layout_ok 1 (layout grid_gauge)) by exact grid_layout_ok.
  assert (H2 : gauge_ok grid_gauge) by exact grid_gauge_ok.
  assert (H3 : num_dims (layout grid_gauge) <= length grid_phases)
    by (cbn; lia).
  split; [exact H1|]. split; [exact H2|]. split; [exact H3|].
  destruct (HoppingMatrix_ctor_scatters 3 1 grid_gauge grid_phases H1 H2 H3)
    as (hm & E & _).
  exists hm. exact E.
Defined.

(** C10.  The hopping matrix that the two-argument constructor returns
    has no spin structures; on a lattice with a site and an axis,
    [apply_full] on it reads the sequence of spin structures outside its
    bounds, and so it does after [set_spin_structures] with fewer than
    [2 Nd] matrices. *)
Theorem apply_full_needs_set_spin_structures
        (Nc Nhops : nat) (gf : Lattice ColourMatrix) (phases : list C)
        (hm : HoppingMatrix)
        (fermion_out fermion_in : Lattice ColourVector) :
  HoppingMatrix_ctor Nc Nhops gf phases = Ok hm ->
  1 <= volume (layout fermion_in) ->
  spin_structures_ hm = []
  /\ (1 <= num_dims (layout fermion_in) ->
      apply_full Nc hm fermion_out fermion_in = OutOfBounds)
  /\ forall matrices,
       length matrices < 2 * num_dims (layout fermion_in) ->
       apply_full Nc (set_spin_structures hm matrices)
                  fermion_out fermion_in = OutOfBounds.
Proof.
  intros E Hvol. unfold HoppingMatrix_ctor in E. cbv zeta in E.
  unfold mbind, outcome_bind in E.
  destruct (for_loop _ _ _) as [[sc nb]| | |]; cbn [obind] in E;
    try discriminate.
  injection E as <-. cbn [spin_structures_].
  assert (Hpow : forall n, 1 <= 2 ^ n).
  { intros n. induction n as [|n IH]; cbn; lia. }
  split; [reflexivity|]. split.
  - intros Hnd. apply apply_full_needs_spin_structures;
      cbn [spin_structures_ num_spins_ length]; auto. lia.
  - intros matrices Hlen. apply apply_full_needs_spin_structures;
      cbn [set_spin_structures spin_structures_ num_spins_]; auto.
Qed.

Lemma apply_full_needs_set_spin_structures_witness :
  HoppingMatrix_ctor 3 1 line_gauge [C1] = Ok line_hopping
  /\ 1 <= volume (layout line_ones)
  /\ spin_structures_ line_hopping = []
  /\ apply_full 3 line_hopping line_zero line_ones = OutOfBounds.
Proof.
  assert (H1 : 1 <= volume (layout line_ones)) by (cbn; lia).
  split; [exact line_hopping_built|]. split; [exact H1|].
  destruct (apply_full_needs_set_spin_structures
              3 1 line_gauge [C1] line_hopping line_zero line_ones
              line_hopping_built H1) as (Hs & Ha & _).
  split; [exact Hs|]. apply Ha. cbn. lia.
Defined.
End ClaimsHopping.

Section ClaimsSubgroupMatrices.
(** C8.  The claim: for every colour matrix and in-range subgroup index
    [k], [extract_su2] returns [R - R† + I conj(tr R)] for the block at
    the pair of [k], and the normalised extract survives [insert_su2].
    With four colours the index 4 is in range, its pair is (1, 3), and
    both functions throw the range error of the position lookup. *)
Theorem extract_su2_refuses_in_range_index :
  (4 < num_subgroups 4)%Z
  /\ lex_pairs 4 !! 4 = Some (1, 3)%Z
  /\ extract_su2 4 CM.identity 4 = Raise invalid_index
  /\ insert_su2 4 SU2.identity 4 = Raise invalid_index.
Proof. repeat split. Qed.
End ClaimsSubgroupMatrices.


(** ** Matrices of the SU(2) shape *)

Section SU2Algebra.
Local Open Scope R_scope.

Lemma C_eq (z w : C) : fst z = fst w -> snd z = snd w -> z = w.
Proof. destruct z, w; cbn; congruence. Qed.

Lemma construct_su2_entries c0 c1 c2 c3 :
  construct_su2 (c0, c1, c2, c3)
  = mkSU2 (c0, c3) (c2, c1) (- c2, c1) (c0, - c3).
Proof.
  unfold construct_su2, SU2.add, SU2.scale, sigma0, sigma1, sigma2, sigma3,
    SU2.identity, Cadd, Cmul, Csub, RtoC, C0, C1, Ci; cbn.
  f_equal; apply C_eq; cbn; ring.
Qed.

Lemma construct_su2_shaped c0 c1 c2 c3 :
  su2_shaped (construct_su2 (c0, c1, c2, c3)).
Proof.
  rewrite construct_su2_entries.
  split; cbn; unfold Cconj, Csub, C0, RtoC; cbn; apply C_eq; cbn; ring.
Qed.

Lemma construct_su2_norm2 c0 c1 c2 c3 :
  su2_norm2 (construct_su2 (c0, c1, c2, c3))
  = c0 * c0 + c1 * c1 + c2 * c2 + c3 * c3.
Proof.
  rewrite construct_su2_entries. unfold su2_norm2, Cnorm2; cbn. ring.
Qed.

Lemma su2_shaped_determinant a :
  su2_shaped a -> SU2.determinant a = RtoC (su2_norm2 a).
Proof.
  intros [H1 H2]. unfold SU2.determinant, su2_norm2, Cnorm2.
  rewrite H1, H2.
  destruct (m00 a) as [p1 p2], (m01 a) as [q1 q2].
  unfold Csub, Cmul, Cconj, C0, RtoC; cbn. apply C_eq; cbn; ring.
Qed.

Lemma su2_shaped_adjoint_mul a :
  su2_shaped a ->
  SU2.mul (SU2.adjoint a) a = SU2.scale (RtoC (su2_norm2 a)) SU2.identity.
Proof.
  intros [H1 H2]. unfold SU2.mul, SU2.adjoint, SU2.scale, SU2.identity,
    su2_norm2, Cnorm2; cbn.
  rewrite H1, H2.
  destruct (m00 a) as [p1 p2], (m01 a) as [q1 q2].
  unfold Cadd, Csub, Cmul, Cconj, C0, C1, RtoC; cbn.
  f_equal; apply C_eq; cbn; ring.
Qed.

Lemma su2_unit_is_SU2 a : su2_unit a -> SU2.is_SU2 a.
Proof.
  intros [Hs Hn]. split.
  - rewrite su2_shaped_adjoint_mul by assumption. rewrite Hn.
    unfold SU2.scale, SU2.identity, Cmul, C0, C1, RtoC; cbn.
    f_equal; apply C_eq; cbn; ring.
  - rewrite su2_shaped_determinant by assumption. now rewrite Hn.
Qed.

Lemma su2_shaped_mul a b :
  su2_shaped a -> su2_shaped b -> su2_shaped (SU2.mul a b).
Proof.
  intros [A1 A2] [B1 B2]. unfold su2_shaped, SU2.mul; cbn.
  rewrite A1, A2, B1, B2.
  destruct (m00 a) as [p1 p2], (m01 a) as [q1 q2],
           (m00 b) as [r1 r2], (m01 b) as [s1 s2].
  unfold Cadd, Csub, Cmul, Cconj, C0, RtoC; cbn.
  split; apply C_eq; cbn; ring.
Qed.

Lemma su2_norm2_mul a b :
  su2_shaped a -> su2_shaped b ->
  su2_norm2 (SU2.mul a b) = su2_norm2 a * su2_norm2 b.
Proof.
  intros _ [B1 B2]. unfold su2_norm2, SU2.mul, Cnorm2; cbn.
  rewrite B1, B2.
  destruct (m00 a) as [p1 p2], (m01 a) as [q1 q2],
           (m00 b) as [r1 r2], (m01 b) as [s1 s2].
  unfold Cadd, Csub, Cmul, Cconj, C0, RtoC; cbn. ring.
Qed.

Lemma su2_unit_mul a b : su2_unit a -> su2_unit b -> su2_unit (SU2.mul a b).
Proof.
  intros [A1 A2] [B1 B2]. split; [now apply su2_shaped_mul |].
  rewrite su2_norm2_mul, A2, B2 by assumption. ring.
Qed.

Lemma su2_shaped_adjoint a : su2_shaped a -> su2_shaped (SU2.adjoint a).
Proof.
  intros [A1 A2]. unfold su2_shaped, SU2.adjoint; cbn.
  rewrite A1, A2.
  destruct (m00 a) as [p1 p2], (m01 a) as [q1 q2].
  unfold Csub, Cconj, C0, RtoC; cbn.
  split; apply C_eq; cbn; ring.
Qed.

Lemma su2_norm2_adjoint a :
  su2_shaped a -> su2_norm2 (SU2.adjoint a) = su2_norm2 a.
Proof.
  intros [A1 A2]. unfold su2_norm2, SU2.adjoint, Cnorm2; cbn.
  rewrite A2.
  destruct (m00 a) as [p1 p2], (m01 a) as [q1 q2].
  unfold Csub, Cconj, C0, RtoC; cbn. ring.
Qed.

Lemma su2_unit_adjoint a : su2_unit a -> su2_unit (SU2.adjoint a).
Proof.
  intros [A1 A2]. split; [now apply su2_shaped_adjoint |].
  now rewrite su2_norm2_adjoint.
Qed.

Lemma su2_norm2_nonneg a : 0 <= su2_norm2 a.
Proof.
  unfold su2_norm2, Cnorm2.
  destruct (m00 a) as [p1 p2], (m01 a) as [q1 q2]; cbn. nra.
Qed.

(** A point of the unit 3-sphere from its first coordinate and a
    direction. *)
Lemma sphere_norm c0 ct phi :
  -1 <= c0 <= 1 -> -1 <= ct <= 1 ->
  let m := sqrt (1 - c0 * c0) in
  let s := sqrt (1 - ct * ct) in
  c0 * c0 + (m * s * cos phi) * (m * s * cos phi)
  + (m * s * sin phi) * (m * s * sin phi) + (m * ct) * (m * ct) = 1.
Proof.
  intros H0 Ht m s.
  assert (Hm : m * m = 1 - c0 * c0) by (apply sqrt_sqrt; nra).
  assert (Hs : s * s = 1 - ct * ct) by (apply sqrt_sqrt; nra).
  pose proof (sin2_cos2 phi) as Hp. unfold Rsqr in Hp.
  replace (c0 * c0 + m * s * cos phi * (m * s * cos phi)
           + m * s * sin phi * (m * s * sin phi) + m * ct * (m * ct))
    with (c0 * c0 + (m * m) * ((s * s) * (sin phi * sin phi + cos phi * cos phi)
                               + ct * ct)) by ring.
  rewrite Hm, Hs, Hp. ring.
Qed.

Lemma Csqrt_nonneg x : 0 <= x -> Csqrt (RtoC x) = RtoC (sqrt x).
Proof.
  intros Hx. unfold Csqrt, Cabs, Cnorm2, RtoC; cbn.
  replace (x * x + 0 * 0) with (x * x) by ring.
  rewrite sqrt_square by assumption.
  destruct (Rle_dec 0 0) as [_ | n]; [| lra].
  apply C_eq; cbn.
  - f_equal. lra.
  - replace ((x - x) / 2) with 0 by lra. apply sqrt_0.
Qed.

Lemma Cdiv_real z s : s <> 0 -> Cdiv z (RtoC s) = (fst z / s, snd z / s).
Proof.
  intros Hs. unfold Cdiv, Cnorm2, RtoC; cbn. apply C_eq; cbn; field; lra.
Qed.

(** Dividing a matrix of the SU(2) shape by the root of its determinant
    gives an SU(2) matrix, unless the determinant vanishes. *)
Lemma normalise_shaped a :
  su2_shaped a -> 0 < su2_norm2 a ->
  su2_unit (SU2.div a (Csqrt (SU2.determinant a))).
Proof.
  intros Hs Hn. unfold su2_unit.
  rewrite su2_shaped_determinant by assumption.
  rewrite Csqrt_nonneg by lra.
  set (s := sqrt (su2_norm2 a)).
  assert (Hs0 : 0 < s) by (apply sqrt_lt_R0; assumption).
  assert (Hss : s * s = su2_norm2 a) by (apply sqrt_sqrt; lra).
  unfold SU2.div. rewrite !Cdiv_real by lra.
  destruct Hs as [H1 H2]. unfold su2_shaped, su2_norm2, Cnorm2 in *; cbn.
  rewrite H1, H2.
  destruct (m00 a) as [p1 p2], (m01 a) as [q1 q2].
  unfold Csub, Cconj, C0, RtoC in *; cbn in *.
  repeat split.
  - apply C_eq; cbn; field; lra.
  - apply C_eq; cbn; field; lra.
  - replace (p1 / s * (p1 / s) + p2 / s * (p2 / s)
             + (q1 / s * (q1 / s) + q2 / s * (q2 / s)))
      with ((p1 * p1 + p2 * p2 + (q1 * q1 + q2 * q2)) / (s * s))
      by (field; lra).
    rewrite Hss. field. lra.
Qed.
End SU2Algebra.

(** ** The random SU(2) matrices *)

Section Generators.
Local Open Scope R_scope.
Variable rng_state : Type.
Variable generate_real : R -> R -> rng_state -> R * rng_state.
Hypothesis Hrange : uniform_range generate_real.

(** The tail shared by [random_su2] and [gen_heatbath_su2]: a direction
    is drawn and the four coefficients are assembled. *)
Lemma direction_unit c0 ct phi :
  -1 <= c0 <= 1 -> -1 <= ct <= 1 ->
  su2_unit
    (construct_su2
       (c0,
        sqrt (1 - c0 * c0) * sqrt (1 - ct * ct) * cos phi,
        sqrt (1 - c0 * c0) * sqrt (1 - ct * ct) * sin phi,
        sqrt (1 - c0 * c0) * ct)).
Proof.
  intros H0 Ht. split.
  - apply construct_su2_shaped.
  - rewrite construct_su2_norm2.
    pose proof (sphere_norm c0 ct phi H0 Ht) as E. cbv zeta in E.
    etransitivity; [| exact E]. ring.
Qed.

Lemma random_su2_unit g :
  exists X, fst (random_su2 rng_state generate_real g) = Ok X
            /\ su2_unit X.
Proof.
  unfold random_su2.
  pose proof (Hrange 0 1 g ltac:(lra)) as H0.
  destruct (generate_real 0 1 g) as [c0 g1].
  pose proof (Hrange (-1) 1 g1 ltac:(lra)) as H1.
  destruct (generate_real (-1) 1 g1) as [ct g2].
  destruct (generate_real 0 (2 * PI) g2) as [phi g3].
  cbn in *. eexists; split; [reflexivity |].
  apply direction_unit; lra.
Qed.

Lemma ln_unit r : 0 < r <= 1 -> ln r <= 0.
Proof.
  intros [H0 [H1 | ->]]; [| rewrite ln_1; lra].
  rewrite <- ln_1. left. apply ln_increasing; assumption.
Qed.

Lemma lambda_nonneg w r0 c r2 :
  0 < w -> 0 < r0 <= 1 -> 0 < r2 <= 1 ->
  0 <= - 1 / (2 * w) * (ln r0 + c ^ 2 * ln r2).
Proof.
  intros Hw H0 H2.
  pose proof (ln_unit r0 H0) as L0. pose proof (ln_unit r2 H2) as L2.
  assert (Hc : 0 <= c ^ 2) by (apply pow2_ge_0).
  assert (Hp : c ^ 2 * ln r2 <= 0) by nra.
  assert (Hk : 0 < / (2 * w)) by (apply Rinv_0_lt_compat; lra).
  replace (- 1 / (2 * w) * (ln r0 + c ^ 2 * ln r2))
    with (/ (2 * w) * - (ln r0 + c ^ 2 * ln r2)) by (field; lra).
  apply Rmult_le_pos; lra.
Qed.

Lemma accept_loop_range w n : forall l u2 g l' g',
  0 < w -> 0 <= u2 -> (0 <= l \/ u2 > 1 - l) ->
  accept_loop rng_state generate_real n w l u2 g = (Ok l', g') ->
  0 <= l' <= 1.
Proof.
  induction n as [| n IH]; intros l u2 g l' g' Hw Hu Hl E; cbn in E.
  - discriminate.
  - destruct (Rgt_dec u2 (1 - l)) as [Hgt | Hle].
    + pose proof (Hrange 0 1 g ltac:(lra)) as B0.
      destruct (generate_real 0 1 g) as [u0 g0].
      pose proof (Hrange 0 1 g0 ltac:(lra)) as B1.
      destruct (generate_real 0 1 g0) as [u1 g1].
      pose proof (Hrange 0 1 g1 ltac:(lra)) as B2.
      destruct (generate_real 0 1 g1) as [u2' g2].
      pose proof (Hrange 0 1 g2 ltac:(lra)) as B3.
      destruct (generate_real 0 1 g2) as [u g3].
      cbn in *.
      eapply IH; [exact Hw | | | exact E].
      * apply pow2_ge_0.
      * left. apply lambda_nonneg; lra.
    + injection E as <- <-. destruct Hl as [Hl | Hl]; [| contradiction].
      lra.
Qed.

Variable fuel : nat.

Lemma gen_heatbath_su2_unit w g X g' :
  0 < w ->
  gen_heatbath_su2 rng_state generate_real fuel w g = (Ok X, g') ->
  su2_unit X.
Proof.
  intros Hw E. unfold gen_heatbath_su2 in E.
  pose proof (Hrange 0 1 g ltac:(lra)) as B0.
  destruct (generate_real 0 1 g) as [u g0]. cbn in B0.
  unfold St.bind in E.
  destruct (accept_loop rng_state generate_real fuel w 2 (u ^ 2) g0)
    as [[l | | |] g1] eqn:EA; try discriminate.
  apply accept_loop_range in EA; [| exact Hw | apply pow2_ge_0 |].
  2:{ right. pose proof (pow2_ge_0 u). lra. }
  pose proof (Hrange (-1) 1 g1 ltac:(lra)) as B1.
  destruct (generate_real (-1) 1 g1) as [ct g2].
  destruct (generate_real 0 (2 * PI) g2) as [phi g3].
  cbn in B1. injection E as <- <-.
  apply direction_unit; lra.
Qed.
End Generators.

Section HalfSphere.
Local Open Scope R_scope.
Variable rng_state : Type.
Variable generate_real : R -> R -> rng_state -> R * rng_state.
Hypothesis Hrange : uniform_range generate_real.

Lemma random_su2_trace g :
  exists X, fst (random_su2 rng_state generate_real g) = Ok X
            /\ 0 <= Cre (SU2.trace X) < 2 /\ Cim (SU2.trace X) = 0.
Proof.
  unfold random_su2.
  pose proof (Hrange 0 1 g ltac:(lra)) as H0.
  destruct (generate_real 0 1 g) as [c0 g1].
  destruct (generate_real (-1) 1 g1) as [ct g2].
  destruct (generate_real 0 (2 * PI) g2) as [phi g3].
  cbn in H0. eexists. split; [reflexivity |].
  rewrite construct_su2_entries.
  unfold SU2.trace, Cre, Cim, Cadd; cbn. split; lra.
Qed.
End HalfSphere.


(** ** Sums and products of colour matrices *)

Section Sums.
Local Open Scope R_scope.

Lemma Cmul_comm z w : Cmul z w = Cmul w z.
Proof. unfold Cmul. apply C_eq; cbn; ring. Qed.

Lemma Cmul_assoc x y z : Cmul (Cmul x y) z = Cmul x (Cmul y z).
Proof. unfold Cmul. apply C_eq; cbn; ring. Qed.

Lemma Cmul_add_l x y z : Cmul x (Cadd y z) = Cadd (Cmul x y) (Cmul x z).
Proof. unfold Cmul, Cadd. apply C_eq; cbn; ring. Qed.

Lemma Cmul_add_r x y z : Cmul (Cadd x y) z = Cadd (Cmul x z) (Cmul y z).
Proof. unfold Cmul, Cadd. apply C_eq; cbn; ring. Qed.

Lemma Cconj_add x y : Cconj (Cadd x y) = Cadd (Cconj x) (Cconj y).
Proof. unfold Cconj, Cadd. apply C_eq; cbn; ring. Qed.

Lemma Cconj_mul x y : Cconj (Cmul x y) = Cmul (Cconj x) (Cconj y).
Proof. unfold Cconj, Cmul. apply C_eq; cbn; ring. Qed.

Lemma Cconj_1 : Cconj C1 = C1.
Proof. unfold Cconj, C1, RtoC. apply C_eq; cbn; ring. Qed.

Lemma Cadd_swap a b c d :
  Cadd (Cadd a b) (Cadd c d) = Cadd (Cadd a c) (Cadd b d).
Proof. unfold Cadd. apply C_eq; cbn; ring. Qed.

Lemma csum_ext n f g :
  (forall k, (k < n)%nat -> f k = g k) -> CM.csum n f = CM.csum n g.
Proof.
  induction n as [| n IH]; intros H; cbn; [reflexivity |].
  rewrite IH by (intros; apply H; lia). now rewrite H by lia.
Qed.

Lemma csum_C0 n : CM.csum n (fun _ => C0) = C0.
Proof. induction n as [| n IH]; cbn; [| rewrite IH, Cadd_0_l]; reflexivity. Qed.

Lemma csum_add n f g :
  CM.csum n (fun k => Cadd (f k) (g k))
  = Cadd (CM.csum n f) (CM.csum n g).
Proof.
  induction n as [| n IH]; cbn.
  - now rewrite Cadd_0_l.
  - rewrite IH. apply Cadd_swap.
Qed.

Lemma csum_mul_l n z f :
  CM.csum n (fun k => Cmul z (f k)) = Cmul z (CM.csum n f).
Proof.
  induction n as [| n IH]; cbn.
  - now rewrite Cmul_0_r.
  - now rewrite IH, Cmul_add_l.
Qed.

Lemma csum_mul_r n z f :
  CM.csum n (fun k => Cmul (f k) z) = Cmul (CM.csum n f) z.
Proof.
  induction n as [| n IH]; cbn.
  - now rewrite Cmul_0_l.
  - now rewrite IH, Cmul_add_r.
Qed.

Lemma csum_conj n f :
  Cconj (CM.csum n f) = CM.csum n (fun k => Cconj (f k)).
Proof.
  induction n as [| n IH]; cbn.
  - apply Cconj_0.
  - now rewrite Cconj_add, IH.
Qed.

Lemma csum_exchange n m (f : nat -> nat -> C) :
  CM.csum n (fun a => CM.csum m (fun b => f a b))
  = CM.csum m (fun b => CM.csum n (fun a => f a b)).
Proof.
  induction n as [| n IH]; cbn.
  - now rewrite csum_C0.
  - now rewrite IH, csum_add.
Qed.

(** A sum whose terms vanish away from [r] is its term at [r]. *)
Lemma csum_single n r f :
  (r < n)%nat -> (forall k, (k < n)%nat -> k <> r -> f k = C0) ->
  CM.csum n f = f r.
Proof.
  induction n as [| n IH]; intros Hr H; [lia |]. cbn.
  destruct (decide (r = n)) as [-> | Hne].
  - rewrite (csum_ext n f (fun _ => C0)) by (intros; apply H; lia).
    now rewrite csum_C0, Cadd_0_l.
  - rewrite IH by (try lia; intros; apply H; lia).
    rewrite (H n) by lia. apply Cadd_0_r.
Qed.

(** A sum whose terms vanish away from [i] and [j] is the sum of
    these two terms. *)
Lemma csum_pair n i j f :
  (i < n)%nat -> (j < n)%nat -> i <> j ->
  (forall k, (k < n)%nat -> k <> i -> k <> j -> f k = C0) ->
  CM.csum n f = Cadd (f i) (f j).
Proof.
  intros Hi Hj Hij H.
  rewrite (csum_ext n f
             (fun k => Cadd (if Nat.eqb k i then f i else C0)
                            (if Nat.eqb k j then f j else C0))).
  - rewrite csum_add. f_equal.
    + rewrite (csum_single n i) by
        (try lia; intros k _ Hk; now apply Nat.eqb_neq in Hk as ->).
      now rewrite Nat.eqb_refl.
    + rewrite (csum_single n j) by
        (try lia; intros k _ Hk; now apply Nat.eqb_neq in Hk as ->).
      now rewrite Nat.eqb_refl.
  - intros k Hk.
    destruct (Nat.eqb_spec k i) as [Hki | Hki];
      destruct (Nat.eqb_spec k j) as [Hkj | Hkj]; try lia.
    + subst k. now rewrite Cadd_0_r.
    + subst k. now rewrite Cadd_0_l.
    + rewrite H by assumption. now rewrite Cadd_0_l.
Qed.
End Sums.

Section MatrixAlgebra.
Variable Nc : nat.

Lemma cm_identity_other r c : r <> c -> CM.identity r c = C0.
Proof. intros H. unfold CM.identity. now apply Nat.eqb_neq in H as ->. Qed.

Lemma cm_identity_same r : CM.identity r r = C1.
Proof. unfold CM.identity. now rewrite Nat.eqb_refl. Qed.

Lemma cm_mul_assoc a b c :
  CM.mul Nc (CM.mul Nc a b) c = CM.mul Nc a (CM.mul Nc b c).
Proof.
  extensionality r. extensionality s. unfold CM.mul.
  rewrite (csum_ext Nc _
             (fun k => CM.csum Nc (fun l => Cmul (a r l) (Cmul (b l k) (c k s))))).
  2:{ intros k _. rewrite <- csum_mul_r. apply csum_ext; intros l _.
      apply Cmul_assoc. }
  rewrite csum_exchange. apply csum_ext; intros l _.
  now rewrite csum_mul_l.
Qed.

Lemma cm_adjoint_mul a b :
  CM.adjoint (CM.mul Nc a b) = CM.mul Nc (CM.adjoint b) (CM.adjoint a).
Proof.
  extensionality r. extensionality s. unfold CM.adjoint, CM.mul.
  rewrite csum_conj. apply csum_ext; intros k _.
  rewrite Cconj_mul. apply Cmul_comm.
Qed.

Lemma cm_mul_meq a a' b b' :
  meq Nc a a' -> meq Nc b b' -> meq Nc (CM.mul Nc a b) (CM.mul Nc a' b').
Proof.
  intros Ha Hb r c Hr Hc. unfold CM.mul. apply csum_ext; intros k Hk.
  now rewrite Ha, Hb.
Qed.

Lemma meq_refl a : meq Nc a a.
Proof. now intros r c _ _. Qed.

Lemma meq_trans a b c : meq Nc a b -> meq Nc b c -> meq Nc a c.
Proof. intros H1 H2 r s Hr Hs. now rewrite H1, H2. Qed.

Lemma cm_mul_identity_l a : meq Nc (CM.mul Nc CM.identity a) a.
Proof.
  intros r c Hr Hc. unfold CM.mul.
  rewrite (csum_single Nc r) by
    (try assumption; intros k _ Hk; rewrite cm_identity_other by congruence;
     apply Cmul_0_l).
  rewrite cm_identity_same. apply Cmul_1_l.
Qed.

Lemma cm_mul_identity_r a : meq Nc (CM.mul Nc a CM.identity) a.
Proof.
  intros r c Hr Hc. unfold CM.mul.
  rewrite (csum_single Nc c) by
    (try assumption; intros k _ Hk; rewrite cm_identity_other by congruence;
     apply Cmul_0_r).
  rewrite cm_identity_same. apply Cmul_1_r.
Qed.

Lemma unitary_meq a : CM.unitary Nc a <-> meq Nc (CM.mul Nc (CM.adjoint a) a) CM.identity.
Proof. reflexivity. Qed.

Lemma unitary_identity : CM.unitary Nc CM.identity.
Proof.
  intros r c Hr Hc.
  replace (CM.adjoint CM.identity) with CM.identity.
  - now apply cm_mul_identity_l.
  - extensionality x. extensionality y. unfold CM.adjoint, CM.identity.
    rewrite (Nat.eqb_sym y x).
    destruct (Nat.eqb x y); [now rewrite Cconj_1 | now rewrite Cconj_0].
Qed.

(** The product of two unitary matrices is unitary. *)
Lemma unitary_mul a b :
  CM.unitary Nc a -> CM.unitary Nc b -> CM.unitary Nc (CM.mul Nc a b).
Proof.
  intros Ha Hb. apply unitary_meq.
  rewrite cm_adjoint_mul, cm_mul_assoc, <- (cm_mul_assoc (CM.adjoint a)).
  eapply meq_trans; [| exact Hb].
  apply cm_mul_meq; [apply meq_refl |].
  eapply meq_trans; [| apply cm_mul_identity_l].
  apply cm_mul_meq; [exact Ha | apply meq_refl].
Qed.

(** The identity times a phase of modulus one is unitary. *)
Lemma unitary_phase z :
  unit_modulus z -> CM.unitary Nc (CM.scale_r CM.identity z).
Proof.
  intros Hz r c Hr Hc. unfold CM.mul, CM.adjoint, CM.scale_r.
  rewrite (csum_single Nc r).
  - destruct (decide (r = c)) as [<- | Hne].
    + rewrite !cm_identity_same, Cmul_1_l.
      unfold unit_modulus, Cnorm2 in Hz. destruct z as [x y]; cbn in Hz.
      unfold Cmul, Cconj, C1, RtoC. apply C_eq; cbn; [| ring].
      rewrite <- Hz. ring.
    + rewrite (cm_identity_other r c) by assumption.
      now rewrite Cmul_0_l, Cmul_0_r.
  - assumption.
  - intros k _ Hk. rewrite cm_identity_other by assumption.
    now rewrite Cmul_0_l, Cconj_0, Cmul_0_l.
Qed.
End MatrixAlgebra.

(** ** What [insert_su2] builds and what [extract_su2] returns *)

Section Placed.
Variable Nc : nat.

Lemma insert_su2_at X k i j :
  compute_su2_subgroup_pos (Z.of_nat Nc) k = Ok (i, j) ->
  in_matrix Nc i j = true ->
  insert_su2 Nc X k = Ok (placed X (Z.to_nat i) (Z.to_nat j)).
Proof.
  intros Hp Hb. unfold insert_su2. rewrite Hp. cbn [obind].
  now rewrite Hb.
Qed.

Lemma placed_entry X i j r c :
  i <> j ->
  placed X i j r c
  = if Nat.eqb r i
    then (if Nat.eqb c i then m00 X
          else if Nat.eqb c j then m01 X else CM.identity r c)
    else if Nat.eqb r j
    then (if Nat.eqb c i then m10 X
          else if Nat.eqb c j then m11 X else CM.identity r c)
    else CM.identity r c.
Proof.
  intros Hij. unfold placed, CM.set.
  destruct (Nat.eqb_spec r i), (Nat.eqb_spec r j),
    (Nat.eqb_spec c i), (Nat.eqb_spec c j);
    cbn; try reflexivity; congruence.
Qed.

Lemma placed_outside X i j r c :
  i <> j -> (r <> i /\ r <> j) \/ (c <> i /\ c <> j) ->
  placed X i j r c = CM.identity r c.
Proof.
  intros Hij H. rewrite placed_entry by assumption.
  destruct (Nat.eqb_spec r i), (Nat.eqb_spec r j),
    (Nat.eqb_spec c i), (Nat.eqb_spec c j);
    try reflexivity; lia.
Qed.

Lemma placed_unitary X i j :
  i < Nc -> j < Nc -> i <> j ->
  SU2.mul (SU2.adjoint X) X = SU2.identity ->
  CM.unitary Nc (placed X i j).
Proof.
  intros Hi Hj Hij HX.
  pose proof (f_equal m00 HX) as E00. pose proof (f_equal m01 HX) as E01.
  pose proof (f_equal m10 HX) as E10. pose proof (f_equal m11 HX) as E11.
  cbn in E00, E01, E10, E11.
  intros r c Hr Hc. unfold CM.mul, CM.adjoint.
  destruct (decide (r <> i /\ r <> j)) as [Hro | Hri].
  - (* the column [r] of the matrix is a column of the identity *)
    rewrite (csum_single Nc r); [| assumption |].
    + rewrite !placed_outside by auto.
      now rewrite cm_identity_same, Cconj_1, Cmul_1_l.
    + intros k _ Hk. rewrite (placed_outside X i j k r) by auto.
      rewrite cm_identity_other by assumption.
      now rewrite Cconj_0, Cmul_0_l.
  - destruct (decide (c <> i /\ c <> j)) as [Hco | Hci].
    + rewrite (csum_single Nc c); [| assumption |].
      * rewrite !placed_outside by auto.
        rewrite cm_identity_same, Cmul_1_r.
        assert (c <> r) by lia.
        rewrite cm_identity_other by assumption.
        rewrite cm_identity_other by auto. apply Cconj_0.
      * intros k _ Hk. rewrite (placed_outside X i j k c) by auto.
        rewrite cm_identity_other by assumption. apply Cmul_0_r.
    + rewrite (csum_pair Nc i j); try assumption.
      * rewrite !placed_entry by assumption.
        rewrite !Nat.eqb_refl.
        rewrite (proj2 (Nat.eqb_neq j i)) by auto.
        unfold CM.identity.
        destruct (Nat.eqb_spec r i) as [-> | Hr1];
          destruct (Nat.eqb_spec c i) as [-> | Hc1];
          rewrite ?Nat.eqb_refl.
        -- exact E00.
        -- assert (c = j) as -> by lia. rewrite Nat.eqb_refl.
           rewrite (proj2 (Nat.eqb_neq i j)) by assumption. exact E01.
        -- assert (r = j) as -> by lia. rewrite Nat.eqb_refl.
           rewrite (proj2 (Nat.eqb_neq j i)) by auto. exact E10.
        -- assert (r = j) as -> by lia. assert (c = j) as -> by lia.
           rewrite !Nat.eqb_refl. exact E11.
      * intros k _ Hki Hkj.
        rewrite (placed_outside X i j k r) by auto.
        assert (k <> r) by lia.
        rewrite cm_identity_other by assumption.
        now rewrite Cconj_0, Cmul_0_l.
Qed.

(** What [extract_su2] returns has the SU(2) shape, whatever the colour
    matrix. *)
Lemma extract_su2_shaped U k E :
  extract_su2 Nc U k = Ok E -> su2_shaped E.
Proof.
  unfold extract_su2.
  destruct (compute_su2_subgroup_pos (Z.of_nat Nc) k) as [[i j] | | |];
    cbn [obind]; try discriminate.
  destruct (in_matrix Nc i j); [| discriminate].
  intros [= <-]. unfold su2_shaped, block, SU2.add, SU2.sub, SU2.adjoint,
    SU2.scale_r, SU2.identity, SU2.trace; cbn.
  destruct (U (Z.to_nat i) (Z.to_nat i)) as [a1 a2],
           (U (Z.to_nat i) (Z.to_nat j)) as [b1 b2],
           (U (Z.to_nat j) (Z.to_nat i)) as [c1 c2],
           (U (Z.to_nat j) (Z.to_nat j)) as [d1 d2].
  unfold Cadd, Csub, Cmul, Cconj, C0, C1, RtoC; cbn.
  split; apply C_eq; cbn; ring.
Qed.

(** Extraction undoes insertion up to the factor 2 on matrices of the
    SU(2) shape. *)
Lemma extract_placed X i j k :
  compute_su2_subgroup_pos (Z.of_nat Nc) k = Ok (i, j) ->
  in_matrix Nc i j = true -> Z.to_nat i <> Z.to_nat j ->
  su2_shaped X ->
  extract_su2 Nc (placed X (Z.to_nat i) (Z.to_nat j)) k
  = Ok (SU2.scale (RtoC 2) X).
Proof.
  intros Hp Hb Hne [H1 H2].
  rewrite (extract_su2_at Nc _ k i j Hp Hb). cbv zeta. f_equal.
  unfold block. rewrite !placed_entry by assumption.
  rewrite !Nat.eqb_refl.
  rewrite (proj2 (Nat.eqb_neq _ _) (not_eq_sym Hne)).
  destruct X as [p q r s]. cbn in H1, H2. subst r s.
  destruct p as [p1 p2], q as [q1 q2].
  unfold SU2.add, SU2.sub, SU2.adjoint, SU2.scale_r, SU2.scale,
    SU2.identity, SU2.trace; cbn.
  unfold Cadd, Csub, Cmul, Cconj, C0, C1, RtoC; cbn.
  f_equal; apply C_eq; cbn; ring.
Qed.
End Placed.


(** ** The SU(2) update keeps a link unitary *)

Section Update.
Local Open Scope R_scope.
Variable rng_state : Type.
Variable generate_real : R -> R -> rng_state -> R * rng_state.
Variable epsilon : R.
Variable Nc : nat.
Variable fuel : nat.
Hypothesis Hrange : uniform_range generate_real.
Hypothesis Nc_small : (Z.of_nat Nc < 2 ^ 31)%Z.

(** An index that the assertion accepts and that names a subgroup is
    looked up as a pair of distinct rows of the matrix. *)
Lemma lookup_valid (k : nat) :
  (Z.of_nat k < num_subgroups (Z.of_nat Nc))%Z -> (k < Nc)%nat ->
  exists i j,
    compute_su2_subgroup_pos (Z.of_nat Nc) (Z.of_nat k) = Ok (i, j)
    /\ in_matrix Nc i j = true
    /\ (Z.to_nat i < Nc)%nat /\ (Z.to_nat j < Nc)%nat
    /\ Z.to_nat i <> Z.to_nat j.
Proof.
  intros Hk HkN.
  destruct (compute_su2_subgroup_pos_lex Nc k Nc_small Hk HkN)
    as (i & j & E & _ & Hij & Hj).
  exists i, j. split; [exact E |].
  assert (Hi' : (Z.to_nat i < Nc)%nat) by lia.
  assert (Hj' : (Z.to_nat j < Nc)%nat) by lia.
  split.
  - unfold in_matrix.
    now rewrite (proj2 (Nat.ltb_lt _ _) Hi'), (proj2 (Nat.ltb_lt _ _) Hj').
  - repeat split; try assumption. lia.
Qed.

Lemma su2_heatbath_update_keeps_unitary
      link staple weight (k : nat) E g link' g' :
  (Z.of_nat k < num_subgroups (Z.of_nat Nc))%Z -> (k < Nc)%nat ->
  0 < weight ->
  CM.unitary Nc link ->
  extract_su2 Nc (CM.mul Nc link staple) (Z.of_nat k) = Ok E ->
  SU2.determinant E <> C0 ->
  su2_heatbath_update rng_state generate_real epsilon Nc fuel
                      link staple weight (Z.of_nat k) g = (Ok link', g') ->
  CM.unitary Nc link'.
Proof.
  intros Hk HkN Hw Hlink HE Hdet Hup.
  destruct (lookup_valid k Hk HkN) as (i & j & Hp & Hb & Hi & Hj & Hij).
  pose proof (extract_su2_shaped Nc _ _ _ HE) as Hshape.
  assert (Hn : 0 < su2_norm2 E).
  { destruct (su2_norm2_nonneg E) as [H | H]; [exact H |].
    exfalso. apply Hdet. rewrite su2_shaped_determinant by assumption.
    now rewrite <- H. }
  pose proof (normalise_shaped E Hshape Hn) as HA.
  unfold su2_heatbath_update in Hup.
  unfold mbind, stateful_bind, St.bind, St.lift, mret, stateful_ret,
    St.ret in Hup.
  rewrite HE in Hup.
  set (A := SU2.div E (Csqrt (SU2.determinant E))) in *.
  assert (HX : forall X, su2_unit X ->
             CM.unitary Nc
               (CM.mul Nc (placed (SU2.mul X (SU2.adjoint A))
                                  (Z.to_nat i) (Z.to_nat j)) link)).
  { intros X HXu. apply unitary_mul; [| exact Hlink].
    apply placed_unitary; try assumption.
    apply su2_unit_is_SU2. apply su2_unit_mul; [exact HXu |].
    now apply su2_unit_adjoint. }
  cbn beta iota in Hup.
  destruct (Rlt_dec (Cre (Csqrt (SU2.determinant E))) (6 * epsilon))
    as [Hsmall | Hbig].
  - destruct (random_su2_unit rng_state generate_real Hrange g)
      as (X & EX & HXu).
    destruct (random_su2 rng_state generate_real g) as [o g1].
    cbn in EX. subst o. rewrite (insert_su2_at Nc _ _ i j Hp Hb) in Hup.
    injection Hup as <- <-. now apply HX.
  - destruct (gen_heatbath_su2 rng_state generate_real fuel _ g)
      as [[X | | |] g1] eqn:EX; try discriminate.
    rewrite (insert_su2_at Nc _ _ i j Hp Hb) in Hup.
    injection Hup as <- <-. apply HX.
    eapply gen_heatbath_su2_unit; [exact Hrange | | exact EX].
    rewrite su2_shaped_determinant by assumption.
    rewrite Csqrt_nonneg by lra. cbn.
    apply Rmult_lt_0_compat; [| exact Hw].
    now apply sqrt_lt_R0.
Qed.
End Update.

(** ** [random_sun] *)

Section RandomSUN.
Variable rng_state : Type.
Variable generate_real : R -> R -> rng_state -> R * rng_state.
Variable Nc : nat.
Hypothesis Nc_small : (Z.of_nat Nc < 2 ^ 31)%Z.

(** One turn of the loop of [random_sun]. *)
Let turn (acc : stateful rng_state ColourMatrix) (subgroup : nat)
  : stateful rng_state ColourMatrix :=
  ret ← acc;
  rand_su2 ← random_su2 rng_state generate_real;
  N ← St.lift (insert_su2 Nc rand_su2 (Z.of_nat subgroup));
  mret (CM.mul Nc ret N).

Lemma random_sun_turns :
  random_sun rng_state generate_real Nc
  = fold_left turn (seq 0 (Z.to_nat (num_subgroups (Z.of_nat Nc))))
              (mret CM.identity).
Proof. reflexivity. Qed.

(** Once a turn has thrown, the later turns do nothing. *)
Lemma turns_raise l : forall acc g e,
  fst (acc g) = Raise e -> fst (fold_left turn l acc g) = Raise e.
Proof.
  induction l as [| k l IH]; intros acc g e H; cbn [fold_left];
    [exact H |].
  apply IH. unfold turn, mbind, stateful_bind, St.bind.
  destruct (acc g) as [o g1]. cbn in H. now subst o.
Qed.

(** The turns for indices that name a subgroup and pass the assertion
    all return; [Q] is any property of the product that the identity has
    and that a factor keeps. *)
Lemma turns_return (Q : ColourMatrix -> Prop) :
  Q CM.identity ->
  (forall U X g i j,
      Q U -> fst (random_su2 rng_state generate_real g) = Ok X ->
      i < Nc -> j < Nc -> i <> j -> Q (CM.mul Nc U (placed X i j))) ->
  forall m g,
    m <= Nc -> (Z.of_nat m <= num_subgroups (Z.of_nat Nc))%Z ->
    exists U, fst (fold_left turn (seq 0 m) (mret CM.identity) g) = Ok U
              /\ Q U.
Proof.
  intros Q1 Qstep. induction m as [| m IH]; intros g Hm Hn.
  - exists CM.identity. now split.
  - rewrite seq_S, fold_left_app. cbn [fold_left Nat.add].
    destruct (IH g ltac:(lia) ltac:(lia)) as (U & EU & HU).
    unfold turn at 1. unfold mbind, stateful_bind, St.bind.
    destruct (fold_left turn (seq 0 m) (mret CM.identity) g) as [o g1].
    cbn in EU. subst o.
    destruct (random_su2_returns rng_state generate_real g1)
      as (X & g2 & EX).
    rewrite EX. unfold St.lift.
    destruct (lookup_valid Nc Nc_small m ltac:(lia) ltac:(lia))
      as (i & j & Hp & Hb & Hi & Hj & Hij).
    rewrite (insert_su2_at Nc X _ i j Hp Hb).
    eexists. split; [reflexivity |].
    apply (Qstep U X g1); try assumption. now rewrite EX.
Qed.

Lemma num_subgroups_big :
  4 <= Nc -> (Z.of_nat Nc < num_subgroups (Z.of_nat Nc))%Z.
Proof.
  intros H. unfold num_subgroups.
  assert (Z.of_nat Nc + 1 <= (Z.of_nat Nc * (Z.of_nat Nc - 1)) / 2)%Z
    by (apply Z.div_le_lower_bound; [lia | nia]).
  lia.
Qed.

Lemma num_subgroups_small :
  Nc <= 3 -> (num_subgroups (Z.of_nat Nc) <= Z.of_nat Nc)%Z.
Proof.
  unfold num_subgroups. generalize Nc.
  intros [| [| [| [| n]]]] H; try lia; vm_compute; discriminate.
Qed.

Lemma insert_su2_raises X :
  insert_su2 Nc X (Z.of_nat Nc) = Raise invalid_index.
Proof.
  unfold insert_su2.
  destruct (compute_su2_subgroup_pos_raises (Z.of_nat Nc) (Z.of_nat Nc))
    as [[_ H] _]; try lia.
  now rewrite H by lia.
Qed.

Lemma random_sun_raises g :
  4 <= Nc ->
  fst (random_sun rng_state generate_real Nc g) = Raise invalid_index.
Proof.
  intros H4. rewrite random_sun_turns.
  pose proof (num_subgroups_big H4) as Hbig.
  set (n := Z.to_nat (num_subgroups (Z.of_nat Nc))).
  replace n with (Nc + S (n - Nc - 1)) by lia.
  rewrite seq_app, fold_left_app. cbn [seq fold_left Nat.add].
  apply turns_raise.
  destruct (turns_return (fun _ => True) I ltac:(auto) Nc g
                         ltac:(lia) ltac:(lia)) as (U & EU & _).
  unfold turn at 1. unfold mbind, stateful_bind, St.bind.
  destruct (fold_left turn (seq 0 Nc) (mret CM.identity) g) as [o g1].
  cbn in EU. subst o.
  destruct (random_su2_returns rng_state generate_real g1)
    as (X & g2 & EX).
  rewrite EX. unfold St.lift. now rewrite insert_su2_raises.
Qed.

Hypothesis Hrange : uniform_range generate_real.

Lemma random_sun_unitary g :
  Nc <= 3 ->
  exists U, fst (random_sun rng_state generate_real Nc g) = Ok U
            /\ CM.unitary Nc U.
Proof.
  intros H3. rewrite random_sun_turns.
  pose proof (num_subgroups_small H3) as Hn.
  assert (0 <= num_subgroups (Z.of_nat Nc))%Z.
  { unfold num_subgroups. apply Z.div_pos; [nia | lia]. }
  apply turns_return; try lia.
  - apply unitary_identity.
  - intros U X g0 i j HU EX Hi Hj Hij.
    apply unitary_mul; [exact HU |].
    apply placed_unitary; try assumption.
    apply su2_unit_is_SU2.
    destruct (random_su2_unit rng_state generate_real Hrange g0)
      as (X' & EX' & HX').
    congruence.
Qed.
End RandomSUN.

(** ** Sweeps *)

Section StLoops.
Context {S : Type}.

Lemma st_for_loop_from_fails (body : nat -> stateful S unit) k :
  (forall s, st_fails (body k) s) ->
  forall n i s, i <= k < i + n -> st_fails (St.for_loop_from i n body) s.
Proof.
  intros Hk. induction n as [| n IH]; intros i s Hi; [lia |].
  cbn [St.for_loop_from]. unfold St.bind. intros a.
  destruct (decide (i = k)) as [-> | Hne].
  - specialize (Hk s). unfold st_fails in Hk.
    destruct (body k s) as [[[] | | |] s']; cbn in *; try discriminate.
    exfalso. now apply (Hk tt).
  - destruct (body i s) as [[[] | | |] s']; cbn; try discriminate.
    apply IH. lia.
Qed.

Lemma st_for_loop_fails (body : nat -> stateful S unit) k n s :
  (forall s, st_fails (body k) s) -> k < n ->
  st_fails (St.for_loop n body) s.
Proof. intros Hk Hn. apply (st_for_loop_from_fails body k Hk). lia. Qed.
End StLoops.

Section Sweep.
Variable rng_state : Type.
Variable generate_real : R -> R -> rng_state -> R * rng_state.
Variable epsilon : R.
Variable Nc : nat.
Variable fuel : nat.

Let state := hb_state rng_state.

Lemma same_shape_refl (s : state) : same_shape s s.
Proof. repeat split. Qed.

Lemma same_shape_trans (s1 s2 s3 : state) :
  same_shape s1 s2 -> same_shape s2 s3 -> same_shape s1 s3.
Proof.
  intros (A1 & A2 & A3) (B1 & B2 & B3).
  repeat split; congruence.
Qed.

Lemma heatbath_link_update_same_shape action link_index :
  preserves (@same_shape rng_state)
    (heatbath_link_update rng_state generate_real epsilon Nc fuel
                          action link_index).
Proof.
  intros s.
  destruct (heatbath_link_update_same_but rng_state generate_real epsilon
              Nc fuel action link_index s) as (H1 & H2 & H3 & _).
  now repeat split.
Qed.

Lemma heatbath_update_same_shape action num_iter :
  preserves (@same_shape rng_state)
    (heatbath_update rng_state generate_real epsilon Nc fuel
                     action num_iter).
Proof.
  intros s. unfold heatbath_update. cbv zeta.
  apply (preserves_for_loop _ same_shape_refl same_shape_trans).
  intros _.
  apply (preserves_for_loop _ same_shape_refl same_shape_trans).
  intros link. apply heatbath_link_update_same_shape.
Qed.

Hypothesis Nc_small : (Z.of_nat Nc < 2 ^ 31)%Z.

Lemma su2_heatbath_update_raises link staple weight g :
  su2_heatbath_update rng_state generate_real epsilon Nc fuel
                      link staple weight (Z.of_nat Nc) g
  = (Raise invalid_index, g).
Proof.
  unfold su2_heatbath_update, mbind, stateful_bind, St.bind, St.lift.
  cbv zeta. unfold extract_su2.
  destruct (compute_su2_subgroup_pos_raises (Z.of_nat Nc) (Z.of_nat Nc))
    as [[_ H] _]; try lia.
  now rewrite H by lia.
Qed.

(** With four colours or more the loop over the subgroups reaches the
    index [Nc], which the assertion refuses: no link update returns. *)
Lemma heatbath_link_update_fails action link_index s :
  4 <= Nc ->
  st_fails (heatbath_link_update rng_state generate_real epsilon Nc fuel
                                 action link_index) s.
Proof.
  intros H4 a. unfold heatbath_link_update. cbv zeta.
  unfold mbind, stateful_bind. unfold St.bind at 1.
  destruct (read_link rng_state _ s) as [[l | | |] s']; cbn [fst];
    try discriminate.
  apply (st_for_loop_fails _ Nc).
  - intros s0 a0. unfold St.bind, read_link.
    destruct (Lat.read (gauge_field _ s0) _) as [l0 | | |]; cbn [fst];
      try discriminate.
    unfold with_rng. rewrite su2_heatbath_update_raises. cbn. discriminate.
  - pose proof (num_subgroups_big Nc Nc_small H4). lia.
Qed.
End Sweep.


(** ** The phases of a fermion action *)

Section Phases.
Local Open Scope R_scope.
Import Fermions.

(** The phase the constructor of [Action] computes for one angle. *)
Lemma phase_value pi_angle :
  Cexp (Cmul (Cmul Ci (RtoC pi_angle)) (RtoC (2 * PI)))
  = (cos (pi_angle * (2 * PI)), sin (pi_angle * (2 * PI))).
Proof.
  unfold Cexp, Cmul, Ci, RtoC; cbn.
  replace (((0 * pi_angle - 1 * 0) * (2 * PI)
            - (0 * 0 + 1 * pi_angle) * 0)) with 0 by ring.
  replace ((0 * pi_angle - 1 * 0) * 0
           + (0 * 0 + 1 * pi_angle) * (2 * PI))
    with (pi_angle * (2 * PI)) by ring.
  rewrite exp_0. apply C_eq; cbn; ring.
Qed.

Lemma Action_phases_lookup pi_frac k :
  Action_phases pi_frac !! k
  = (fun a => (cos (a * (2 * PI)), sin (a * (2 * PI)))) <$> pi_frac !! k.
Proof.
  unfold Action_phases. rewrite list_lookup_fmap.
  destruct (pi_frac !! k) as [a |]; cbn; [| reflexivity].
  now rewrite phase_value.
Qed.

Lemma Action_phases_unit pi_frac :
  length (Action_phases pi_frac) = length pi_frac
  /\ Forall unit_modulus (Action_phases pi_frac).
Proof.
  split; [apply length_map |].
  unfold Action_phases. apply Forall_map, Forall_forall. intros a _.
  cbn. rewrite phase_value. unfold unit_modulus, Cnorm2; cbn.
  pose proof (sin2_cos2 (a * (2 * PI))) as H. unfold Rsqr in H. lra.
Qed.

(** Whole turns do not change a phase. *)
Lemma Action_phases_period pi_frac (turns : nat) :
  Action_phases (map (fun a => a + INR turns) pi_frac)
  = Action_phases pi_frac.
Proof.
  unfold Action_phases. rewrite map_map. apply map_ext. intros a.
  rewrite !phase_value.
  replace ((a + INR turns) * (2 * PI))
    with (a * (2 * PI) + 2 * INR turns * PI) by ring.
  now rewrite cos_period, sin_period.
Qed.
End Phases.


(** ** [apply_full]: shape, bounds, termination, linearity *)

Section ApplyFullShape.
Variable Nc : nat.

Lemma add_assign_shape out s i p s' :
  same_field_shape out s -> add_assign s i p = Ok s' ->
  same_field_shape out s'.
Proof.
  unfold same_field_shape, add_assign, Lat.read, Lat.write, oread, owrite,
    mbind, outcome_bind.
  intros (H1 & H2 & H3). destruct (data s !! i); cbn; [| discriminate].
  destruct (decide _); cbn; [| discriminate].
  intros [= <-]. cbn. now rewrite length_insert.
Qed.

Lemma scatter_step_shape hm pre nd a mu np nm al out s s' :
  same_field_shape out s ->
  scatter_step hm pre nd a mu np nm al s = Ok s' -> same_field_shape out s'.
Proof.
  intros H. unfold scatter_step, mbind, outcome_bind. cbv zeta.
  destruct (Lat.read pre _) as [p | | |]; cbn [obind]; try discriminate.
  destruct (add_assign s _ p) as [s1 | | |] eqn:E1; cbn [obind];
    try discriminate.
  destruct (Lat.read pre _) as [p' | | |]; cbn [obind]; try discriminate.
  apply add_assign_shape. eapply add_assign_shape; eauto.
Qed.

Lemma scatter_shape hm pre nd vol out s s' :
  same_field_shape out s -> scatter hm pre nd vol s = Ok s' ->
  same_field_shape out s'.
Proof.
  intros H. unfold scatter, for_loop.
  apply (for_loop_from_inv (same_field_shape out)); [| exact H].
  intros a s1 s1' H1.
  apply (for_loop_from_inv (same_field_shape out)); [| exact H1].
  intros mu s2 s2' H2. unfold mbind, outcome_bind.
  destruct (oread _ a) as [row | | |]; cbn [obind]; try discriminate.
  destruct (oread row _) as [np | | |]; cbn [obind]; try discriminate.
  destruct (oread row _) as [nm | | |]; cbn [obind]; try discriminate.
  apply (for_loop_from_inv (same_field_shape out)); [| exact H2].
  intros al s3 s3' H3. now apply scatter_step_shape.
Qed.

Lemma apply_full_shape hm out fin :
  match apply_full Nc hm out fin with
  | Ok r => same_field_shape out r
  | OutOfBounds => True
  | Raise _ | OutOfFuel => False
  end.
Proof.
  pose proof (apply_full_no_throw Nc hm out fin) as Hn.
  destruct (apply_full Nc hm out fin) as [r | | |] eqn:E; try exact Hn.
  unfold apply_full, mbind, outcome_bind in E. cbv zeta in E.
  destruct (gather Nc hm fin) as [pre | | |]; cbn [obind] in E;
    try discriminate.
  eapply scatter_shape; [| exact E]. repeat split.
Qed.

(** [apply_full] reads [fermion_in] at [ndims * arr_index + beta]: the
    field has to reach that far. *)
Lemma gather_step_reads_in hm fin nd a mu al be pre :
  length (data fin) <= nd * a + be ->
  fails (gather_step Nc hm fin nd a mu al be pre).
Proof.
  intros H. unfold gather_step, mbind, outcome_bind. cbv zeta.
  assert (E : Lat.read fin (nd * a + be) = OutOfBounds).
  { unfold Lat.read, oread. now rewrite lookup_ge_None_2. }
  rewrite E.
  do 3 (apply fails_bind_r; intros). cbn [obind]. intros x; discriminate.
Qed.

Lemma apply_full_reads_in hm fout fin :
  let nd := num_dims (layout fin) in
  let vol := volume (layout fin) in
  1 <= vol -> 1 <= nd -> 1 <= num_spins_ hm ->
  length (data fin) <= nd * (vol - 1) + (num_spins_ hm - 1) ->
  apply_full Nc hm fout fin = OutOfBounds.
Proof.
  intros nd vol Hvol Hnd Hns Hlen.
  apply fails_no_throw; [| apply apply_full_no_throw].
  unfold apply_full, mbind, outcome_bind. cbv zeta.
  apply fails_bind_l. unfold gather.
  apply (for_loop_fails _ (vol - 1)); [unfold vol in *; lia |]. intros pre.
  apply (for_loop_fails _ 0); [unfold nd in *; lia |]. intros pre1.
  apply (for_loop_fails _ 0); [lia |]. intros pre2.
  apply (for_loop_fails _ (num_spins_ hm - 1)); [lia |]. intros pre3.
  apply gather_step_reads_in. exact Hlen.
Qed.
End ApplyFullShape.

Section Returns.
Variable Nc : nat.

Lemma for_loop_returns {S} (Inv : S -> Prop) (body : nat -> S -> outcome S)
      n s :
  (forall j s, j < n -> Inv s -> exists s', body j s = Ok s' /\ Inv s') ->
  Inv s -> exists s', for_loop n body s = Ok s' /\ Inv s'.
Proof.
  intros Hb Hs.
  destruct (for_loop_establish Inv (fun _ _ => True) (fun _ _ => True)
              body n (fun _ => I) (fun _ _ _ _ _ => I)) with (s := s)
    as (s' & E & Hs' & _); [| exact Hs | eauto].
  intros j s0 Hj H0. destruct (Hb j s0 Hj H0) as (s1 & E1 & H1).
  exists s1. repeat split; auto.
Qed.

Lemma lat_read_returns {T} (lat : Lattice T) i :
  i < length (data lat) -> exists x, Lat.read lat i = Ok x.
Proof.
  intros H. destruct (lookup_lt_is_Some_2 _ _ H) as [x Hx].
  exists x. now apply oread_ok.
Qed.

Lemma add_assign_returns lat i v :
  i < length (data lat) ->
  exists lat', add_assign lat i v = Ok lat'
               /\ same_field_shape lat lat'.
Proof.
  intros H. destruct (lat_read_returns lat i H) as [x Hx].
  unfold add_assign, mbind, outcome_bind. rewrite Hx. cbn [obind].
  rewrite lat_write_ok by exact H. eexists. split; [reflexivity |].
  unfold same_field_shape, Lat.with_data; cbn.
  now rewrite length_insert.
Qed.

Variable hm : HoppingMatrix.
Variables fermion_out fermion_in : Lattice ColourVector.
Hypothesis Hfits : fits hm fermion_out fermion_in.
Let nd := num_dims (layout fermion_in).
Let vol := volume (layout fermion_in).
Let ns := num_spins_ hm.

Lemma gather_index_lt a mu al :
  a < vol -> mu < nd -> al < ns ->
  ns * (2 * (nd * a + mu)) + 2 * al + 1 < vol * (nd * ns * 2).
Proof.
  intros Ha Hmu Hal.
  assert (nd * a + mu + 1 <= nd * vol) by nia.
  assert (ns * (2 * (nd * a + mu + 1)) <= ns * (2 * (nd * vol)))
    by (apply Nat.mul_le_mono_l; lia).
  nia.
Qed.

Lemma gather_step_returns a mu al be pre :
  a < vol -> mu < nd -> al < ns -> be < ns ->
  length (data pre) = vol * (nd * ns * 2) ->
  exists pre', gather_step Nc hm fermion_in nd a mu al be pre = Ok pre'
               /\ length (data pre') = vol * (nd * ns * 2).
Proof.
  intros Ha Hmu Hal Hbe Hpre.
  pose proof (gather_index_lt a mu al Ha Hmu Hal) as Hidx.
  assert (Hloc : 2 * (nd * a + mu) + 1 < 2 * (nd * vol)) by nia.
  pose proof (fits_links _ _ _ Hfits) as Hlinks. fold nd vol in Hlinks.
  unfold gather_step, mbind, outcome_bind. cbv zeta. fold ns.
  destruct (fits_spin _ _ _ Hfits (2 * mu) al be) as (s0 & z0 & S0 & Z0);
    [fold nd; lia | exact Hal | exact Hbe |].
  destruct (fits_spin _ _ _ Hfits (2 * mu + 1) al be)
    as (s1 & z1 & S1 & Z1); [fold nd; lia | exact Hal | exact Hbe |].
  rewrite (oread_ok _ _ _ S0). cbn [obind]. rewrite Z0. cbn [obind].
  destruct (lat_read_returns (scattered_gauge_field_ hm)
                             (2 * (nd * a + mu)) ltac:(lia)) as [u0 U0].
  destruct (lat_read_returns (scattered_gauge_field_ hm)
                             (2 * (nd * a + mu) + 1) ltac:(lia)) as [u1 U1].
  rewrite U0. cbn [obind].
  destruct (lat_read_returns fermion_in (nd * a + be)) as [psi P].
  { apply (fits_in _ _ _ Hfits); assumption. }
  rewrite P. cbn [obind].
  destruct (add_assign_returns pre (ns * (2 * (nd * a + mu)) + 2 * al)
              (CM.mulv Nc (CM.scale z0 u0) psi)) as (p1 & E1 & _ & _ & L1);
    [lia |].
  rewrite E1. cbn [obind].
  rewrite (oread_ok _ _ _ S1). cbn [obind]. rewrite Z1. cbn [obind].
  rewrite U1. cbn [obind].
  destruct (add_assign_returns p1 (ns * (2 * (nd * a + mu)) + 2 * al + 1)
              (CM.mulv Nc (CM.scale z1 (CM.adjoint u1)) psi))
    as (p2 & E2 & _ & _ & L2); [lia |].
  rewrite E2. exists p2. split; [reflexivity | lia].
Qed.

Lemma gather_returns :
  exists pre, gather Nc hm fermion_in = Ok pre
              /\ length (data pre) = vol * (nd * ns * 2).
Proof.
  unfold gather. cbv zeta. fold nd vol ns.
  apply (for_loop_returns (fun pre => length (data pre) = vol * (nd * ns * 2))).
  - intros a pre Ha Hpre. apply for_loop_returns; [| exact Hpre].
    intros mu pre1 Hmu Hpre1. apply for_loop_returns; [| exact Hpre1].
    intros al pre2 Hal Hpre2. apply for_loop_returns; [| exact Hpre2].
    intros be pre3 Hbe Hpre3. now apply gather_step_returns.
  - unfold Lat.fill. cbn [data]. now rewrite length_replicate.
Qed.

Lemma scatter_step_returns pre a mu np nm al out :
  a < vol -> mu < nd -> al < ns ->
  length (data pre) = vol * (nd * ns * 2) ->
  ns * np + ns <= length (data out) ->
  ns * nm + ns <= length (data out) ->
  exists out', scatter_step hm pre nd a mu np nm al out = Ok out'
               /\ same_field_shape out out'.
Proof.
  intros Ha Hmu Hal Hpre Hp Hm.
  pose proof (gather_index_lt a mu al Ha Hmu Hal) as Hidx.
  unfold scatter_step, mbind, outcome_bind. cbv zeta. fold ns.
  destruct (lat_read_returns pre (2 * (ns * (nd * a + mu) + al))
                             ltac:(nia)) as [p0 P0].
  destruct (lat_read_returns pre (2 * (ns * (nd * a + mu) + al) + 1)
                             ltac:(nia)) as [p1 P1].
  rewrite P0. cbn [obind].
  destruct (add_assign_returns out (ns * np + al) p0)
    as (o1 & E1 & A1 & A2 & A3); [lia |].
  rewrite E1. cbn [obind]. rewrite P1. cbn [obind].
  destruct (add_assign_returns o1 (ns * nm + al) p1)
    as (o2 & E2 & B1 & B2 & B3); [lia |].
  rewrite E2. exists o2. split; [reflexivity |].
  repeat split; congruence.
Qed.

Lemma scatter_returns pre :
  length (data pre) = vol * (nd * ns * 2) ->
  exists r, scatter hm pre nd vol fermion_out = Ok r
            /\ same_field_shape fermion_out r.
Proof.
  intros Hpre. unfold scatter.
  apply (for_loop_returns (same_field_shape fermion_out));
    [| repeat split].
  intros a out Ha Hout. apply for_loop_returns; [| exact Hout].
  intros mu out1 Hmu Hout1. unfold mbind, outcome_bind.
  destruct (fits_out _ _ _ Hfits a (2 * mu))
    as (row & np & Hrow & Hnp & Bp); [exact Ha | fold nd; lia |].
  destruct (fits_out _ _ _ Hfits a (2 * mu + 1))
    as (row' & nm & Hrow' & Hnm & Bm); [exact Ha | fold nd; lia |].
  assert (row' = row) as -> by congruence.
  rewrite (oread_ok _ _ _ Hrow). cbn [obind].
  rewrite (oread_ok _ _ _ Hnp). cbn [obind].
  rewrite (oread_ok _ _ _ Hnm). cbn [obind].
  apply for_loop_returns; [| exact Hout1].
  intros al out2 Hal (Q1 & Q2 & Q3). fold ns in Bp, Bm.
  destruct (scatter_step_returns pre a mu np nm al out2)
    as (o & E & R1 & R2 & R3); try assumption; try lia.
  exists o. split; [exact E |]. repeat split; congruence.
Qed.

Lemma apply_full_returns :
  exists r, apply_full Nc hm fermion_out fermion_in = Ok r
            /\ same_field_shape fermion_out r.
Proof.
  unfold apply_full, mbind, outcome_bind. cbv zeta.
  destruct gather_returns as (pre & E & Hpre). rewrite E. cbn [obind].
  now apply scatter_returns.
Qed.
End Returns.

Section TwoRuns.
Context {S : Type}.

(** Three runs of a loop side by side: where the first two return, the
    third, started from their combination, returns the combination of
    their results. *)
Lemma for_loop_from_combine (comb : S -> S -> S) (Inv : S -> S -> Prop)
      (bx by' bc : nat -> S -> outcome S) :
  (forall j sx sy sx' sy',
      Inv sx sy -> bx j sx = Ok sx' -> by' j sy = Ok sy' ->
      bc j (comb sx sy) = Ok (comb sx' sy') /\ Inv sx' sy') ->
  forall n i sx sy sx' sy',
    Inv sx sy ->
    for_loop_from i n bx sx = Ok sx' -> for_loop_from i n by' sy = Ok sy' ->
    for_loop_from i n bc (comb sx sy) = Ok (comb sx' sy') /\ Inv sx' sy'.
Proof.
  intros Hb. induction n as [| n IH]; intros i sx sy sx' sy' Hi;
    cbn [for_loop_from].
  - intros [= <-] [= <-]. now split.
  - destruct (bx i sx) as [sx1 | | |] eqn:Ex; cbn [obind];
      try discriminate.
    destruct (by' i sy) as [sy1 | | |] eqn:Ey; cbn [obind];
      try discriminate.
    destruct (Hb i sx sy sx1 sy1 Hi Ex Ey) as [Ec Hi1].
    rewrite Ec. cbn [obind]. now apply IH.
Qed.
End TwoRuns.

Section Linear.
Variable Nc : nat.
Variables alpha beta : C.

Local Abbreviation lin := (lin_field alpha beta).
Local Abbreviation vl := (vlin alpha beta).

Lemma vlin_zero : vl CM.vzero CM.vzero = CM.vzero.
Proof.
  extensionality k. unfold vlin, CM.vadd, CM.vscale, CM.vzero.
  now rewrite !Cmul_0_r, Cadd_0_l.
Qed.

Lemma vlin_add v w v' w' :
  CM.vadd (vl v w) (vl v' w') = vl (CM.vadd v v') (CM.vadd w w').
Proof.
  extensionality k. unfold vlin, CM.vadd, CM.vscale.
  rewrite !Cmul_add_l. apply Cadd_swap.
Qed.

Lemma mulv_vlin m v w :
  CM.mulv Nc m (vl v w) = vl (CM.mulv Nc m v) (CM.mulv Nc m w).
Proof.
  extensionality r. unfold vlin, CM.mulv, CM.vadd, CM.vscale.
  rewrite <- !csum_mul_l, <- csum_add. apply csum_ext. intros k _.
  rewrite Cmul_add_l, <- !Cmul_assoc.
  now rewrite (Cmul_comm (m r k) alpha), (Cmul_comm (m r k) beta).
Qed.

Lemma read_lin x y i p q :
  Lat.read x i = Ok p -> Lat.read y i = Ok q ->
  Lat.read (lin x y) i = Ok (vl p q).
Proof.
  unfold Lat.read, oread, lin_field. cbn [data Lat.with_data].
  rewrite lookup_zip_with.
  destruct (data x !! i); [| discriminate].
  destruct (data y !! i); [| discriminate].
  now intros [= ->] [= ->].
Qed.

Lemma add_assign_lin x y i v w x' y' :
  same_length x y ->
  add_assign x i v = Ok x' -> add_assign y i w = Ok y' ->
  add_assign (lin x y) i (vl v w) = Ok (lin x' y') /\ same_length x' y'.
Proof.
  unfold same_length. intros Hl.
  unfold add_assign, Lat.read, Lat.write, oread, owrite, mbind,
    outcome_bind.
  cbn [data lin_field Lat.with_data].
  rewrite lookup_zip_with, length_zip_with, Hl, Nat.min_id.
  destruct (data x !! i) as [p |]; cbn; [| discriminate].
  destruct (data y !! i) as [q |]; cbn; [| discriminate].
  destruct (decide (i < length (data x))); cbn; [| discriminate].
  intros [= <-] [= <-]. cbn. split.
  - unfold lin_field, Lat.with_data. cbn. do 2 f_equal.
    now rewrite vlin_add, insert_zip_with.
  - now rewrite !length_insert.
Qed.

Variable hm : HoppingMatrix.

Lemma gather_step_lin x y nd a mu al be px py px' py' :
  same_length px py ->
  gather_step Nc hm x nd a mu al be px = Ok px' ->
  gather_step Nc hm y nd a mu al be py = Ok py' ->
  gather_step Nc hm (lin x y) nd a mu al be (lin px py) = Ok (lin px' py')
  /\ same_length px' py'.
Proof.
  intros Hl. unfold gather_step, mbind, outcome_bind. cbv zeta.
  destruct (oread (spin_structures_ hm) (2 * mu)) as [s0 | | |];
    cbn [obind]; try discriminate.
  destruct (coeff s0 al be) as [z0 | | |]; cbn [obind]; try discriminate.
  destruct (Lat.read (scattered_gauge_field_ hm) (2 * (nd * a + mu)))
    as [u0 | | |]; cbn [obind]; try discriminate.
  destruct (Lat.read x (nd * a + be)) as [p | | |] eqn:Ep; cbn [obind];
    try discriminate.
  destruct (Lat.read y (nd * a + be)) as [q | | |] eqn:Eq; cbn [obind];
    try (intros _; discriminate).
  rewrite (read_lin x y _ p q Ep Eq). cbn [obind].
  destruct (add_assign px _ _) as [px1 | | |] eqn:Ex1; cbn [obind];
    try discriminate.
  destruct (add_assign py _ _) as [py1 | | |] eqn:Ey1; cbn [obind];
    try (intros _; discriminate).
  rewrite mulv_vlin.
  destruct (add_assign_lin px py _ _ _ px1 py1 Hl Ex1 Ey1) as [Ec1 Hl1].
  rewrite Ec1. cbn [obind].
  destruct (oread (spin_structures_ hm) (2 * mu + 1)) as [s1 | | |];
    cbn [obind]; try discriminate.
  destruct (coeff s1 al be) as [z1 | | |]; cbn [obind]; try discriminate.
  destruct (Lat.read (scattered_gauge_field_ hm) (2 * (nd * a + mu) + 1))
    as [u1 | | |]; cbn [obind]; try discriminate.
  rewrite mulv_vlin. intros Ex2 Ey2.
  exact (add_assign_lin px1 py1 _ _ _ px' py' Hl1 Ex2 Ey2).
Qed.

Lemma gather_lin x y px py :
  layout y = layout x ->
  gather Nc hm x = Ok px -> gather Nc hm y = Ok py ->
  gather Nc hm (lin x y) = Ok (lin px py) /\ same_length px py.
Proof.
  intros Hly. unfold gather. cbv zeta.
  change (layout (lin x y)) with (layout x). rewrite Hly.
  set (nd := num_dims (layout x)). set (ns := num_spins_ hm).
  set (z := Lat.fill (layout x) CM.vzero (nd * ns * 2)).
  assert (Hz : lin z z = z).
  { unfold lin_field, z, Lat.fill, Lat.with_data. cbn. f_equal.
    rewrite zip_with_replicate. now rewrite vlin_zero. }
  rewrite <- Hz at 3. unfold for_loop.
  apply (for_loop_from_combine lin same_length); [| reflexivity].
  intros a s1 s2 s1' s2' H1.
  apply (for_loop_from_combine lin same_length); [| exact H1].
  intros mu t1 t2 t1' t2' H2.
  apply (for_loop_from_combine lin same_length); [| exact H2].
  intros al u1 u2 u1' u2' H3.
  apply (for_loop_from_combine lin same_length); [| exact H3].
  intros be v1 v2 v1' v2' H4. now apply gather_step_lin.
Qed.

Lemma scatter_step_lin px py nd a mu np nm al ox oy ox' oy' :
  same_length ox oy ->
  scatter_step hm px nd a mu np nm al ox = Ok ox' ->
  scatter_step hm py nd a mu np nm al oy = Ok oy' ->
  scatter_step hm (lin px py) nd a mu np nm al (lin ox oy)
  = Ok (lin ox' oy')
  /\ same_length ox' oy'.
Proof.
  intros Hl. unfold scatter_step, mbind, outcome_bind. cbv zeta.
  set (gi := 2 * (num_spins_ hm * (nd * a + mu) + al)).
  destruct (Lat.read px gi) as [p0 | | |] eqn:Ep0; cbn [obind];
    try discriminate.
  destruct (Lat.read py gi) as [q0 | | |] eqn:Eq0; cbn [obind];
    try (intros _; discriminate).
  rewrite (read_lin px py _ p0 q0 Ep0 Eq0). cbn [obind].
  destruct (add_assign ox _ p0) as [ox1 | | |] eqn:Ex1; cbn [obind];
    try discriminate.
  destruct (add_assign oy _ q0) as [oy1 | | |] eqn:Ey1; cbn [obind];
    try (intros _; discriminate).
  destruct (add_assign_lin ox oy _ _ _ ox1 oy1 Hl Ex1 Ey1) as [Ec1 Hl1].
  rewrite Ec1. cbn [obind].
  destruct (Lat.read px (gi + 1)) as [p1 | | |] eqn:Ep1; cbn [obind];
    try discriminate.
  destruct (Lat.read py (gi + 1)) as [q1 | | |] eqn:Eq1; cbn [obind];
    try (intros _; discriminate).
  rewrite (read_lin px py _ p1 q1 Ep1 Eq1). cbn [obind].
  intros Ex2 Ey2.
  exact (add_assign_lin ox1 oy1 _ _ _ ox' oy' Hl1 Ex2 Ey2).
Qed.

Lemma scatter_lin px py nd vol ox oy ox' oy' :
  same_length ox oy ->
  scatter hm px nd vol ox = Ok ox' -> scatter hm py nd vol oy = Ok oy' ->
  scatter hm (lin px py) nd vol (lin ox oy) = Ok (lin ox' oy')
  /\ same_length ox' oy'.
Proof.
  intros Hl. unfold scatter, for_loop.
  apply (for_loop_from_combine lin same_length); [| exact Hl].
  intros a s1 s2 s1' s2' H1.
  apply (for_loop_from_combine lin same_length); [| exact H1].
  intros mu t1 t2 t1' t2' H2. unfold mbind, outcome_bind.
  destruct (oread _ a) as [row | | |]; cbn [obind]; try discriminate.
  destruct (oread row (2 * mu)) as [np | | |]; cbn [obind];
    try discriminate.
  destruct (oread row (2 * mu + 1)) as [nm | | |]; cbn [obind];
    try discriminate.
  apply (for_loop_from_combine lin same_length); [| exact H2].
  intros al u1 u2 u1' u2' H3. now apply scatter_step_lin.
Qed.

Lemma lin_zero_like o : lin (zero_like o) (zero_like o) = zero_like o.
Proof.
  unfold lin_field, zero_like, Lat.with_data. cbn. f_equal.
  induction (data o) as [| v l IH]; cbn; [reflexivity |].
  now rewrite vlin_zero, IH.
Qed.

Lemma apply_full_lin o x y rx ry :
  layout y = layout x ->
  apply_full Nc hm (zero_like o) x = Ok rx ->
  apply_full Nc hm (zero_like o) y = Ok ry ->
  apply_full Nc hm (zero_like o) (lin x y) = Ok (lin rx ry).
Proof.
  intros Hly. unfold apply_full, mbind, outcome_bind. cbv zeta.
  change (layout (lin x y)) with (layout x). rewrite Hly.
  destruct (gather Nc hm x) as [px | | |] eqn:Ex; cbn [obind];
    try discriminate.
  destruct (gather Nc hm y) as [py | | |] eqn:Ey; cbn [obind];
    try (intros _; discriminate).
  destruct (gather_lin x y px py Hly Ex Ey) as [Ec _]. rewrite Ec.
  cbn [obind]. intros Sx Sy.
  rewrite <- (lin_zero_like o) at 1.
  now apply (scatter_lin px py _ _ (zero_like o) (zero_like o) rx ry).
Qed.
End Linear.


(** ** The tables of the constructor *)

Section CtorUnitary.
Import HopSpec.
Variable Nc : nat.
Variable Nhops : nat.
Variable gf : Lattice ColourMatrix.
Variable phases : list C.
Let L := layout gf.
Let nd := num_dims L.
Hypothesis HL : layout_ok Nhops L.
Hypothesis Hgf : gauge_ok gf.
Hypothesis Hphases : nd <= length phases.

Lemma extent_pos d ext : shape L !! d = Some ext -> (0 < ext)%Z.
Proof.
  intros H. pose proof (shape_small _ _ HL) as Hs.
  rewrite Forall_lookup in Hs. now destruct (Hs d ext H).
Qed.

Lemma neighbour_lt s d v :
  s < volume L -> d < nd -> neighbour L s d v < volume L.
Proof.
  intros Hs Hd. unfold neighbour.
  destruct (site_coord Nhops gf HL s d Hs Hd) as (ext & c & Hext & _ & _).
  apply (coords_index_lt _ _ HL).
  apply (shift_coords_in_range L _ d v ext); [| exact Hext |].
  - now apply (coords_in_range _ _ HL).
  - exact (extent_pos d ext Hext).
Qed.

Hypothesis Hlinks : Forall (CM.unitary Nc) (data gf).
Hypothesis Hunit : Forall unit_modulus phases.

Lemma unit_modulus_1 : unit_modulus C1.
Proof. unfold unit_modulus, Cnorm2, C1, RtoC; cbn. lra. Qed.

Lemma phase_of_unit d : unit_modulus (phase_of phases d).
Proof.
  unfold phase_of. destruct (phases !! d) as [z |] eqn:E; cbn.
  - rewrite Forall_lookup in Hunit. exact (Hunit d z E).
  - apply unit_modulus_1.
Qed.

Lemma link_at_unitary coords d :
  in_range L coords -> d < nd -> CM.unitary Nc (link_at gf coords d).
Proof.
  intros Hr Hd.
  pose proof (gauge_read Nhops gf coords d HL Hgf Hr Hd) as E.
  unfold Lat.read, oread in E.
  destruct (data gf !! Lat.slot_of_coords gf coords d) as [u |] eqn:Eu;
    [| discriminate].
  injection E as <-. rewrite Forall_lookup in Hlinks.
  exact (Hlinks _ _ Eu).
Qed.

Lemma line_product_unitary coords d start phase :
  in_range L coords -> d < nd -> unit_modulus phase ->
  CM.unitary Nc (line_product Nc Nhops gf coords d start phase).
Proof.
  intros Hr Hd Hp. unfold line_product.
  assert (Hacc : CM.unitary Nc (CM.scale_r CM.identity phase))
    by now apply unitary_phase.
  revert Hacc. generalize (CM.scale_r CM.identity phase).
  generalize (seq 0 Nhops).
  intros l. induction l as [| h l IH]; intros acc Hacc; cbn [fold_left];
    [exact Hacc |].
  apply IH. apply unitary_mul; [exact Hacc |].
  apply link_at_unitary; [| exact Hd].
  destruct (lookup_lt_is_Some_2 (shape L) d) as [ext Hext].
  { rewrite (shape_dims _ _ HL). exact Hd. }
  apply (shift_coords_in_range L _ d _ ext Hr Hext).
  exact (extent_pos d ext Hext).
Qed.

Lemma HoppingMatrix_ctor_unitary :
  exists hm,
    HoppingMatrix_ctor Nc Nhops gf phases = Ok hm
    /\ forall s d, s < volume L -> d < nd ->
         let U := scattered_gauge_field_ hm in
         exists B F,
           Lat.read U (Lat.slot U s (2 * d)) = Ok B
           /\ Lat.read U (Lat.slot U s (2 * d + 1)) = Ok F
           /\ CM.unitary Nc B /\ CM.unitary Nc F.
Proof.
  destruct (HoppingMatrix_ctor_spec Nc Nhops gf phases HL Hgf Hphases)
    as (hm & E & _ & _ & Hwf & Hdone).
  exists hm. split; [exact E |]. intros s d Hs Hd U.
  destruct Hwf as (W1 & W2 & _). cbn [fst snd] in W1, W2.
  destruct (Hdone s d Hs Hd) as (DB & DF & _). cbn [fst snd] in DB, DF.
  cbv zeta in DB, DF. fold L in DB, DF, W1, W2.
  do 2 eexists. unfold Lat.read, Lat.slot. subst U. rewrite W1, W2.
  fold L. rewrite (oread_ok _ _ _ DB), (oread_ok _ _ _ DF).
  split; [reflexivity |]. split; [reflexivity |].
  pose proof (coords_in_range _ _ HL s Hs) as Hr.
  split; apply line_product_unitary; try assumption.
  - unfold phase_bck. destruct (_ <? _)%Z;
      [apply phase_of_unit | apply unit_modulus_1].
  - unfold phase_fwd. destruct (_ <=? _)%Z;
      [apply phase_of_unit | apply unit_modulus_1].
Qed.
End CtorUnitary.

Section CtorTables.
Import HopSpec.
Variable Nc : nat.
Variable Nhops : nat.
Variable gf : Lattice ColourMatrix.
Variable phases : list C.
Let L := layout gf.
Let nd := num_dims L.
Hypothesis HL : layout_ok Nhops L.
Hypothesis Hgf : gauge_ok gf.
Hypothesis Hphases : nd <= length phases.

Lemma HoppingMatrix_ctor_tables :
  exists hm,
    HoppingMatrix_ctor Nc Nhops gf phases = Ok hm
    /\ num_spins hm = 2 ^ (nd / 2)
    /\ Lat.size (scattered_gauge_field_ hm) = volume L * (2 * nd)
    /\ length (data (scattered_gauge_field_ hm)) = volume L * (2 * nd)
    /\ length (neighbour_array_indices_ hm) = volume L
    /\ Forall (fun row => length row = nd * 2)
              (neighbour_array_indices_ hm)
    /\ forall s d, s < volume L -> d < nd ->
         exists row m p,
           neighbour_array_indices_ hm !! get_array_index L s = Some row
           /\ row !! (2 * d) = Some m /\ row !! (2 * d + 1) = Some p
           /\ m < volume L /\ p < volume L.
Proof.
  destruct (HoppingMatrix_ctor_spec Nc Nhops gf phases HL Hgf Hphases)
    as (hm & E & _ & Hns & Hwf & Hdone).
  exists hm. split; [exact E |].
  destruct Hwf as (W1 & W2 & W3 & W4 & W5). cbn [fst snd] in *.
  fold L in W1, W2, W3, W4, W5.
  split; [exact Hns |].
  split; [unfold Lat.size; now rewrite W1, W2 |].
  split; [exact W3 |]. split; [exact W4 |].
  split.
  - apply Forall_lookup. intros a row Ha. exact (W5 a row Ha).
  - intros s d Hs Hd.
    destruct (Hdone s d Hs Hd) as (_ & _ & row & Hrow & Hm & Hp).
    cbn [fst snd] in Hrow. fold L in Hrow, Hm, Hp.
    exists row. do 2 eexists.
    split; [exact Hrow |]. split; [exact Hm |]. split; [exact Hp |].
    split; now apply (neighbour_lt Nhops gf HL).
Qed.
End CtorTables.

Section Surjective.
Import HopSpec.
Variable Nhops : nat.
Variable L : Layout.
Hypothesis HL : layout_ok Nhops L.

(** An injection of the sites into the array indices below the volume
    reaches every one of them. *)
Lemma array_index_onto a :
  a < volume L -> exists s, s < volume L /\ get_array_index L s = a.
Proof.
  intros Ha.
  assert (Hnd : NoDup (get_array_index L <$> seq 0 (volume L))).
  { apply NoDup_fmap_2_strong; [| apply NoDup_seq].
    intros x y Hx Hy. apply elem_of_seq in Hx, Hy.
    apply (array_index_inj _ _ HL); lia. }
  assert (Hin : incl (seq 0 (volume L))
                     (get_array_index L <$> seq 0 (volume L))).
  { apply NoDup_length_incl.
    - now apply NoDup_ListNoDup.
    - now rewrite length_fmap.
    - intros x Hx. apply in_map_iff in Hx as (s & <- & Hs).
      apply in_seq in Hs. apply in_seq.
      pose proof (array_index_lt _ _ HL s). lia. }
  specialize (Hin a). rewrite in_seq in Hin.
  specialize (Hin ltac:(lia)).
  apply in_map_iff in Hin as (s & Es & Hs). apply in_seq in Hs.
  exists s. split; [lia | exact Es].
Qed.
End Surjective.

Section CtorThenApply.
Import HopSpec.
Variable Nc : nat.
Variable Nhops : nat.
Variable gf : Lattice ColourMatrix.
Variable phases : list C.
Variable spin_structures : list MatrixXcd.
Variables fermion_out fermion_in : Lattice ColourVector.
Let L := layout gf.
Let nd := num_dims L.
Let ns := 2 ^ (nd / 2).
Hypothesis HL : layout_ok Nhops L.
Hypothesis Hgf : gauge_ok gf.
Hypothesis Hphases : nd <= length phases.
Hypothesis Hspin_len : 2 * nd <= length spin_structures.
Hypothesis Hspin : spin_structures_ok ns spin_structures.
Hypothesis Hin_layout : layout fermion_in = L.
Hypothesis Hin : volume L * Nat.max nd ns <= length (data fermion_in).
Hypothesis Hout : volume L * ns <= length (data fermion_out).

Lemma ctor_then_apply_full :
  exists hm r,
    HoppingMatrix_ctor_spin Nc Nhops gf phases spin_structures = Ok hm
    /\ apply_full Nc hm fermion_out fermion_in = Ok r
    /\ same_field_shape fermion_out r.
Proof.
  destruct (HoppingMatrix_ctor_tables Nc Nhops gf phases HL Hgf Hphases)
    as (hm & E & Hns & _ & Hlen & _ & _ & Hnb).
  fold L nd in Hns, Hlen, Hnb.
  exists (set_spin_structures hm spin_structures).
  assert (Hfits : fits (set_spin_structures hm spin_structures)
                       fermion_out fermion_in).
  { unfold num_spins in Hns.
    split; cbn [set_spin_structures spin_structures_ num_spins_
                scattered_gauge_field_ neighbour_array_indices_];
      rewrite ?Hin_layout, ?Hns; fold L nd ns.
    - intros k al be Hk Hal Hbe.
      destruct (lookup_lt_is_Some_2 spin_structures k ltac:(lia))
        as [s Hs].
      unfold spin_structures_ok in Hspin. rewrite Forall_lookup in Hspin.
      destruct (Hspin k s Hs al be Hal Hbe) as [z Hz]. eauto.
    - rewrite Hlen. nia.
    - intros a be Ha Hbe.
      assert (nd * a + be < Nat.max nd ns * (a + 1)) by nia.
      assert (Nat.max nd ns * (a + 1) <= Nat.max nd ns * volume L)
        by (apply Nat.mul_le_mono_l; lia).
      lia.
    - intros a k Ha Hk.
      destruct (array_index_onto Nhops L HL a Ha) as (s & Hs & <-).
      destruct (Hnb s (k / 2)) as (row & m & p & Hrow & Hm & Hp & Bm & Bp);
        [exact Hs | apply Nat.Div0.div_lt_upper_bound; lia |].
      pose proof (Nat.div_mod_eq k 2) as Hk2.
      pose proof (Nat.mod_upper_bound k 2 ltac:(lia)) as Hk3.
      exists row. destruct (decide (k mod 2 = 0)) as [H0 | H1].
      + exists m. split; [exact Hrow |]. split.
        * rewrite <- Hm. f_equal. lia.
        * assert (ns * (m + 1) <= ns * volume L)
            by (apply Nat.mul_le_mono_l; lia).
          lia.
      + exists p. split; [exact Hrow |]. split.
        * rewrite <- Hp. f_equal. lia.
        * assert (ns * (p + 1) <= ns * volume L)
            by (apply Nat.mul_le_mono_l; lia).
          lia. }
  destruct (apply_full_returns Nc _ fermion_out fermion_in Hfits)
    as (r & Er & Hr).
  exists r. split; [| split; [exact Er | exact Hr]].
  unfold HoppingMatrix_ctor_spin, mbind, outcome_bind. now rewrite E.
Qed.
End CtorThenApply.

Section CtorPhases.
Import HopSpec.
Variable Nc : nat.
Variable Nhops : nat.
Variable gf : Lattice ColourMatrix.
Variable phases : list C.
Let L := layout gf.
Let nd := num_dims L.
Let H := Z.of_nat Nhops.
Hypothesis HL : layout_ok Nhops L.

Lemma coord_add_no_throw cs d v : no_throw (coord_add cs d v).
Proof. unfold coord_add, mbind, outcome_bind. no_throw_steps. Qed.

Lemma coord_sub_no_throw cs d v : no_throw (coord_sub cs d v).
Proof. unfold coord_sub, mbind, outcome_bind. no_throw_steps. Qed.

Lemma mul_assign_no_throw lat i m : no_throw (mul_assign Nc lat i m).
Proof. unfold mul_assign, mbind, outcome_bind. no_throw_steps. Qed.

Lemma hop_step_no_throw s d h st :
  no_throw (hop_step Nc Nhops gf s d h st).
Proof.
  unfold hop_step, mbind, outcome_bind. destruct st as [cs sc]. cbv zeta.
  repeat first
    [ exact I
    | apply coord_add_no_throw | apply coord_sub_no_throw
    | apply mul_assign_no_throw | apply lat_read_no_throw
    | apply no_throw_bind; [| intros] ].
Qed.

Lemma scatter_axis_no_throw s d st :
  no_throw (scatter_axis Nc Nhops gf phases s d st).
Proof.
  unfold scatter_axis, mbind, outcome_bind. destruct st as [sc nb].
  cbv zeta.
  apply no_throw_bind; [apply oread_no_throw | intros c].
  apply no_throw_bind; [apply oread_no_throw | intros ext].
  apply no_throw_bind;
    [destruct (_ <=? _)%Z; [apply oread_no_throw | exact I] | intros pf].
  apply no_throw_bind;
    [destruct (_ <? _)%Z; [apply oread_no_throw | exact I] | intros pb].
  apply no_throw_bind; [apply lat_write_no_throw | intros sc1].
  apply no_throw_bind; [apply lat_write_no_throw | intros sc2].
  apply no_throw_bind.
  { apply for_loop_no_throw. intros. apply hop_step_no_throw. }
  intros [cs sc3].
  repeat first
    [ exact I
    | apply coord_add_no_throw | apply coord_sub_no_throw
    | apply oread_no_throw | apply owrite_no_throw
    | apply no_throw_bind; [| intros] ].
Qed.

Lemma HoppingMatrix_ctor_no_throw :
  no_throw (HoppingMatrix_ctor Nc Nhops gf phases).
Proof.
  unfold HoppingMatrix_ctor, mbind, outcome_bind. cbv zeta.
  apply no_throw_bind.
  - apply for_loop_no_throw. intros s st.
    apply for_loop_no_throw. intros d st'. apply scatter_axis_no_throw.
  - intros [sc nb]. exact I.
Qed.

Lemma scatter_axis_needs_phase s d st :
  s < volume L -> d < nd -> length phases <= d ->
  (coord_of L s d < H \/ extent_of L d <= coord_of L s d + H)%Z ->
  fails (scatter_axis Nc Nhops gf phases s d st).
Proof.
  intros Hs Hd Hlen Hedge.
  destruct (site_coord Nhops gf HL s d Hs Hd) as (ext & c & Hext & Hc & Ec).
  pose proof (ext_bounds Nhops gf d ext HL Hext) as Hb.
  pose proof (c_bounds Nhops gf s d ext c HL Hs Hext Hc) as Hcb.
  fold L H in Hb, Hcb, Hext, Hc, Ec.
  unfold extent_of in Hedge. rewrite Hext, Ec in Hedge. cbn in Hedge.
  assert (Eph : oread phases d = OutOfBounds).
  { unfold oread. now rewrite lookup_ge_None_2. }
  unfold scatter_axis, mbind, outcome_bind. destruct st as [sc nb].
  cbv zeta. fold L.
  rewrite (oread_ok _ _ _ Hc). cbn [obind].
  rewrite (oread_ok _ _ _ Hext). cbn [obind].
  fold H. rewrite (u32_small (c + H)) by lia.
  destruct (Z.leb_spec ext (c + H)) as [Hle | Hgt].
  - rewrite Eph. cbn [obind]. intros x; discriminate.
  - cbn [obind]. rewrite (u32_small c), (u32_small H) by lia.
    destruct (Z.ltb_spec c H) as [Hlt | Hge]; [| lia].
    rewrite Eph. cbn [obind]. intros x; discriminate.
Qed.

Lemma HoppingMatrix_ctor_needs_phase s d :
  s < volume L -> d < nd -> length phases <= d ->
  (coord_of L s d < H \/ extent_of L d <= coord_of L s d + H)%Z ->
  HoppingMatrix_ctor Nc Nhops gf phases = OutOfBounds.
Proof.
  intros Hs Hd Hlen Hedge.
  apply fails_no_throw; [| apply HoppingMatrix_ctor_no_throw].
  unfold HoppingMatrix_ctor, mbind, outcome_bind. cbv zeta.
  apply fails_bind_l.
  apply (for_loop_fails _ s); [exact Hs |]. intros st.
  apply (for_loop_fails _ d); [exact Hd |]. intros st'.
  now apply scatter_axis_needs_phase.
Qed.
End CtorPhases.


(** ** The update changes two rows *)

Section UpdateRows.
Local Open Scope R_scope.
Variable rng_state : Type.
Variable generate_real : R -> R -> rng_state -> R * rng_state.
Variable epsilon : R.
Variable Nc : nat.
Variable fuel : nat.

(** What [su2_heatbath_update] returns is the link multiplied from the
    left by a matrix that [insert_su2] built. *)
Lemma su2_heatbath_update_form link staple weight k i j g link' g' :
  compute_su2_subgroup_pos (Z.of_nat Nc) k = Ok (i, j) ->
  in_matrix Nc i j = true ->
  su2_heatbath_update rng_state generate_real epsilon Nc fuel
                      link staple weight k g = (Ok link', g') ->
  exists M, link' = CM.mul Nc (placed M (Z.to_nat i) (Z.to_nat j)) link.
Proof.
  intros Hp Hb Hup. unfold su2_heatbath_update in Hup.
  unfold mbind, stateful_bind, St.bind, St.lift, mret, stateful_ret,
    St.ret in Hup.
  rewrite (extract_su2_at Nc _ k i j Hp Hb) in Hup. cbv zeta in Hup.
  cbn beta iota in Hup.
  match type of Hup with
  | context [if ?c then _ else _] => destruct c
  end.
  - destruct (random_su2 rng_state generate_real g) as [[X | | |] g1];
      try discriminate.
    rewrite (insert_su2_at Nc _ _ i j Hp Hb) in Hup.
    injection Hup as <- <-. eauto.
  - destruct (gen_heatbath_su2 rng_state generate_real fuel _ g)
      as [[X | | |] g1]; try discriminate.
    rewrite (insert_su2_at Nc _ _ i j Hp Hb) in Hup.
    injection Hup as <- <-. eauto.
Qed.

Lemma placed_mul_row M i j link r c :
  i <> j -> (r < Nc)%nat -> r <> i -> r <> j ->
  CM.mul Nc (placed M i j) link r c = link r c.
Proof.
  intros Hij Hr Hri Hrj. unfold CM.mul.
  rewrite (csum_single Nc r); [| exact Hr |].
  - rewrite placed_outside by auto.
    now rewrite cm_identity_same, Cmul_1_l.
  - intros k _ Hk. rewrite placed_outside by auto.
    rewrite cm_identity_other by auto. apply Cmul_0_l.
Qed.

Lemma su2_heatbath_update_rows link staple weight (k : nat) g link' g' :
  (Z.of_nat Nc < 2 ^ 31)%Z ->
  (Z.of_nat k < num_subgroups (Z.of_nat Nc))%Z -> (k < Nc)%nat ->
  su2_heatbath_update rng_state generate_real epsilon Nc fuel
                      link staple weight (Z.of_nat k) g = (Ok link', g') ->
  exists i j,
    lex_pairs Nc !! k = Some (Z.of_nat i, Z.of_nat j)
    /\ (i < j < Nc)%nat
    /\ forall r c, (r < Nc)%nat -> r <> i -> r <> j ->
                   link' r c = link r c.
Proof.
  intros HNc Hk HkN Hup.
  destruct (compute_su2_subgroup_pos_lex Nc k HNc Hk HkN)
    as (i & j & Hp & Hlex & Hij & Hj).
  assert (Hb : in_matrix Nc i j = true).
  { unfold in_matrix.
    rewrite (proj2 (Nat.ltb_lt (Z.to_nat i) Nc)) by lia.
    now rewrite (proj2 (Nat.ltb_lt (Z.to_nat j) Nc)) by lia. }
  destruct (su2_heatbath_update_form _ _ _ _ i j _ _ _ Hp Hb Hup)
    as (M & ->).
  exists (Z.to_nat i), (Z.to_nat j).
  rewrite !Z2Nat.id by lia.
  split; [exact Hlex |]. split; [lia |].
  intros r c Hr Hri Hrj. apply placed_mul_row; try assumption. lia.
Qed.
End UpdateRows.

(** ** Further concrete inputs *)

Section MoreInputFacts.
Import Inputs MoreInputs HopSpec.
Local Open Scope R_scope.

Lemma low_rng_uniform : uniform_range low_rng.
Proof. intros lo hi g H. cbn. lra. Qed.

Lemma su2_identity_unit : su2_unit SU2.identity.
Proof.
  split.
  - split; cbn; unfold Cconj, Csub, C0, C1, RtoC; cbn; apply C_eq; cbn;
      ring.
  - unfold su2_norm2, Cnorm2, SU2.identity, C0, C1, RtoC; cbn. ring.
Qed.

(** With the generator [low_rng] the acceptance loop of
    [gen_heatbath_su2] accepts its first proposal, whatever the
    weight. *)
Lemma low_rng_heatbath w :
  exists X, gen_heatbath_su2 unit low_rng 2 w tt = (Ok X, tt).
Proof.
  unfold gen_heatbath_su2, St.bind, accept_loop, low_rng.
  destruct (Rgt_dec (0 ^ 2) (1 - 2)) as [_ | H]; [| exfalso; apply H; lra].
  replace (1 - 0) with 1 by ring. rewrite ln_1.
  destruct (Rgt_dec (0 ^ 2) (1 - -1 / (2 * w) * (0 + cos (2 * PI * 1) ^ 2 * 0)))
    as [H | _]; [exfalso; lra |].
  eauto.
Qed.

Lemma Csqrt_re_nonneg z : 0 <= Cre (Csqrt z).
Proof. unfold Csqrt, Cre; cbn. apply sqrt_pos. Qed.

(** The extract of the product of two identity matrices has
    determinant 4. *)
Lemma identity_extract :
  exists E, extract_su2 2 (CM.mul 2 CM.identity CM.identity) 0 = Ok E
            /\ SU2.determinant E <> C0.
Proof.
  eexists. split; [reflexivity |].
  intros H. apply (f_equal fst) in H.
  vm_compute in H. lra.
Qed.

(** One SU(2) update of the identity link against the identity staple
    returns. *)
Lemma identity_update_returns :
  exists link',
    su2_heatbath_update unit low_rng 0 2 2 CM.identity CM.identity 1 0 tt
    = (Ok link', tt).
Proof.
  destruct identity_extract as (E & HE & _).
  unfold su2_heatbath_update, mbind, stateful_bind, St.bind, St.lift,
    mret, stateful_ret, St.ret.
  rewrite HE. cbv zeta.
  destruct (Rlt_dec _ (6 * 0)) as [H | _].
  { exfalso. pose proof (Csqrt_re_nonneg (SU2.determinant E)). lra. }
  destruct (low_rng_heatbath (Cre (Csqrt (SU2.determinant E)) * 1))
    as (X & EX).
  rewrite EX.
  rewrite (insert_su2_at 2 _ 0 0%Z 1%Z eq_refl eq_refl). eauto.
Qed.

(** With three colours and the generator [low_rng], the update of the
    identity link against the identity staple for the subgroup 0
    returns. *)
Lemma identity_update3_returns :
  exists link',
    su2_heatbath_update unit low_rng 0 3 2 CM.identity CM.identity 1 0 tt
    = (Ok link', tt).
Proof.
  unfold su2_heatbath_update, mbind, stateful_bind, St.bind, St.lift,
    mret, stateful_ret, St.ret.
  rewrite (extract_su2_at 3 _ 0 0%Z 1%Z eq_refl eq_refl). cbv zeta.
  match goal with
  | |- context [if ?c then _ else _] => destruct c as [H | _]
  end.
  { exfalso.
    match type of H with
    | Cre (Csqrt ?z) < _ => pose proof (Csqrt_re_nonneg z)
    end.
    lra. }
  match goal with
  | |- context [gen_heatbath_su2 unit low_rng 2 ?w tt] =>
      destruct (low_rng_heatbath w) as (X & EX)
  end.
  rewrite EX.
  rewrite (insert_su2_at 3 _ 0 0%Z 1%Z eq_refl eq_refl). eauto.
Qed.

Lemma line_fits : fits line_hopping_spin line_zero line_ones.
Proof.
  split.
  - intros k al be Hk Hal Hbe.
    change (num_spins_ line_hopping_spin) with 1%nat in Hal, Hbe.
    change (num_dims (layout line_ones)) with 1%nat in Hk.
    assert (al = 0%nat) as -> by lia. assert (be = 0%nat) as -> by lia.
    destruct k as [| [| k]]; [| | lia];
      exists unit_spin, C1; split; reflexivity.
  - vm_compute. lia.
  - intros a be Ha Hbe.
    change (num_spins_ line_hopping_spin) with 1%nat in Hbe.
    change (volume (layout line_ones)) with 2%nat in Ha.
    change (num_dims (layout line_ones)) with 1%nat.
    change (length (data line_ones)) with 2%nat. lia.
  - intros a k Ha Hk.
    change (volume (layout line_ones)) with 2%nat in Ha.
    change (num_dims (layout line_ones)) with 1%nat in Hk.
    destruct a as [| [| a]]; [| | lia];
      (destruct k as [| [| k]]; [| | lia]);
      do 2 eexists; (split; [reflexivity |]);
      (split; [reflexivity |]); vm_compute; lia.
Qed.

Lemma grid_spin_ok : spin_structures_ok 2 grid_spin.
Proof.
  unfold spin_structures_ok, grid_spin.
  repeat constructor;
    intros [| [| al]] [| [| be]] Hal Hbe; try lia;
    eexists; reflexivity.
Qed.

Lemma grid_links_unitary : Forall (CM.unitary 3) (data grid_gauge).
Proof.
  unfold grid_gauge, Lat.fill. cbn [data].
  apply Forall_replicate, unitary_identity.
Qed.

Lemma grid_phases_unit : Forall unit_modulus grid_phases.
Proof. repeat constructor; apply unit_modulus_1. Qed.
End MoreInputFacts.


(** * Further properties of the code *)

(** ** utils/matrices.hpp *)

Section MatricesProperties.
Import Inputs MoreInputs.
Local Open Scope Z_scope.

(** X1.  [compute_su2_subgroup_pos<Nc>(index, i, j)], for every number
    of colours and every index of 32 bits: it throws its range error
    exactly when [index >= Nc], and for every smaller index it returns a
    pair; its loop never runs on. *)
Theorem compute_su2_subgroup_pos_throws_iff (Nc index : Z) :
  0 <= Nc < 2 ^ 31 -> 0 <= index < 2 ^ 32 ->
  (compute_su2_subgroup_pos Nc index = Raise invalid_index <-> Nc <= index)
  /\ (index < Nc ->
      exists i j, compute_su2_subgroup_pos Nc index = Ok (i, j)).
Proof. apply compute_su2_subgroup_pos_raises. Qed.

Lemma compute_su2_subgroup_pos_throws_iff_witness :
  compute_su2_subgroup_pos 3 5 = Raise invalid_index.
Proof.
  apply (proj1 (compute_su2_subgroup_pos_throws_iff 3 5
                  ltac:(lia) ltac:(lia))).
  lia.
Defined.

(** X2.  An index [k] below both [Nc] and the number of subgroups is
    looked up as the [k]-th pair [(i, j)] of the lexicographic
    enumeration, and [0 <= i < j < Nc]. *)
Theorem compute_su2_subgroup_pos_lexicographic (Nc k : nat) :
  Z.of_nat Nc < 2 ^ 31 ->
  Z.of_nat k < num_subgroups (Z.of_nat Nc) -> (k < Nc)%nat ->
  exists i j,
    compute_su2_subgroup_pos (Z.of_nat Nc) (Z.of_nat k) = Ok (i, j)
    /\ lex_pairs Nc !! k = Some (i, j) /\ 0 <= i < j /\ j < Z.of_nat Nc.
Proof. apply compute_su2_subgroup_pos_lex. Qed.

Lemma compute_su2_subgroup_pos_lexicographic_witness :
  exists i j,
    compute_su2_subgroup_pos 3 2 = Ok (i, j)
    /\ lex_pairs 3 !! 2%nat = Some (i, j) /\ 0 <= i < j /\ j < 3.
Proof.
  apply (compute_su2_subgroup_pos_lexicographic 3 2);
    [vm_compute; reflexivity | vm_compute; reflexivity | lia].
Defined.

Local Close Scope Z_scope.
Local Open Scope R_scope.

(** X3.  [construct_su2] of four real coefficients whose squares sum to
    one is a matrix of SU(2): unitary with determinant one. *)
Theorem construct_su2_in_SU2 (a0 a1 a2 a3 : R) :
  a0 * a0 + a1 * a1 + a2 * a2 + a3 * a3 = 1 ->
  SU2.is_SU2 (construct_su2 (a0, a1, a2, a3)).
Proof.
  intros H. apply su2_unit_is_SU2. split.
  - apply construct_su2_shaped.
  - now rewrite construct_su2_norm2.
Qed.

Lemma construct_su2_in_SU2_witness :
  SU2.is_SU2 (construct_su2 (1, 0, 0, 0)).
Proof. apply construct_su2_in_SU2. lra. Defined.

(** X4.  With a generator whose samples lie in the interval they are
    asked for, [random_su2] returns a matrix of SU(2) from every
    generator state. *)
Theorem random_su2_in_SU2
        (rng_state : Type)
        (generate_real : R -> R -> rng_state -> R * rng_state)
        (g : rng_state) :
  uniform_range generate_real ->
  exists X, fst (random_su2 rng_state generate_real g) = Ok X
            /\ SU2.is_SU2 X.
Proof.
  intros Hr.
  destruct (random_su2_unit rng_state generate_real Hr g) as (X & E & HX).
  exists X. split; [exact E | now apply su2_unit_is_SU2].
Qed.

Lemma random_su2_in_SU2_witness :
  exists X, fst (random_su2 unit low_rng tt) = Ok X /\ SU2.is_SU2 X.
Proof. apply random_su2_in_SU2. exact low_rng_uniform. Defined.

(** X5.  With such a generator and a positive weight, whatever
    [gen_heatbath_su2] returns is a matrix of SU(2): the accepted
    [lambda_squared] lies between 0 and 1. *)
Theorem gen_heatbath_su2_in_SU2
        (rng_state : Type)
        (generate_real : R -> R -> rng_state -> R * rng_state)
        (fuel : nat) (weight : R) (g g' : rng_state) (X : SU2Matrix) :
  uniform_range generate_real -> 0 < weight ->
  gen_heatbath_su2 rng_state generate_real fuel weight g = (Ok X, g') ->
  SU2.is_SU2 X.
Proof.
  intros Hr Hw E. apply su2_unit_is_SU2.
  exact (gen_heatbath_su2_unit rng_state generate_real Hr fuel
                               weight g X g' Hw E).
Qed.

Lemma gen_heatbath_su2_in_SU2_witness :
  exists X, gen_heatbath_su2 unit low_rng 2 1 tt = (Ok X, tt)
            /\ SU2.is_SU2 X.
Proof.
  destruct (low_rng_heatbath 1) as (X & E).
  exists X. split; [exact E |].
  apply (gen_heatbath_su2_in_SU2 unit low_rng 2 1 tt tt X);
    [exact low_rng_uniform | lra | exact E].
Defined.

(** X6.  Whatever colour matrix and subgroup [extract_su2] is given,
    what it returns has the shape [[p, q], [-conj q, conj p]] and a real
    determinant [|p|^2 + |q|^2]; unless that determinant vanishes,
    dividing by its square root, as [su2_heatbath_update] does, gives a
    matrix of SU(2). *)
Theorem extract_su2_normalises
        (Nc : nat) (U : ColourMatrix) (k : Z) (E : SU2Matrix) :
  extract_su2 Nc U k = Ok E ->
  m11 E = Cconj (m00 E) /\ m10 E = Csub C0 (Cconj (m01 E))
  /\ SU2.determinant E = RtoC (Cnorm2 (m00 E) + Cnorm2 (m01 E))
  /\ (SU2.determinant E <> C0 ->
      SU2.is_SU2 (SU2.div E (Csqrt (SU2.determinant E)))).
Proof.
  intros HE.
  pose proof (extract_su2_shaped Nc U k E HE) as Hs.
  pose proof (su2_shaped_determinant E Hs) as Hd.
  destruct Hs as [H1 H2]. split; [exact H1 |]. split; [exact H2 |].
  split; [exact Hd |]. intros Hdet.
  apply su2_unit_is_SU2, normalise_shaped; [now split |].
  destruct (su2_norm2_nonneg E) as [H | H]; [exact H |].
  exfalso. apply Hdet. rewrite Hd. now rewrite <- H.
Qed.

Lemma extract_su2_normalises_witness :
  exists E,
    extract_su2 2 (CM.mul 2 CM.identity CM.identity) 0 = Ok E
    /\ SU2.determinant E = RtoC (Cnorm2 (m00 E) + Cnorm2 (m01 E))
    /\ SU2.is_SU2 (SU2.div E (Csqrt (SU2.determinant E))).
Proof.
  destruct identity_extract as (E & HE & Hdet).
  exists E. split; [exact HE |].
  destruct (extract_su2_normalises 2 _ 0 E HE) as (_ & _ & Hd & Hn).
  split; [exact Hd | exact (Hn Hdet)].
Defined.
End MatricesProperties.

Section InsertProperties.
Import Inputs MoreInputs.



(** X8.  Extraction after insertion doubles: for such an index and a
    matrix [X] of the shape [[p, q], [-conj q, conj p]],
    [extract_su2(insert_su2(X, k), k)] is [2 X]. *)
Theorem extract_su2_of_insert_su2 (Nc k : nat) (X : SU2Matrix) :
  (Z.of_nat Nc < 2 ^ 31)%Z ->
  (Z.of_nat k < num_subgroups (Z.of_nat Nc))%Z -> k < Nc ->
  m11 X = Cconj (m00 X) -> m10 X = Csub C0 (Cconj (m01 X)) ->
  exists N,
    insert_su2 Nc X (Z.of_nat k) = Ok N
    /\ extract_su2 Nc N (Z.of_nat k) = Ok (SU2.scale (RtoC 2) X).
Proof.
  intros HNc Hk HkN H1 H2.
  destruct (lookup_valid Nc HNc k Hk HkN)
    as (i & j & Hp & Hb & _ & _ & Hne).
  exists (placed X (Z.to_nat i) (Z.to_nat j)).
  split; [exact (insert_su2_at Nc X _ i j Hp Hb) |].
  apply extract_placed; try assumption. now split.
Qed.

Lemma extract_su2_of_insert_su2_witness :
  exists N,
    insert_su2 2 SU2.identity 0 = Ok N
    /\ extract_su2 2 N 0 = Ok (SU2.scale (RtoC 2) SU2.identity).
Proof.
  apply (extract_su2_of_insert_su2 2 0 SU2.identity).
  - vm_compute. reflexivity.
  - vm_compute. reflexivity.
  - lia.
  - exact (proj1 (proj1 su2_identity_unit)).
  - exact (proj2 (proj1 su2_identity_unit)).
Defined.
End InsertProperties.

(** ** algorithms/heatbath.hpp, and [random_sun] of utils/matrices.hpp *)

Section HeatbathProperties.
Import Inputs MoreInputs.
Local Open Scope R_scope.

Variable rng_state : Type.
Variable generate_real : R -> R -> rng_state -> R * rng_state.
Variable epsilon : R.
Variable Nc : nat.
Variable fuel : nat.

(** X9.  [su2_heatbath_update] keeps a unitary link unitary whenever
    the matrix it extracts has a determinant other than zero: for an
    index below both [Nc] and the number of subgroups, a positive
    weight and a generator whose samples lie in their intervals,
    every link the update returns is unitary. *)
Theorem su2_heatbath_update_preserves_unitarity
        (link staple : ColourMatrix) (weight : R) (k : nat)
        (E : SU2Matrix) (g g' : rng_state) (link' : ColourMatrix) :
  uniform_range generate_real ->
  (Z.of_nat Nc < 2 ^ 31)%Z ->
  (Z.of_nat k < num_subgroups (Z.of_nat Nc))%Z -> (k < Nc)%nat ->
  0 < weight ->
  CM.unitary Nc link ->
  extract_su2 Nc (CM.mul Nc link staple) (Z.of_nat k) = Ok E ->
  SU2.determinant E <> C0 ->
  su2_heatbath_update rng_state generate_real epsilon Nc fuel
                      link staple weight (Z.of_nat k) g = (Ok link', g') ->
  CM.unitary Nc link'.
Proof.
  intros Hr HNc. apply su2_heatbath_update_keeps_unitary; assumption.
Qed.

(** X10.  With four colours or more [random_sun] throws the range error
    of the subgroup lookup, from every generator state: its loop reaches
    the subgroup index [Nc]. *)
Theorem random_sun_throws (g : rng_state) :
  (Z.of_nat Nc < 2 ^ 31)%Z -> (4 <= Nc)%nat ->
  fst (random_sun rng_state generate_real Nc g) = Raise invalid_index.
Proof. intros HNc H4. now apply random_sun_raises. Qed.

(** X11.  With at most three colours and a generator whose samples lie
    in their intervals, [random_sun] returns a unitary matrix. *)
Theorem random_sun_returns_unitary (g : rng_state) :
  (Z.of_nat Nc < 2 ^ 31)%Z -> uniform_range generate_real ->
  (Nc <= 3)%nat ->
  exists U, fst (random_sun rng_state generate_real Nc g) = Ok U
            /\ CM.unitary Nc U.
Proof. intros HNc Hr H3. now apply random_sun_unitary. Qed.

(** X12.  With four colours or more no call of [heatbath_link_update]
    returns, whatever the action, the link and the state: the loop over
    the subgroups reaches the index [Nc], which the lookup refuses. *)
Theorem heatbath_link_update_never_returns
        (action : GaugeAction) (link_index : nat)
        (s : hb_state rng_state) :
  (Z.of_nat Nc < 2 ^ 31)%Z -> (4 <= Nc)%nat ->
  fst (heatbath_link_update rng_state generate_real epsilon Nc fuel
                            action link_index s) <> Ok tt.
Proof.
  intros HNc H4.
  apply (heatbath_link_update_fails rng_state generate_real epsilon Nc
           fuel HNc action link_index s H4).
Qed.

(** X13.  [heatbath_update] never changes the layout, the site size or
    the number of links of the gauge field, whatever the number of
    sweeps and whether or not it returns. *)
Theorem heatbath_update_keeps_shape
        (action : GaugeAction) (num_iter : nat) (s : hb_state rng_state) :
  let U := gauge_field _ s in
  let U' := gauge_field _
              (snd (heatbath_update rng_state generate_real epsilon Nc
                                    fuel action num_iter s)) in
  layout U' = layout U /\ site_size U' = site_size U
  /\ length (data U') = length (data U).
Proof.
  exact (heatbath_update_same_shape rng_state generate_real epsilon Nc
           fuel action num_iter s).
Qed.
End HeatbathProperties.

Section HeatbathWitnesses.
Import Inputs MoreInputs.
Local Open Scope R_scope.

Lemma su2_heatbath_update_preserves_unitarity_witness :
  exists link',
    su2_heatbath_update unit low_rng 0 2 2 CM.identity CM.identity 1 0 tt
    = (Ok link', tt)
    /\ CM.unitary 2 link'.
Proof.
  destruct identity_update_returns as (link' & Hup).
  destruct identity_extract as (E & HE & Hdet).
  exists link'. split; [exact Hup |].
  apply (su2_heatbath_update_preserves_unitarity unit low_rng 0 2 2
           CM.identity CM.identity 1 0 E tt tt link').
  - exact low_rng_uniform.
  - vm_compute. reflexivity.
  - vm_compute. reflexivity.
  - lia.
  - lra.
  - apply unitary_identity.
  - exact HE.
  - exact Hdet.
  - exact Hup.
Defined.

Lemma random_sun_throws_witness :
  fst (random_sun unit low_rng 4 tt) = Raise invalid_index.
Proof.
  apply random_sun_throws; [vm_compute; reflexivity | lia].
Defined.

Lemma random_sun_returns_unitary_witness :
  exists U, fst (random_sun unit low_rng 3 tt) = Ok U /\ CM.unitary 3 U.
Proof.
  apply random_sun_returns_unitary;
    [vm_compute; reflexivity | exact low_rng_uniform | lia].
Defined.

Lemma heatbath_link_update_never_returns_witness :
  fst (heatbath_link_update unit low_rng double_epsilon 4 1
                            zero_staple_action 0 one_link_state) <> Ok tt.
Proof.
  apply heatbath_link_update_never_returns;
    [vm_compute; reflexivity | lia].
Defined.
End HeatbathWitnesses.

Section UpdateRowsProperty.
Import Inputs MoreInputs.
Local Open Scope R_scope.

(** X14.  [su2_heatbath_update] for the subgroup [k] changes two rows of
    the link and no other: where it returns, every row of the new link
    other than the rows [i] and [j] of the [k]-th pair of the
    enumeration is the row of the old link, degenerate extract or
    not. *)
Theorem su2_heatbath_update_changes_two_rows
        (rng_state : Type)
        (generate_real : R -> R -> rng_state -> R * rng_state)
        (epsilon : R) (Nc fuel : nat)
        (link staple : ColourMatrix) (weight : R) (k : nat)
        (g g' : rng_state) (link' : ColourMatrix) :
  (Z.of_nat Nc < 2 ^ 31)%Z ->
  (Z.of_nat k < num_subgroups (Z.of_nat Nc))%Z -> (k < Nc)%nat ->
  su2_heatbath_update rng_state generate_real epsilon Nc fuel
                      link staple weight (Z.of_nat k) g = (Ok link', g') ->
  exists i j,
    lex_pairs Nc !! k = Some (Z.of_nat i, Z.of_nat j)
    /\ (i < j < Nc)%nat
    /\ forall r c, (r < Nc)%nat -> r <> i -> r <> j ->
                   link' r c = link r c.
Proof. apply su2_heatbath_update_rows. Qed.

Lemma su2_heatbath_update_changes_two_rows_witness :
  exists link',
    su2_heatbath_update unit low_rng 0 3 2 CM.identity CM.identity 1 0 tt
    = (Ok link', tt)
    /\ exists i j,
         lex_pairs 3 !! 0%nat = Some (Z.of_nat i, Z.of_nat j)
         /\ (i < j < 3)%nat
         /\ forall r c, (r < 3)%nat -> r <> i -> r <> j ->
                        link' r c = CM.identity r c.
Proof.
  destruct identity_update3_returns as (link' & Hup).
  exists link'. split; [exact Hup |].
  apply (su2_heatbath_update_changes_two_rows unit low_rng 0 3 2
           CM.identity CM.identity 1 0 tt tt link');
    [vm_compute; reflexivity | vm_compute; reflexivity | lia | exact Hup].
Defined.
End UpdateRowsProperty.

(** ** fermions/fermion_action.hpp *)

Section ActionProperties.
Local Open Scope R_scope.
Import Fermions.

(** X15.  The constructor of a fermion [Action] stores one phase for
    every twist angle, the phase of the angle [a] is
    [cos (2 pi a) + i sin (2 pi a)], and every phase has modulus
    one. *)
Theorem Action_phases_unit_modulus (pi_frac : list R) :
  length (Action_phases pi_frac) = length pi_frac
  /\ (forall k,
         Action_phases pi_frac !! k
         = (fun a => (cos (a * (2 * PI)), sin (a * (2 * PI))))
             <$> pi_frac !! k)
  /\ Forall (fun z => Cnorm2 z = 1) (Action_phases pi_frac).
Proof.
  destruct (Action_phases_unit pi_frac) as [Hl Hu].
  split; [exact Hl |]. split; [| exact Hu].
  intros k. apply Action_phases_lookup.
Qed.

(** X16.  Twist angles that differ by a whole number give the same
    phases. *)
Theorem Action_phases_whole_turns (pi_frac : list R) (turns : nat) :
  Action_phases (map (fun a => a + INR turns) pi_frac)
  = Action_phases pi_frac.
Proof. apply Action_phases_period. Qed.
End ActionProperties.

(** ** fermions/hopping_matrix.hpp *)

Section HoppingProperties.
Import Inputs MoreInputs HopSpec.

(** X17.  [apply_full] never throws and never runs on: it either leaves
    an array or returns, and what it returns has the layout, the site
    size and the number of elements of [fermion_out]. *)
Theorem apply_full_keeps_shape
        (Nc : nat) (hm : HoppingMatrix)
        (fermion_out fermion_in : Lattice ColourVector) :
  match apply_full Nc hm fermion_out fermion_in with
  | Ok r =>
      layout r = layout fermion_out
      /\ site_size r = site_size fermion_out
      /\ length (data r) = length (data fermion_out)
  | OutOfBounds => True
  | Raise _ | OutOfFuel => False
  end.
Proof. apply apply_full_shape. Qed.

(** X18.  [apply_full] reads [fermion_in] at the index
    [ndims * arr_index + beta], with the number of axes as the stride:
    on a lattice with a site, an axis and a spin component it leaves the
    array unless [fermion_in] holds more than
    [ndims * (volume - 1) + num_spins - 1] elements. *)
Theorem apply_full_reads_fermion_in_by_ndims
        (Nc : nat) (hm : HoppingMatrix)
        (fermion_out fermion_in : Lattice ColourVector) :
  1 <= volume (layout fermion_in) ->
  1 <= num_dims (layout fermion_in) ->
  1 <= num_spins hm ->
  length (data fermion_in)
  <= num_dims (layout fermion_in) * (volume (layout fermion_in) - 1)
     + (num_spins hm - 1) ->
  apply_full Nc hm fermion_out fermion_in = OutOfBounds.
Proof. apply apply_full_reads_in. Qed.

Lemma apply_full_reads_fermion_in_by_ndims_witness :
  apply_full 3 line_hopping_spin line_zero line_empty = OutOfBounds.
Proof.
  apply apply_full_reads_fermion_in_by_ndims; vm_compute; lia.
Defined.

(** X19.  [apply_full] returns whenever the sizes fit: a coefficient in
    every one of the first [2 ndims] spin structures for every pair of
    spin indices, [2 ndims volume] scattered links, an element of
    [fermion_in] at every index [ndims * arr_index + beta], and a
    neighbour row for every array index whose entries [n] leave room for
    [num_spins] elements of [fermion_out] from [num_spins * n] on. *)
Theorem apply_full_returns_when_sizes_fit
        (Nc : nat) (hm : HoppingMatrix)
        (fermion_out fermion_in : Lattice ColourVector) :
  fits hm fermion_out fermion_in ->
  exists r, apply_full Nc hm fermion_out fermion_in = Ok r
            /\ same_field_shape fermion_out r.
Proof. apply apply_full_returns. Qed.

Lemma apply_full_returns_when_sizes_fit_witness :
  exists r, apply_full 3 line_hopping_spin line_zero line_ones = Ok r
            /\ same_field_shape line_zero r.
Proof.
  apply apply_full_returns_when_sizes_fit. exact line_fits.
Defined.

(** X20.  The three-argument constructor followed by [apply_full]
    returns: on a well-formed layout and link field, with a phase for
    every axis, [2 ndims] spin structures that have a coefficient for
    every pair of spin indices below [2 ^ (ndims / 2)], a [fermion_in]
    of the layout of the links with [volume * max ndims num_spins]
    elements and a [fermion_out] with [volume * num_spins] elements. *)
Theorem HoppingMatrix_ctor_spin_then_apply_full
        (Nc Nhops : nat) (gf : Lattice ColourMatrix) (phases : list C)
        (spin_structures : list MatrixXcd)
        (fermion_out fermion_in : Lattice ColourVector) :
  let L := layout gf in
  let ns := 2 ^ (num_dims L / 2) in
  layout_ok Nhops L -> gauge_ok gf ->
  num_dims L <= length phases ->
  2 * num_dims L <= length spin_structures ->
  spin_structures_ok ns spin_structures ->
  layout fermion_in = L ->
  volume L * Nat.max (num_dims L) ns <= length (data fermion_in) ->
  volume L * ns <= length (data fermion_out) ->
  exists hm r,
    HoppingMatrix_ctor_spin Nc Nhops gf phases spin_structures = Ok hm
    /\ apply_full Nc hm fermion_out fermion_in = Ok r
    /\ same_field_shape fermion_out r.
Proof. cbv zeta. apply ctor_then_apply_full. Qed.

Lemma HoppingMatrix_ctor_spin_then_apply_full_witness :
  exists hm r,
    HoppingMatrix_ctor_spin 3 1 grid_gauge grid_phases grid_spin = Ok hm
    /\ apply_full 3 hm grid_ones grid_ones = Ok r
    /\ same_field_shape grid_ones r.
Proof.
  apply (HoppingMatrix_ctor_spin_then_apply_full
           3 1 grid_gauge grid_phases grid_spin grid_ones grid_ones).
  - exact grid_layout_ok.
  - exact grid_gauge_ok.
  - vm_compute. lia.
  - vm_compute. lia.
  - exact grid_spin_ok.
  - reflexivity.
  - vm_compute. lia.
  - vm_compute. lia.
Defined.

(** X21.  [apply_full] is linear in [fermion_in]: for two fields [x] and
    [y] of one layout on which it returns [rx] and [ry] from a zeroed
    output, it returns [alpha rx + beta ry] on [alpha x + beta y], for
    all complex [alpha] and [beta]. *)
Theorem apply_full_linear
        (Nc : nat) (alpha beta : C) (hm : HoppingMatrix)
        (out x y rx ry : Lattice ColourVector) :
  layout y = layout x ->
  apply_full Nc hm (zero_like out) x = Ok rx ->
  apply_full Nc hm (zero_like out) y = Ok ry ->
  apply_full Nc hm (zero_like out) (lin_field alpha beta x y)
  = Ok (lin_field alpha beta rx ry).
Proof. apply apply_full_lin. Qed.

Lemma apply_full_linear_witness :
  exists r,
    apply_full 3 line_hopping_spin (zero_like line_zero) line_ones = Ok r
    /\ apply_full 3 line_hopping_spin (zero_like line_zero)
                  (lin_field C1 Ci line_ones line_ones)
       = Ok (lin_field C1 Ci r r).
Proof.
  destruct line_apply_full_zero as (r & Hr).
  exists r. split; [exact Hr |].
  exact (apply_full_linear 3 C1 Ci line_hopping_spin line_zero
           line_ones line_ones r r eq_refl Hr Hr).
Defined.

(** X22.  On a well-formed layout with unitary links and phases of
    modulus one, the two-argument constructor returns and both matrices
    it stores for a site and an axis, the backward product in slot
    [2 d] and the forward product in slot [2 d + 1], are unitary. *)
Theorem HoppingMatrix_ctor_stores_unitary
        (Nc Nhops : nat) (gf : Lattice ColourMatrix) (phases : list C) :
  layout_ok Nhops (layout gf) -> gauge_ok gf ->
  num_dims (layout gf) <= length phases ->
  Forall (CM.unitary Nc) (data gf) ->
  Forall (fun z => Cnorm2 z = 1%R) phases ->
  exists hm,
    HoppingMatrix_ctor Nc Nhops gf phases = Ok hm
    /\ forall s d,
         s < volume (layout gf) -> d < num_dims (layout gf) ->
         let U := scattered_gauge_field_ hm in
         exists B F,
           Lat.read U (Lat.slot U s (2 * d)) = Ok B
           /\ Lat.read U (Lat.slot U s (2 * d + 1)) = Ok F
           /\ CM.unitary Nc B /\ CM.unitary Nc F.
Proof. apply HoppingMatrix_ctor_unitary. Qed.

Lemma HoppingMatrix_ctor_stores_unitary_witness :
  exists hm,
    HoppingMatrix_ctor 3 1 grid_gauge grid_phases = Ok hm
    /\ exists B F,
         Lat.read (scattered_gauge_field_ hm)
                  (Lat.slot (scattered_gauge_field_ hm) 5 2) = Ok B
         /\ Lat.read (scattered_gauge_field_ hm)
                     (Lat.slot (scattered_gauge_field_ hm) 5 3) = Ok F
         /\ CM.unitary 3 B /\ CM.unitary 3 F.
Proof.
  destruct (HoppingMatrix_ctor_stores_unitary 3 1 grid_gauge grid_phases)
    as (hm & E & H).
  - exact grid_layout_ok.
  - exact grid_gauge_ok.
  - vm_compute. lia.
  - exact grid_links_unitary.
  - exact grid_phases_unit.
  - exists hm. split; [exact E |].
    apply (H 5 1); vm_compute; lia.
Defined.

(** X23.  On a well-formed layout the two-argument constructor returns
    a matrix with [2 ^ (ndims / 2)] spin components, [2 ndims] scattered
    links per site, and a neighbour table of [volume] rows of [2 ndims]
    entries; the two entries it writes for a site and an axis are array
    indices below the volume. *)
Theorem HoppingMatrix_ctor_table_sizes
        (Nc Nhops : nat) (gf : Lattice ColourMatrix) (phases : list C) :
  let L := layout gf in
  layout_ok Nhops L -> gauge_ok gf -> num_dims L <= length phases ->
  exists hm,
    HoppingMatrix_ctor Nc Nhops gf phases = Ok hm
    /\ num_spins hm = 2 ^ (num_dims L / 2)
    /\ Lat.size (scattered_gauge_field_ hm) = volume L * (2 * num_dims L)
    /\ length (data (scattered_gauge_field_ hm))
       = volume L * (2 * num_dims L)
    /\ length (neighbour_array_indices_ hm) = volume L
    /\ Forall (fun row => length row = num_dims L * 2)
              (neighbour_array_indices_ hm)
    /\ forall s d, s < volume L -> d < num_dims L ->
         exists row m p,
           neighbour_array_indices_ hm !! get_array_index L s = Some row
           /\ row !! (2 * d) = Some m /\ row !! (2 * d + 1) = Some p
           /\ m < volume L /\ p < volume L.
Proof. cbv zeta. apply HoppingMatrix_ctor_tables. Qed.

Lemma HoppingMatrix_ctor_table_sizes_witness :
  exists hm,
    HoppingMatrix_ctor 3 1 grid_gauge grid_phases = Ok hm
    /\ num_spins hm = 2
    /\ length (neighbour_array_indices_ hm) = 6.
Proof.
  destruct (HoppingMatrix_ctor_table_sizes 3 1 grid_gauge grid_phases)
    as (hm & E & Hns & _ & _ & Hlen & _).
  - exact grid_layout_ok.
  - exact grid_gauge_ok.
  - vm_compute. lia.
  - exists hm. split; [exact E |]. split; [exact Hns | exact Hlen].
Defined.
End HoppingProperties.

Section MoreProperties.
Import Inputs MoreInputs HopSpec.
Local Open Scope R_scope.

(** X24.  [random_su2] covers half of SU(2) only: its first coefficient
    is a sample of the interval from 0 to 1, so with a generator whose
    samples lie in their intervals the trace of what it returns is real
    and lies in the interval from 0 to 2, 2 excluded. *)
Theorem random_su2_trace_nonnegative
        (rng_state : Type)
        (generate_real : R -> R -> rng_state -> R * rng_state)
        (g : rng_state) :
  uniform_range generate_real ->
  exists X, fst (random_su2 rng_state generate_real g) = Ok X
            /\ 0 <= Cre (SU2.trace X) < 2 /\ Cim (SU2.trace X) = 0.
Proof. intros Hr. now apply random_su2_trace. Qed.

Lemma random_su2_trace_nonnegative_witness :
  exists X, fst (random_su2 unit low_rng tt) = Ok X
            /\ 0 <= Cre (SU2.trace X) < 2 /\ Cim (SU2.trace X) = 0.
Proof. apply random_su2_trace_nonnegative. exact low_rng_uniform. Defined.

Local Close Scope R_scope.

(** X25.  The two-argument constructor reads [phases[d]] for every site
    that lies within [Nhops] of either end of the axis [d]: on a
    well-formed layout, when [phases] has no entry for an axis on which
    there is such a site, the constructor indexes outside [phases]. *)
Theorem HoppingMatrix_ctor_needs_a_phase
        (Nc Nhops : nat) (gf : Lattice ColourMatrix) (phases : list C)
        (s d : nat) :
  let L := layout gf in
  layout_ok Nhops L ->
  s < volume L -> d < num_dims L -> length phases <= d ->
  (coord_of L s d < Z.of_nat Nhops
   \/ extent_of L d <= coord_of L s d + Z.of_nat Nhops)%Z ->
  HoppingMatrix_ctor Nc Nhops gf phases = OutOfBounds.
Proof. cbv zeta. intros HL. now apply HoppingMatrix_ctor_needs_phase. Qed.

Lemma HoppingMatrix_ctor_needs_a_phase_witness :
  HoppingMatrix_ctor 3 1 grid_gauge [C1] = OutOfBounds.
Proof.
  apply (HoppingMatrix_ctor_needs_a_phase 3 1 grid_gauge [C1] 0 1).
  - exact grid_layout_ok.
  - vm_compute. lia.
  - vm_compute. lia.
  - vm_compute. lia.
  - left. vm_compute. reflexivity.
Defined.
End MoreProperties.


(** ** [apply_full] adds the stencil *)

Section VectorSums.
Lemma vadd_zero_l v : CM.vadd CM.vzero v = v.
Proof.
  extensionality k. unfold CM.vadd, CM.vzero. apply Cadd_0_l.
Qed.

Lemma vsum_ext n f g :
  (forall k, k < n -> f k = g k) -> vsum n f = vsum n g.
Proof.
  induction n as [| n IH]; intros H; cbn; [reflexivity |].
  rewrite IH by (intros; apply H; lia). now rewrite H by lia.
Qed.

Lemma vsum_zero n : vsum n (fun _ => CM.vzero) = CM.vzero.
Proof.
  induction n as [| n IH]; cbn; [reflexivity |].
  now rewrite IH, vadd_zero_l.
Qed.

Lemma vsum_shift n f :
  vsum (S n) f = CM.vadd (f 0) (vsum n (fun j => f (S j))).
Proof.
  induction n as [| n IH].
  - cbn. now rewrite vadd_zero_l, vadd_zero_r.
  - change (vsum (S (S n)) f) with (CM.vadd (vsum (S n) f) (f (S n))).
    rewrite IH. cbn [vsum]. apply vadd_assoc.
Qed.

(** A sum whose terms vanish away from [r] is its term at [r]. *)
Lemma vsum_single n r f :
  r < n -> (forall k, k < n -> k <> r -> f k = CM.vzero) ->
  vsum n f = f r.
Proof.
  induction n as [| n IH]; intros Hr H; [lia |]. cbn.
  destruct (decide (r = n)) as [-> | Hne].
  - rewrite (vsum_ext n f (fun _ => CM.vzero)) by (intros; apply H; lia).
    now rewrite vsum_zero, vadd_zero_l.
  - rewrite IH by (try lia; intros; apply H; lia).
    rewrite (H n) by lia. apply vadd_zero_r.
Qed.

Lemma vsum_none n f :
  (forall k, k < n -> f k = CM.vzero) -> vsum n f = CM.vzero.
Proof.
  intros H. rewrite (vsum_ext n f (fun _ => CM.vzero)) by exact H.
  apply vsum_zero.
Qed.
End VectorSums.

Section Adds.
Lemma adds_none s : adds (fun _ => CM.vzero) s s.
Proof.
  split; [repeat split |]. intros t x H. now rewrite vadd_zero_r.
Qed.

Lemma adds_trans c1 c2 s s1 s2 :
  adds c1 s s1 -> adds c2 s1 s2 ->
  adds (fun t => CM.vadd (c1 t) (c2 t)) s s2.
Proof.
  intros [(A1 & A2 & A3) HA] [(B1 & B2 & B3) HB]. split.
  - repeat split; congruence.
  - intros t x H. rewrite <- vadd_assoc. apply HB, HA, H.
Qed.

Lemma adds_ext c c' s s' :
  (forall t, c t = c' t) -> adds c s s' -> adds c' s s'.
Proof.
  intros E [Hs H]. split; [exact Hs |].
  intros t x Hx. rewrite <- E. now apply H.
Qed.

Lemma add_assign_adds s i v s' :
  add_assign s i v = Ok s' ->
  adds (fun t => if Nat.eqb t i then v else CM.vzero) s s'.
Proof.
  unfold add_assign, Lat.read, Lat.write, oread, owrite, mbind,
    outcome_bind.
  destruct (data s !! i) as [x |] eqn:Ex; cbn; [| discriminate].
  destruct (decide _) as [Hi |]; cbn; [| discriminate].
  intros [= <-]. split.
  - unfold same_field_shape, Lat.with_data; cbn.
    now rewrite length_insert.
  - intros t y Hy. cbn [data Lat.with_data].
    destruct (Nat.eqb_spec t i) as [-> | Hne].
    + rewrite list_lookup_insert_eq by exact Hi. congruence.
    + rewrite list_lookup_insert_ne by auto.
      now rewrite vadd_zero_r.
Qed.

Lemma for_loop_from_adds (c : nat -> nat -> ColourVector)
      (body : nat -> Lattice ColourVector -> outcome (Lattice ColourVector)) :
  (forall j s s', body j s = Ok s' -> adds (c j) s s') ->
  forall n i s s',
    for_loop_from i n body s = Ok s' ->
    adds (fun t => vsum n (fun j => c (i + j) t)) s s'.
Proof.
  intros Hb. induction n as [| n IH]; intros i s s'; cbn [for_loop_from].
  - intros [= <-]. apply adds_none.
  - destruct (body i s) as [s1 | | |] eqn:E1; cbn [obind];
      try discriminate.
    intros E. apply Hb in E1. apply IH in E.
    eapply adds_ext; [| exact (adds_trans _ _ _ _ _ E1 E)].
    intros t. cbv beta. rewrite vsum_shift, Nat.add_0_r. f_equal.
    apply vsum_ext. intros j _. now rewrite Nat.add_succ_r.
Qed.

Lemma for_loop_adds (c : nat -> nat -> ColourVector) body n s s' :
  (forall j s s', body j s = Ok s' -> adds (c j) s s') ->
  for_loop n body s = Ok s' ->
  adds (fun t => vsum n (fun j => c j t)) s s'.
Proof.
  intros Hb E. exact (for_loop_from_adds c body Hb n 0 s s' E).
Qed.
End Adds.

Section Indices.
(** Digits of a number in a mixed radix are unique. *)
Lemma radix_inj n a b a' b' :
  b < n -> b' < n -> n * a + b = n * a' + b' -> a = a' /\ b = b'.
Proof.
  intros Hb Hb' E.
  destruct (Nat.lt_trichotomy a a') as [H | [H | H]]; nia.
Qed.

(** The index of the element of [pre_gather_results] for the array
    index [a], the axis [mu], the spin [alpha] and the parity [p]. *)
Lemma gather_index_inj ns nd a mu al p a' mu' al' p' :
  mu < nd -> mu' < nd -> al < ns -> al' < ns -> p < 2 -> p' < 2 ->
  ns * (2 * (nd * a + mu)) + 2 * al + p
  = ns * (2 * (nd * a' + mu')) + 2 * al' + p' ->
  a = a' /\ mu = mu' /\ al = al' /\ p = p'.
Proof.
  intros Hmu Hmu' Hal Hal' Hp Hp' E.
  assert (E2 : 2 * (ns * (nd * a + mu) + al) + p
               = 2 * (ns * (nd * a' + mu') + al') + p') by lia.
  apply radix_inj in E2 as [E3 ->]; try assumption.
  apply radix_inj in E3 as [E4 ->]; try assumption.
  apply radix_inj in E4 as [-> ->]; try assumption.
  repeat split.
Qed.

Lemma gather_index_bound ns nd vol a mu al :
  a < vol -> mu < nd -> al < ns ->
  ns * (2 * (nd * a + mu)) + 2 * al + 1 < vol * (nd * ns * 2).
Proof.
  intros Ha Hmu Hal.
  assert (nd * a + mu + 1 <= nd * vol) by nia.
  assert (ns * (2 * (nd * a + mu + 1)) <= ns * (2 * (nd * vol)))
    by (apply Nat.mul_le_mono_l; lia).
  nia.
Qed.
End Indices.

Section Reads.
Lemma lat_read_field_at (f : Lattice ColourVector) i v :
  Lat.read f i = Ok v -> field_at f i = v.
Proof.
  unfold Lat.read, oread, field_at.
  destruct (data f !! i); [| discriminate]. now intros [= ->].
Qed.

Lemma field_at_some (f : Lattice ColourVector) i v :
  data f !! i = Some v -> field_at f i = v.
Proof. intros H. unfold field_at. now rewrite H. Qed.

Lemma lat_read_scattered_link hm i u :
  Lat.read (scattered_gauge_field_ hm) i = Ok u -> scattered_link hm i = u.
Proof.
  unfold Lat.read, oread, scattered_link.
  destruct (data _ !! i); [| discriminate]. now intros [= ->].
Qed.

Lemma read_spin_coeff hm k al be s z :
  oread (spin_structures_ hm) k = Ok s -> coeff s al be = Ok z ->
  spin_coeff hm k al be = z.
Proof. intros Hs Hz. unfold spin_coeff. now rewrite Hs; cbn; rewrite Hz. Qed.

Lemma read_neighbour_entry hm a k row n :
  oread (neighbour_array_indices_ hm) a = Ok row -> oread row k = Ok n ->
  neighbour_entry hm a k = n.
Proof.
  unfold oread, neighbour_entry.
  destruct (neighbour_array_indices_ hm !! a); [| discriminate].
  intros [= ->]. cbn. destruct (row !! k); [| discriminate].
  now intros [= ->].
Qed.
End Reads.

Section ClosedForm.
Variable Nc : nat.
Variable hm : HoppingMatrix.
Variable fermion_in : Lattice ColourVector.
Let nd := num_dims (layout fermion_in).
Let vol := volume (layout fermion_in).
Let ns := num_spins_ hm.

(** The two products of one turn of the innermost loop of the first
    loop nest. *)
Let term0 (a mu al be : nat) : ColourVector :=
  CM.mulv Nc
    (CM.scale (spin_coeff hm (2 * mu) al be)
              (scattered_link hm (2 * (nd * a + mu))))
    (field_at fermion_in (nd * a + be)).

Let term1 (a mu al be : nat) : ColourVector :=
  CM.mulv Nc
    (CM.scale (spin_coeff hm (2 * mu + 1) al be)
              (CM.adjoint (scattered_link hm (2 * (nd * a + mu) + 1))))
    (field_at fermion_in (nd * a + be)).

Let step_adds (a mu al be t : nat) : ColourVector :=
  CM.vadd
    (if Nat.eqb t (ns * (2 * (nd * a + mu)) + 2 * al)
     then term0 a mu al be else CM.vzero)
    (if Nat.eqb t (ns * (2 * (nd * a + mu)) + 2 * al + 1)
     then term1 a mu al be else CM.vzero).

Lemma gather_step_adds a mu al be pre pre' :
  gather_step Nc hm fermion_in nd a mu al be pre = Ok pre' ->
  adds (step_adds a mu al be) pre pre'.
Proof.
  unfold gather_step, mbind, outcome_bind. cbv zeta. fold ns.
  destruct (oread (spin_structures_ hm) (2 * mu)) as [s0 | | |] eqn:S0;
    cbn [obind]; try discriminate.
  destruct (coeff s0 al be) as [z0 | | |] eqn:Z0; cbn [obind];
    try discriminate.
  destruct (Lat.read (scattered_gauge_field_ hm) (2 * (nd * a + mu)))
    as [u0 | | |] eqn:U0; cbn [obind]; try discriminate.
  destruct (Lat.read fermion_in (nd * a + be)) as [psi | | |] eqn:P;
    cbn [obind]; try discriminate.
  destruct (add_assign pre _ _) as [pre1 | | |] eqn:A1; cbn [obind];
    try discriminate.
  destruct (oread (spin_structures_ hm) (2 * mu + 1)) as [s1 | | |] eqn:S1;
    cbn [obind]; try discriminate.
  destruct (coeff s1 al be) as [z1 | | |] eqn:Z1; cbn [obind];
    try discriminate.
  destruct (Lat.read (scattered_gauge_field_ hm) (2 * (nd * a + mu) + 1))
    as [u1 | | |] eqn:U1; cbn [obind]; try discriminate.
  intros A2.
  apply add_assign_adds in A1, A2.
  unfold step_adds, term0, term1.
  rewrite (read_spin_coeff hm _ al be s0 z0 S0 Z0).
  rewrite (read_spin_coeff hm _ al be s1 z1 S1 Z1).
  rewrite (lat_read_scattered_link hm _ u0 U0).
  rewrite (lat_read_scattered_link hm _ u1 U1).
  rewrite (lat_read_field_at fermion_in _ psi P).
  exact (adds_trans _ _ _ _ _ A1 A2).
Qed.

Lemma gather_adds pre :
  gather Nc hm fermion_in = Ok pre ->
  adds (fun t => vsum vol (fun a => vsum nd (fun mu =>
          vsum ns (fun al => vsum ns (fun be => step_adds a mu al be t)))))
       (Lat.fill (layout fermion_in) CM.vzero (nd * ns * 2)) pre.
Proof.
  unfold gather. cbv zeta. fold nd vol ns. intros E.
  apply (for_loop_adds
           (fun a t => vsum nd (fun mu => vsum ns (fun al =>
              vsum ns (fun be => step_adds a mu al be t))))) in E;
    [exact E |].
  intros a s s' E1.
  apply (for_loop_adds
           (fun mu t => vsum ns (fun al =>
              vsum ns (fun be => step_adds a mu al be t)))) in E1;
    [exact E1 |].
  intros mu s1 s1' E2.
  apply (for_loop_adds
           (fun al t => vsum ns (fun be => step_adds a mu al be t))) in E2;
    [exact E2 |].
  intros al s2 s2' E3.
  apply (for_loop_adds (fun be t => step_adds a mu al be t)) in E3;
    [exact E3 |].
  intros be s3 s3' E4. now apply gather_step_adds.
Qed.

(** The sum over all turns, read at the index of one element of
    [pre_gather_results], is the sum over [beta] of the turns that wrote
    that element. *)
Lemma gather_sum_at a mu al p :
  a < vol -> mu < nd -> al < ns -> p < 2 ->
  vsum vol (fun a' => vsum nd (fun mu' => vsum ns (fun al' =>
    vsum ns (fun be =>
      step_adds a' mu' al' be
                (ns * (2 * (nd * a + mu)) + 2 * al + p)))))
  = vsum ns (fun be =>
      if Nat.eqb p 0 then term0 a mu al be else term1 a mu al be).
Proof.
  intros Ha Hmu Hal Hp.
  assert (Hoff : forall a' mu' al' be,
             mu' < nd -> al' < ns ->
             (a', mu', al') <> (a, mu, al) ->
             step_adds a' mu' al' be
                       (ns * (2 * (nd * a + mu)) + 2 * al + p)
             = CM.vzero).
  { intros a' mu' al' be Hmu' Hal' Hne. unfold step_adds.
    destruct (Nat.eqb_spec (ns * (2 * (nd * a + mu)) + 2 * al + p)
                           (ns * (2 * (nd * a' + mu')) + 2 * al')) as [E | _].
    { exfalso. apply Hne.
      destruct (gather_index_inj ns nd a mu al p a' mu' al' 0)
        as (-> & -> & -> & _); try assumption; try lia. reflexivity. }
    destruct (Nat.eqb_spec (ns * (2 * (nd * a + mu)) + 2 * al + p)
                           (ns * (2 * (nd * a' + mu')) + 2 * al' + 1))
      as [E | _].
    { exfalso. apply Hne.
      destruct (gather_index_inj ns nd a mu al p a' mu' al' 1)
        as (-> & -> & -> & _); try assumption; try lia. reflexivity. }
    apply vadd_zero_l. }
  rewrite (vsum_single vol a); [| exact Ha |].
  2:{ intros a' _ Hne. apply vsum_none. intros mu' Hmu'.
      apply vsum_none. intros al' Hal'. apply vsum_none. intros be _.
      apply Hoff; try assumption. congruence. }
  rewrite (vsum_single nd mu); [| exact Hmu |].
  2:{ intros mu' Hmu' Hne. apply vsum_none. intros al' Hal'.
      apply vsum_none. intros be _.
      apply Hoff; try assumption. congruence. }
  rewrite (vsum_single ns al); [| exact Hal |].
  2:{ intros al' Hal' Hne. apply vsum_none. intros be _.
      apply Hoff; try assumption. congruence. }
  apply vsum_ext. intros be _. unfold step_adds.
  destruct p as [| [| p]]; [| | lia]; cbn [Nat.eqb].
  - rewrite Nat.add_0_r, Nat.eqb_refl.
    rewrite (proj2 (Nat.eqb_neq _ _)) by lia. apply vadd_zero_r.
  - rewrite Nat.eqb_refl.
    rewrite (proj2 (Nat.eqb_neq _ _)) by lia. apply vadd_zero_l.
Qed.

Lemma gather_entries pre a mu al :
  gather Nc hm fermion_in = Ok pre ->
  a < vol -> mu < nd -> al < ns ->
  field_at pre (2 * (ns * (nd * a + mu) + al))
  = gathered_even Nc hm fermion_in a mu al
  /\ field_at pre (2 * (ns * (nd * a + mu) + al) + 1)
     = gathered_odd Nc hm fermion_in a mu al.
Proof.
  intros E Ha Hmu Hal. apply gather_adds in E as [_ E].
  pose proof (gather_index_bound ns nd vol a mu al Ha Hmu Hal) as Hb.
  assert (Hfill : forall t, t < vol * (nd * ns * 2) ->
            data (Lat.fill (layout fermion_in) CM.vzero (nd * ns * 2)) !! t
            = Some CM.vzero).
  { intros t Ht. unfold Lat.fill. cbn [data]. fold vol.
    now apply lookup_replicate_2. }
  assert (H0 : ns * (2 * (nd * a + mu)) + 2 * al + 0 < vol * (nd * ns * 2))
    by lia.
  split.
  - replace (2 * (ns * (nd * a + mu) + al))
      with (ns * (2 * (nd * a + mu)) + 2 * al + 0) by lia.
    rewrite (field_at_some _ _ _ (E _ _ (Hfill _ H0))).
    rewrite vadd_zero_l, gather_sum_at by (assumption || lia).
    reflexivity.
  - replace (2 * (ns * (nd * a + mu) + al) + 1)
      with (ns * (2 * (nd * a + mu)) + 2 * al + 1) by lia.
    rewrite (field_at_some _ _ _ (E _ _ (Hfill _ Hb))).
    rewrite vadd_zero_l, gather_sum_at by (assumption || lia).
    reflexivity.
Qed.

Lemma scatter_step_adds pre a mu np nm al out out' :
  scatter_step hm pre nd a mu np nm al out = Ok out' ->
  adds (fun t =>
          CM.vadd
            (if Nat.eqb t (ns * np + al)
             then field_at pre (2 * (ns * (nd * a + mu) + al))
             else CM.vzero)
            (if Nat.eqb t (ns * nm + al)
             then field_at pre (2 * (ns * (nd * a + mu) + al) + 1)
             else CM.vzero))
       out out'.
Proof.
  unfold scatter_step, mbind, outcome_bind. cbv zeta. fold ns.
  set (gi := 2 * (ns * (nd * a + mu) + al)).
  destruct (Lat.read pre gi) as [p0 | | |] eqn:P0; cbn [obind];
    try discriminate.
  destruct (add_assign out _ p0) as [o1 | | |] eqn:A1; cbn [obind];
    try discriminate.
  destruct (Lat.read pre (gi + 1)) as [p1 | | |] eqn:P1; cbn [obind];
    try discriminate.
  intros A2. apply add_assign_adds in A1, A2.
  rewrite (lat_read_field_at pre _ p0 P0), (lat_read_field_at pre _ p1 P1).
  exact (adds_trans _ _ _ _ _ A1 A2).
Qed.

Lemma scatter_adds pre out r :
  scatter hm pre nd vol out = Ok r ->
  adds (fun t => vsum vol (fun a => vsum nd (fun mu => vsum ns (fun al =>
          CM.vadd
            (if Nat.eqb t (ns * neighbour_entry hm a (2 * mu) + al)
             then field_at pre (2 * (ns * (nd * a + mu) + al))
             else CM.vzero)
            (if Nat.eqb t (ns * neighbour_entry hm a (2 * mu + 1) + al)
             then field_at pre (2 * (ns * (nd * a + mu) + al) + 1)
             else CM.vzero)))))
       out r.
Proof.
  unfold scatter. intros E.
  apply (for_loop_adds
           (fun a t => vsum nd (fun mu => vsum ns (fun al =>
              CM.vadd
                (if Nat.eqb t (ns * neighbour_entry hm a (2 * mu) + al)
                 then field_at pre (2 * (ns * (nd * a + mu) + al))
                 else CM.vzero)
                (if Nat.eqb t (ns * neighbour_entry hm a (2 * mu + 1) + al)
                 then field_at pre (2 * (ns * (nd * a + mu) + al) + 1)
                 else CM.vzero))))) in E; [exact E |].
  intros a s s' E1.
  apply (for_loop_adds
           (fun mu t => vsum ns (fun al =>
              CM.vadd
                (if Nat.eqb t (ns * neighbour_entry hm a (2 * mu) + al)
                 then field_at pre (2 * (ns * (nd * a + mu) + al))
                 else CM.vzero)
                (if Nat.eqb t (ns * neighbour_entry hm a (2 * mu + 1) + al)
                 then field_at pre (2 * (ns * (nd * a + mu) + al) + 1)
                 else CM.vzero)))) in E1; [exact E1 |].
  intros mu s1 s1'. unfold mbind, outcome_bind.
  destruct (oread (neighbour_array_indices_ hm) a) as [row | | |] eqn:R;
    cbn [obind]; try discriminate.
  destruct (oread row (2 * mu)) as [np | | |] eqn:Np; cbn [obind];
    try discriminate.
  destruct (oread row (2 * mu + 1)) as [nm | | |] eqn:Nm; cbn [obind];
    try discriminate.
  intros E2.
  rewrite (read_neighbour_entry hm a _ row np R Np).
  rewrite (read_neighbour_entry hm a _ row nm R Nm).
  fold ns in E2.
  apply (for_loop_adds
           (fun al t =>
              CM.vadd
                (if Nat.eqb t (ns * np + al)
                 then field_at pre (2 * (ns * (nd * a + mu) + al))
                 else CM.vzero)
                (if Nat.eqb t (ns * nm + al)
                 then field_at pre (2 * (ns * (nd * a + mu) + al) + 1)
                 else CM.vzero))) in E2; [exact E2 |].
  intros al s2 s2' E3. now apply scatter_step_adds.
Qed.

(** [apply_full] adds the stencil to [fermion_out]. *)
Lemma apply_full_adds_stencil fermion_out r :
  apply_full Nc hm fermion_out fermion_in = Ok r ->
  adds (stencil Nc hm fermion_in) fermion_out r.
Proof.
  unfold apply_full, mbind, outcome_bind. cbv zeta. fold nd vol.
  destruct (gather Nc hm fermion_in) as [pre | | |] eqn:G; cbn [obind];
    try discriminate.
  intros E. apply scatter_adds in E.
  eapply adds_ext; [| exact E].
  intros t. unfold stencil. cbv zeta. fold nd vol ns.
  apply vsum_ext. intros a Ha. apply vsum_ext. intros mu Hmu.
  apply vsum_ext. intros al Hal.
  destruct (gather_entries pre a mu al G Ha Hmu Hal) as [-> ->].
  reflexivity.
Qed.
End ClosedForm.

Section StencilInputFacts.
Import Inputs StencilInputs.
Local Open Scope R_scope.

Lemma line3_hopping_built :
  HoppingMatrix_ctor_spin 3 1 line3_gauge [C1] [[[C1]]; [[C0]]]
  = Ok line3_hopping.
Proof. vm_compute. reflexivity. Qed.

Lemma cube_hopping_built :
  HoppingMatrix_ctor_spin 3 1 cube_gauge [C1; C1; C1] cube_spin
  = Ok cube_hopping.
Proof. vm_compute. reflexivity. Qed.

Lemma line3_apply_full :
  exists r, apply_full 3 line3_hopping line3_zero line3_source = Ok r.
Proof. eexists. vm_compute. reflexivity. Qed.

Lemma line3_code_at_1 :
  fst (stencil 3 line3_hopping line3_source 1 0%nat) = 0.
Proof. vm_compute. lra. Qed.

Lemma line3_spec_at_1 :
  fst (spec_stencil 3 line3_hopping line3_source 1 0%nat) = 1.
Proof. vm_compute. lra. Qed.

Lemma line3_code_at_2 :
  fst (stencil 3 line3_hopping line3_source 2 0%nat) = 1.
Proof. vm_compute. lra. Qed.

Lemma fits_same_length hm out out' fin :
  length (data out') = length (data out) ->
  fits hm out fin -> fits hm out' fin.
Proof.
  intros Hl [F1 F2 F3 F4]. split; try assumption.
  intros a k Ha Hk. rewrite Hl. now apply F4.
Qed.

Lemma line_fits_ones : fits line_hopping_spin line_ones line_ones.
Proof.
  exact (fits_same_length line_hopping_spin line_zero line_ones line_ones
           eq_refl line_fits).
Qed.

Lemma cube_out_of_bounds :
  apply_full 3 cube_hopping cube_ones cube_ones = OutOfBounds.
Proof. apply apply_full_reads_in; vm_compute; lia. Qed.
End StencilInputFacts.


(** * The stencil of [apply_full] *)

Section ClaimStencil.
Import Inputs StencilInputs.
Local Open Scope R_scope.


Local Close Scope R_scope.


End ClaimStencil.
